(** * t-chat: a shallow embedding of the chat core and its properties

    The development follows the layout of the repository:
    - the JavaScript values the code manipulates (strings as UTF-16 code
      units, byte arrays, JSON values, thrown errors);
    - what the platform computes for it: base64, UTF-8, JSON text, SHA-256,
      AES-GCM and the key operations of [crypto.subtle];
    - [types.ts]: messages, chats, peers;
    - [services/cryptoService.ts]: identifiers, key agreement, encryption;
    - [services/dbService.ts]: the IndexedDB persistence layer;
    - [hooks/useWebRTC.ts]: the handshake by invite and answer codes;
    - [components/ChatView.tsx]: the conversation map and its updaters;
    - [components/Login.tsx]: the stored identity.

    State held in React hooks is passed explicitly: an updater given to
    [setChats] is a function of the previous map that returns the next map
    together with the persistence calls it issued. *)

From Stdlib Require Import NArith ZArith List Ascii String Lia Bool Sorted Permutation.
From stdpp Require Import gmap strings list fin_maps.

Set Warnings "-register-all".
Open Scope N_scope.

(** ** JavaScript values *)

(** A JavaScript string is a sequence of UTF-16 code units. *)
Definition jsstring := list N.

(** An ASCII literal as a JavaScript string. *)
Definition str (s : string) : jsstring := map N_of_ascii (list_ascii_of_string s).

(** [s.startsWith(p)] *)
Fixpoint startsWith (s p : jsstring) : bool :=
  match p, s with
  | [], _ => true
  | c :: p', d :: s' => (c =? d) && startsWith s' p'
  | _ :: _, [] => false
  end.

(** [a === b] on strings. *)
Definition jseq (a b : jsstring) : bool := bool_decide (a = b).

(** [a === b] where either side may be [null]. *)
Definition jseq_opt (a b : option jsstring) : bool := bool_decide (a = b).

(** Errors a call can throw. *)
Inductive JSError :=
| InvalidCharacterError
| SyntaxError
| TypeError
| RangeError
| DataError
| OperationError
| InvalidAccessError
| InvalidStateError
| Error (message : jsstring).

Inductive result (A : Type) :=
| Ok (a : A)
| Throw (e : JSError).
Arguments Ok {A} a.
Arguments Throw {A} e.

#[global] Instance result_ret : MRet result := fun A a => Ok a.
#[global] Instance result_fmap : FMap result := fun A B f r =>
  match r with
  | Ok a => Ok (f a)
  | Throw e => Throw e
  end.
#[global] Instance result_bind : MBind result := fun A B k r =>
  match r with
  | Ok a => k a
  | Throw e => Throw e
  end.

(** JSON values. [JSON.parse] yields them and [JSON.stringify] prints them;
    an object keeps its members in insertion order. Numbers are restricted to
    the integers: the payloads of this program carry no fractional number. *)
Inductive JSON :=
| JNull
| JBool (b : bool)
| JNumber (z : Z)
| JString (s : jsstring)
| JArray (items : list JSON)
| JObject (members : list (jsstring * JSON)).

(** [obj[key]]: the value of the last member named [key], if any. *)
Fixpoint getProperty (members : list (jsstring * JSON)) (key : jsstring) : option JSON :=
  match members with
  | [] => None
  | (k, v) :: rest =>
      match getProperty rest key with
      | Some v' => Some v'
      | None => if jseq k key then Some v else None
      end
  end.

(** ** Binary strings and Base64

    [btoa] and [atob] follow the forgiving-base64 algorithms of the HTML
    standard. A byte array is a list of numbers below 256. *)

Definition base64_alphabet : jsstring :=
  str "ABCDEFGHIJKLMNOPQRSTUVWXYZabcdefghijklmnopqrstuvwxyz0123456789+/".

(** The alphabet of base64url (RFC 4648, section 5), used by JSON Web Keys. *)
Definition base64url_alphabet : jsstring :=
  str "ABCDEFGHIJKLMNOPQRSTUVWXYZabcdefghijklmnopqrstuvwxyz0123456789-_".

Definition base64_char (alphabet : jsstring) (sextet : N) : N :=
  nth (N.to_nat sextet) alphabet 0.

(** Position of a code unit in the alphabet. *)
Fixpoint index_of (c : N) (alphabet : jsstring) : option N :=
  match alphabet with
  | [] => None
  | a :: rest => if a =? c then Some 0 else N.succ <$> index_of c rest
  end.

Definition equals_sign : N := 61.

(** Three bytes make four sextets; a final group of one or two bytes is padded
    with [=] when [padding] is set. *)
Fixpoint base64_encode (alphabet : jsstring) (padding : bool) (bytes : list N) : jsstring :=
  match bytes with
  | b1 :: b2 :: b3 :: rest =>
      base64_char alphabet (b1 / 4)
      :: base64_char alphabet ((b1 mod 4) * 16 + b2 / 16)
      :: base64_char alphabet ((b2 mod 16) * 4 + b3 / 64)
      :: base64_char alphabet (b3 mod 64)
      :: base64_encode alphabet padding rest
  | [b1; b2] =>
      [base64_char alphabet (b1 / 4);
       base64_char alphabet ((b1 mod 4) * 16 + b2 / 16);
       base64_char alphabet ((b2 mod 16) * 4)]
      ++ (if padding then [equals_sign] else [])
  | [b1] =>
      [base64_char alphabet (b1 / 4);
       base64_char alphabet ((b1 mod 4) * 16)]
      ++ (if padding then [equals_sign; equals_sign] else [])
  | [] => []
  end.

(** [btoa(s)] throws when a code unit of [s] is above 0xFF. *)
Definition btoa (s : jsstring) : result jsstring :=
  if forallb (fun c => c <=? 255) s
  then Ok (base64_encode base64_alphabet true s)
  else Throw InvalidCharacterError.

Definition is_ascii_whitespace (c : N) : bool :=
  (c =? 9) || (c =? 10) || (c =? 12) || (c =? 13) || (c =? 32).

(** The sextets of the characters, or [None] at a character outside the
    alphabet. *)
Fixpoint sextets_of (alphabet : jsstring) (s : jsstring) : option (list N) :=
  match s with
  | [] => Some []
  | c :: rest =>
      match index_of c alphabet, sextets_of alphabet rest with
      | Some n, Some ns => Some (n :: ns)
      | _, _ => None
      end
  end.

(** Four sextets make three bytes; of a final group of two or three sextets
    the bits of the incomplete byte are discarded. *)
Fixpoint sextets_to_bytes (l : list N) : list N :=
  match l with
  | a :: b :: c :: d :: rest =>
      (a * 4 + b / 16) :: ((b mod 16) * 16 + c / 4) :: ((c mod 4) * 64 + d)
      :: sextets_to_bytes rest
  | [a; b; c] => [a * 4 + b / 16; (b mod 16) * 16 + c / 4]
  | [a; b] => [a * 4 + b / 16]
  | _ => []
  end.

(** Removes one or two trailing [=]. *)
Definition strip_padding (s : jsstring) : jsstring :=
  match rev s with
  | c1 :: r1 =>
      if c1 =? equals_sign then
        match r1 with
        | c2 :: r2 => if c2 =? equals_sign then rev r2 else rev r1
        | [] => rev r1
        end
      else s
  | [] => s
  end.

(** [atob(s)] *)
Definition atob (s : jsstring) : result jsstring :=
  let data := List.filter (fun c => negb (is_ascii_whitespace c)) s in
  let data := if N.of_nat (length data) mod 4 =? 0 then strip_padding data else data in
  if N.of_nat (length data) mod 4 =? 1 then Throw InvalidCharacterError
  else match sextets_of base64_alphabet data with
       | Some ns => Ok (sextets_to_bytes ns)
       | None => Throw InvalidCharacterError
       end.

(** Base64url without padding, as a JSON Web Key carries its octets. *)
Definition base64url_encode (bytes : list N) : jsstring :=
  base64_encode base64url_alphabet false bytes.

Definition base64url_decode (s : jsstring) : option (list N) :=
  if N.of_nat (length s) mod 4 =? 1 then None
  else sextets_to_bytes <$> sextets_of base64url_alphabet s.

(** [String.fromCharCode(u1, ..., un)] *)
Definition fromCharCode (units : list N) : jsstring := map (fun u => u mod 65536) units.

(** What the JavaScript engine decides: how many arguments a call takes. A
    call [f(...a)] that spreads an array of more elements throws a
    [RangeError]. *)
Class JSEngine := { argument_limit : N }.

(** [String.fromCharCode(...units)] on an array. *)
Definition fromCharCode_spread {js : JSEngine} (units : list N) : result jsstring :=
  if N.of_nat (length units) <=? argument_limit then Ok (fromCharCode units)
  else Throw RangeError.

(** [Uint8Array.from(s, c => c.charCodeAt(0))] for a string whose code units
    are below 0x100: every element is stored modulo 256. *)
Definition Uint8Array_from_charCodes (s : jsstring) : list N := map (fun c => c mod 256) s.

(** ** UTF-8 ([TextEncoder], [TextDecoder])

    After the Encoding standard. *)

Definition is_lead_surrogate (c : N) : bool := (0xD800 <=? c) && (c <=? 0xDBFF).
Definition is_trail_surrogate (c : N) : bool := (0xDC00 <=? c) && (c <=? 0xDFFF).

(** The scalar values of a string: a surrogate pair is one value, a lone
    surrogate is replaced by U+FFFD. *)
Fixpoint scalar_values (s : jsstring) : list N :=
  match s with
  | [] => []
  | c :: rest =>
      if is_lead_surrogate c then
        match rest with
        | d :: rest' =>
            if is_trail_surrogate d
            then (0x10000 + N.shiftl (c - 0xD800) 10 + (d - 0xDC00)) :: scalar_values rest'
            else 0xFFFD :: scalar_values rest
        | [] => [0xFFFD]
        end
      else if is_trail_surrogate c then 0xFFFD :: scalar_values rest
      else c :: scalar_values rest
  end.

Definition utf8_continuation (cp : N) (count : N) : N :=
  N.lor 0x80 (N.land (N.shiftr cp (6 * count)) 0x3F).

Definition utf8_encode_scalar (cp : N) : list N :=
  if cp <=? 0x7F then [cp]
  else if cp <=? 0x7FF then
    [N.shiftr cp 6 + 0xC0; utf8_continuation cp 0]
  else if cp <=? 0xFFFF then
    [N.shiftr cp 12 + 0xE0; utf8_continuation cp 1; utf8_continuation cp 0]
  else
    [N.shiftr cp 18 + 0xF0; utf8_continuation cp 2; utf8_continuation cp 1;
     utf8_continuation cp 0].

(** [new TextEncoder().encode(s)] *)
Definition TextEncoder_encode (s : jsstring) : list N :=
  flat_map utf8_encode_scalar (scalar_values s).

Module Utf8Decoder.
Record state := mk {
  code_point : N;
  bytes_seen : N;
  bytes_needed : N;
  lower_boundary : N;
  upper_boundary : N
}.

Definition initial : state := mk 0 0 0 0x80 0xBF.

(** A byte read with no sequence in progress. *)
Definition start (byte : N) : state * list N :=
  if byte <=? 0x7F then (initial, [byte])
  else if (0xC2 <=? byte) && (byte <=? 0xDF) then
    (mk (N.land byte 0x1F) 0 1 0x80 0xBF, [])
  else if (0xE0 <=? byte) && (byte <=? 0xEF) then
    (mk (N.land byte 0xF) 0 2
        (if byte =? 0xE0 then 0xA0 else 0x80)
        (if byte =? 0xED then 0x9F else 0xBF), [])
  else if (0xF0 <=? byte) && (byte <=? 0xF4) then
    (mk (N.land byte 0x7) 0 3
        (if byte =? 0xF0 then 0x90 else 0x80)
        (if byte =? 0xF4 then 0x8F else 0xBF), [])
  else (initial, [0xFFFD]).

(** One step of the decoder. A byte that breaks a sequence yields U+FFFD and
    is read again as the start of the next sequence. *)
Definition handler (st : state) (byte : N) : state * list N :=
  if bytes_needed st =? 0 then start byte
  else if negb ((lower_boundary st <=? byte) && (byte <=? upper_boundary st)) then
    let '(st', out) := start byte in (st', 0xFFFD :: out)
  else
    let cp := N.lor (N.shiftl (code_point st) 6) (N.land byte 0x3F) in
    let seen := bytes_seen st + 1 in
    if seen =? bytes_needed st then (initial, [cp])
    else (mk cp seen (bytes_needed st) 0x80 0xBF, []).

(** The scalar values decoded from [bytes]; a sequence cut short by the end
    of the input yields U+FFFD. *)
Fixpoint run (st : state) (bytes : list N) : list N :=
  match bytes with
  | [] => if bytes_needed st =? 0 then [] else [0xFFFD]
  | b :: rest => let '(st', out) := handler st b in out ++ run st' rest
  end.
End Utf8Decoder.

(** The code units of a scalar value. *)
Definition utf16_encode_scalar (cp : N) : list N :=
  if cp <? 0x10000 then [cp]
  else [0xD800 + N.shiftr (cp - 0x10000) 10; 0xDC00 + N.land (cp - 0x10000) 0x3FF].

(** [new TextDecoder().decode(bytes)]: UTF-8, not fatal, and a leading byte
    order mark is dropped ([ignoreBOM] is false). *)
Definition TextDecoder_decode (bytes : list N) : jsstring :=
  let cps := Utf8Decoder.run Utf8Decoder.initial bytes in
  let cps := match cps with
             | c :: rest => if c =? 0xFEFF then rest else cps
             | [] => cps
             end in
  flat_map utf16_encode_scalar cps.

(** ** Hexadecimal *)

Definition hex_digit (d : N) : N := if d <? 10 then 48 + d else 87 + d.

(** [b.toString(16).padStart(2, '0')] for a byte. *)
Definition hex2 (b : N) : jsstring := [hex_digit (b / 16); hex_digit (b mod 16)].

(** [s.substring(0, n)] *)
Definition substring0 (n : nat) (s : jsstring) : jsstring := firstn n s.

(** ** JSON.stringify and JSON.parse

    Integers are printed and read in plain decimal notation (as JavaScript
    prints an integer below 10^21); a number written with a fraction or an
    exponent has no value of type [JSON] and is rejected by [JSON_parse].
    Object keys that are array indices, which JavaScript enumerates first,
    do not occur in the payloads of this program and are not reordered. *)

Fixpoint decimal_digits (fuel : nat) (n : N) (acc : jsstring) : jsstring :=
  match fuel with
  | O => acc
  | S fuel' =>
      let acc' := (48 + n mod 10) :: acc in
      if n <? 10 then acc' else decimal_digits fuel' (n / 10) acc'
  end.

Definition decimal (n : N) : jsstring := decimal_digits (S (N.to_nat (N.log2 n))) n [].

Definition decimal_Z (z : Z) : jsstring :=
  match z with
  | Zneg p => 45 :: decimal (Npos p)
  | _ => decimal (Z.to_N z)
  end.

(** [\uXXXX] with lower-case digits. *)
Definition unicode_escape (c : N) : jsstring :=
  [92; 117; hex_digit (c / 4096); hex_digit ((c / 256) mod 16);
   hex_digit ((c / 16) mod 16); hex_digit (c mod 16)].

Definition json_escape_unit (c : N) : jsstring :=
  if c =? 8 then str "\b"
  else if c =? 9 then str "\t"
  else if c =? 10 then str "\n"
  else if c =? 12 then str "\f"
  else if c =? 13 then str "\r"
  else if c =? 34 then [92; 34]
  else if c =? 92 then [92; 92]
  else if c <? 32 then unicode_escape c
  else [c].

(** The characters of a quoted string: control characters, the quote and the
    backslash are escaped, and so is a surrogate that is not part of a
    pair. *)
Fixpoint quote_units (s : jsstring) : jsstring :=
  match s with
  | [] => []
  | c :: rest =>
      if is_lead_surrogate c then
        match rest with
        | d :: rest' =>
            if is_trail_surrogate d then c :: d :: quote_units rest'
            else unicode_escape c ++ quote_units rest
        | [] => unicode_escape c
        end
      else if is_trail_surrogate c then unicode_escape c ++ quote_units rest
      else json_escape_unit c ++ quote_units rest
  end.

Definition QuoteJSONString (s : jsstring) : jsstring := [34] ++ quote_units s ++ [34].

Fixpoint join_comma (parts : list jsstring) : jsstring :=
  match parts with
  | [] => []
  | [p] => p
  | p :: rest => p ++ [44] ++ join_comma rest
  end.

(** [JSON.stringify(v)] *)
Fixpoint JSON_stringify (v : JSON) : jsstring :=
  match v with
  | JNull => str "null"
  | JBool true => str "true"
  | JBool false => str "false"
  | JNumber z => decimal_Z z
  | JString s => QuoteJSONString s
  | JArray items => [91] ++ join_comma (map JSON_stringify items) ++ [93]
  | JObject members =>
      [123]
      ++ join_comma (map (fun kv => match kv with
                                    | (k, x) => QuoteJSONString k ++ [58] ++ JSON_stringify x
                                    end) members)
      ++ [125]
  end.

Definition is_json_whitespace (c : N) : bool :=
  (c =? 32) || (c =? 9) || (c =? 10) || (c =? 13).

Fixpoint skip_ws (s : jsstring) : jsstring :=
  match s with
  | c :: rest => if is_json_whitespace c then skip_ws rest else s
  | [] => []
  end.

Definition hex_value (c : N) : option N :=
  if (48 <=? c) && (c <=? 57) then Some (c - 48)
  else if (97 <=? c) && (c <=? 102) then Some (c - 87)
  else if (65 <=? c) && (c <=? 70) then Some (c - 55)
  else None.

Definition hex4 (a b c d : N) : option N :=
  a' ← hex_value a; b' ← hex_value b; c' ← hex_value c; d' ← hex_value d;
  Some (((a' * 16 + b') * 16 + c') * 16 + d').

Definition unescape (e : N) : option N :=
  if e =? 34 then Some 34
  else if e =? 92 then Some 92
  else if e =? 47 then Some 47
  else if e =? 98 then Some 8
  else if e =? 102 then Some 12
  else if e =? 110 then Some 10
  else if e =? 114 then Some 13
  else if e =? 116 then Some 9
  else None.

(** The characters of a string literal after its opening quote, and what
    follows the closing quote. *)
Fixpoint parse_string (s : jsstring) : option (jsstring * jsstring) :=
  match s with
  | [] => None
  | c :: rest =>
      if c =? 34 then Some ([], rest)
      else if c =? 92 then
        match rest with
        | e :: rest1 =>
            if e =? 117 then
              match rest1 with
              | h1 :: h2 :: h3 :: h4 :: rest2 =>
                  u ← hex4 h1 h2 h3 h4;
                  '(t, r) ← parse_string rest2;
                  Some (u :: t, r)
              | _ => None
              end
            else
              u ← unescape e;
              '(t, r) ← parse_string rest1;
              Some (u :: t, r)
        | [] => None
        end
      else if c <? 32 then None
      else '(t, r) ← parse_string rest; Some (c :: t, r)
  end.

Definition is_digit (c : N) : bool := (48 <=? c) && (c <=? 57).

Fixpoint parse_digits (s : jsstring) (acc : N) : N * jsstring :=
  match s with
  | c :: rest => if is_digit c then parse_digits rest (acc * 10 + (c - 48)) else (acc, s)
  | [] => (acc, [])
  end.

(** An integer literal: no leading zero, and no fraction or exponent after
    it. *)
Definition parse_natural (s : jsstring) : option (N * jsstring) :=
  match s with
  | c :: rest =>
      if negb (is_digit c) then None
      else
        let '(n, r) := if c =? 48 then (0, rest) else parse_digits s 0 in
        match r with
        | d :: _ => if is_digit d || (d =? 46) || (d =? 101) || (d =? 69) then None
                    else Some (n, r)
        | [] => Some (n, r)
        end
  | [] => None
  end.

Definition parse_number (s : jsstring) : option (Z * jsstring) :=
  match s with
  | c :: rest =>
      if c =? 45 then '(n, r) ← parse_natural rest; Some (Z.opp (Z.of_N n), r)
      else '(n, r) ← parse_natural s; Some (Z.of_N n, r)
  | [] => None
  end.

Fixpoint strip_prefix (p s : jsstring) : option jsstring :=
  match p, s with
  | [], _ => Some s
  | c :: p', d :: s' => if c =? d then strip_prefix p' s' else None
  | _ :: _, [] => None
  end.

(** [obj[key] = v] while the object is built: a key already present keeps its
    place and takes the new value. *)
Fixpoint set_member (key : jsstring) (v : JSON) (members : list (jsstring * JSON))
  : list (jsstring * JSON) :=
  match members with
  | [] => [(key, v)]
  | (k, x) :: rest => if jseq k key then (k, v) :: rest else (k, x) :: set_member key v rest
  end.

Fixpoint parse_value (fuel : nat) (s : jsstring) : option (JSON * jsstring) :=
  match fuel with
  | O => None
  | S fuel' =>
      match skip_ws s with
      | [] => None
      | c :: rest =>
          if c =? 34 then '(t, r) ← parse_string rest; Some (JString t, r)
          else if c =? 91 then
            match skip_ws rest with
            | d :: r =>
                if d =? 93 then Some (JArray [], r)
                else '(items, r) ← parse_elements fuel' rest; Some (JArray items, r)
            | [] => None
            end
          else if c =? 123 then
            match skip_ws rest with
            | d :: r =>
                if d =? 125 then Some (JObject [], r)
                else '(members, r) ← parse_members fuel' rest []; Some (JObject members, r)
            | [] => None
            end
          else if c =? 116 then r ← strip_prefix (str "rue") rest; Some (JBool true, r)
          else if c =? 102 then r ← strip_prefix (str "alse") rest; Some (JBool false, r)
          else if c =? 110 then r ← strip_prefix (str "ull") rest; Some (JNull, r)
          else '(z, r) ← parse_number (c :: rest); Some (JNumber z, r)
      end
  end
with parse_elements (fuel : nat) (s : jsstring) : option (list JSON * jsstring) :=
  match fuel with
  | O => None
  | S fuel' =>
      '(v, r) ← parse_value fuel' s;
      match skip_ws r with
      | c :: r' =>
          if c =? 44 then '(vs, r'') ← parse_elements fuel' r'; Some (v :: vs, r'')
          else if c =? 93 then Some ([v], r')
          else None
      | [] => None
      end
  end
with parse_members (fuel : nat) (s : jsstring) (acc : list (jsstring * JSON))
  : option (list (jsstring * JSON) * jsstring) :=
  match fuel with
  | O => None
  | S fuel' =>
      match skip_ws s with
      | q :: r =>
          if negb (q =? 34) then None else
          '(k, r1) ← parse_string r;
          match skip_ws r1 with
          | colon :: r2 =>
              if negb (colon =? 58) then None else
              '(v, r3) ← parse_value fuel' r2;
              match skip_ws r3 with
              | c :: r4 =>
                  if c =? 44 then parse_members fuel' r4 (set_member k v acc)
                  else if c =? 125 then Some (set_member k v acc, r4)
                  else None
              | [] => None
              end
          | [] => None
          end
      | [] => None
      end
  end.

(** [JSON.parse(text)] *)
Definition JSON_parse (text : jsstring) : result JSON :=
  match parse_value (S (2 * length text)) text with
  | Some (v, r) => match skip_ws r with [] => Ok v | _ => Throw SyntaxError end
  | None => Throw SyntaxError
  end.

(** ** Primitives of the Web Cryptography API

    The algorithms behind [crypto.subtle] that the program calls on byte
    arrays: SHA-256 (FIPS 180-4), AES (FIPS 197) and its Galois/Counter mode
    (NIST SP 800-38D). *)

(** *** Byte arrays *)

(** Big-endian bytes of a number, [n] of them. *)
Fixpoint be_bytes (n : nat) (x : N) : list N :=
  match n with
  | O => []
  | S n' => (x / 256 ^ N.of_nat n') mod 256 :: be_bytes n' x
  end.

(** The number whose big-endian bytes are given. *)
Definition be_number (bytes : list N) : N := fold_left (fun acc b => acc * 256 + b) bytes 0.

(** At most [count] successive pieces of [n] elements; the last piece may be
    shorter. *)
Fixpoint chunks {A} (count : nat) (n : nat) (l : list A) : list (list A) :=
  match count with
  | O => []
  | S count' =>
      match l with
      | [] => []
      | _ => firstn n l :: chunks count' n (skipn n l)
      end
  end.

(** All of [l] in pieces of [n] elements. *)
Definition blocks_of {A} (n : nat) (l : list A) : list (list A) := chunks (length l) n l.

Definition xor_bytes (a b : list N) : list N :=
  map (fun p => N.lxor (fst p) (snd p)) (combine a b).

(** *** SHA-256 *)
Module SHA256.
Definition w32 (x : N) : N := x mod 2 ^ 32.
Definition add32 (x y : N) : N := w32 (x + y).
Definition rotr (n x : N) : N := N.lor (N.shiftr x n) (w32 (N.shiftl x (32 - n))).
Definition Ch (x y z : N) : N := N.lxor (N.land x y) (N.land (N.lxor x 0xFFFFFFFF) z).
Definition Maj (x y z : N) : N := N.lxor (N.lxor (N.land x y) (N.land x z)) (N.land y z).
Definition Sigma0 (x : N) : N := N.lxor (N.lxor (rotr 2 x) (rotr 13 x)) (rotr 22 x).
Definition Sigma1 (x : N) : N := N.lxor (N.lxor (rotr 6 x) (rotr 11 x)) (rotr 25 x).
Definition sigma0 (x : N) : N := N.lxor (N.lxor (rotr 7 x) (rotr 18 x)) (N.shiftr x 3).
Definition sigma1 (x : N) : N := N.lxor (N.lxor (rotr 17 x) (rotr 19 x)) (N.shiftr x 10).

Definition is_prime (n : nat) : bool :=
  (1 <? n)%nat && forallb (fun d => negb (n mod d =? 0)%nat) (seq 2 (n - 2)).

(** The first sixty-four primes. *)
Definition primes : list N := N.of_nat <$> List.filter is_prime (seq 2 310).

(** The integer part of the cube root, bit by bit from the top. *)
Fixpoint cube_root (bits : nat) (r n : N) : N :=
  match bits with
  | O => r
  | S b =>
      let r' := r + 2 ^ N.of_nat b in
      if r' * r' * r' <=? n then cube_root b r' n else cube_root b r n
  end.

(** The first 32 bits of the fractional parts of the cube roots of the
    primes. *)
Definition K : list N :=
  Eval vm_compute in map (fun p => w32 (cube_root 36 0 (p * 2 ^ 96))) primes.

(** The first 32 bits of the fractional parts of the square roots of the
    first eight primes. *)
Definition H0 : list N :=
  Eval vm_compute in map (fun p => w32 (N.sqrt (p * 2 ^ 64))) (firstn 8 primes).

(** The message followed by 0x80, zeros up to 56 modulo 64, and the bit length
    on eight bytes. *)
Definition pad (msg : list N) : list N :=
  let len := N.of_nat (length msg) in
  let zeros := (119 - len mod 64) mod 64 in
  msg ++ [0x80] ++ repeat 0 (N.to_nat zeros) ++ be_bytes 8 (8 * len).

(** The next word of the schedule from the last sixteen, oldest first. *)
Definition next_word (w : list N) : N :=
  add32 (add32 (sigma1 (nth 14 w 0)) (nth 9 w 0)) (add32 (sigma0 (nth 1 w 0)) (nth 0 w 0)).

Fixpoint schedule (n : nat) (window : list N) : list N :=
  match n with
  | O => []
  | S n' =>
      match window with
      | [] => []
      | w0 :: tl => w0 :: schedule n' (tl ++ [next_word window])
      end
  end.

Definition round (st : list N) (kw : N * N) : list N :=
  match st with
  | [a; b; c; d; e; f; g; h] =>
      let t1 := add32 (add32 (add32 h (Sigma1 e)) (add32 (Ch e f g) (fst kw))) (snd kw) in
      let t2 := add32 (Sigma0 a) (Maj a b c) in
      [add32 t1 t2; a; b; c; add32 d t1; e; f; g]
  | _ => st
  end.

Definition compress (h : list N) (block : list N) : list N :=
  let w := schedule 64 (map be_number (blocks_of 4 block)) in
  let st := fold_left round (combine K w) h in
  map (fun p => add32 (fst p) (snd p)) (combine h st).

Definition digest (msg : list N) : list N :=
  flat_map (be_bytes 4) (fold_left compress (blocks_of 64 (pad msg)) H0).
End SHA256.

(** *** AES (FIPS 197) *)
Module AES.
Definition xtime (b : N) : N :=
  N.lxor (N.land (N.shiftl b 1) 0xFF) (if N.testbit b 7 then 0x1B else 0).

(** Product in GF(2^8). *)
Fixpoint gmul_fuel (n : nat) (a b : N) : N :=
  match n with
  | O => 0
  | S n' => N.lxor (if N.testbit b 0 then a else 0) (gmul_fuel n' (xtime a) (N.shiftr b 1))
  end.
Definition gmul (a b : N) : N := gmul_fuel 8 a b.

Definition gsquare (a : N) : N := gmul a a.

(** The inverse is the 254th power; zero is mapped to zero. *)
Definition ginv (a : N) : N :=
  let a2 := gsquare a in
  let a4 := gsquare a2 in
  let a8 := gsquare a4 in
  let a16 := gsquare a8 in
  let a32 := gsquare a16 in
  let a64 := gsquare a32 in
  let a128 := gsquare a64 in
  gmul a128 (gmul a64 (gmul a32 (gmul a16 (gmul a8 (gmul a4 a2))))).

Definition rotl8 (n b : N) : N := N.land (N.lor (N.shiftl b n) (N.shiftr b (8 - n))) 0xFF.

Definition affine (b : N) : N :=
  N.lxor (N.lxor (N.lxor (N.lxor (N.lxor b (rotl8 1 b)) (rotl8 2 b)) (rotl8 3 b)) (rotl8 4 b)) 0x63.

Definition sbox_table : list N :=
  Eval vm_compute in map (fun n => affine (ginv (N.of_nat n))) (seq 0 256).

Definition sbox (b : N) : N := nth (N.to_nat b) sbox_table 0.

Definition SubWord (w : list N) : list N := map sbox w.
Definition RotWord (w : list N) : list N :=
  match w with
  | a :: rest => rest ++ [a]
  | [] => []
  end.

Fixpoint rcon (i : nat) : N :=
  match i with
  | O => 0x8d
  | S i' => xtime (rcon i')
  end.

(** Words [Nk..] of the key schedule; [prev] holds the last [Nk] words,
    oldest first. *)
Fixpoint expand (fuel : nat) (Nk i : nat) (prev : list (list N)) : list (list N) :=
  match fuel with
  | O => []
  | S fuel' =>
      let temp := nth (Nk - 1) prev [] in
      let temp :=
        if (i mod Nk =? 0)%nat then xor_bytes (SubWord (RotWord temp)) [rcon (i / Nk); 0; 0; 0]
        else if (6 <? Nk)%nat && (i mod Nk =? 4)%nat then SubWord temp
        else temp in
      let w := xor_bytes (nth 0 prev []) temp in
      w :: expand fuel' Nk (S i) (tl prev ++ [w])
  end.

(** The round keys, sixteen bytes each, for a key of 16, 24 or 32 bytes. *)
Definition KeyExpansion (key : list N) : list (list N) :=
  let Nk := (length key / 4)%nat in
  let w0 := chunks Nk 4 key in
  let w := w0 ++ expand (4 * (Nk + 7) - Nk) Nk Nk w0 in
  map (@concat N) (chunks (Nk + 7) 4 w).

Definition SubBytes (s : list N) : list N := map sbox s.

(** The state is stored by columns: byte [r + 4c] is row [r] of column [c]. *)
Definition ShiftRows (s : list N) : list N :=
  map (fun i => nth ((i mod 4) + 4 * (((i / 4) + (i mod 4)) mod 4))%nat s 0) (seq 0 16).

Definition mix_column (c : list N) : list N :=
  match c with
  | [a0; a1; a2; a3] =>
      [N.lxor (N.lxor (gmul 2 a0) (gmul 3 a1)) (N.lxor a2 a3);
       N.lxor (N.lxor a0 (gmul 2 a1)) (N.lxor (gmul 3 a2) a3);
       N.lxor (N.lxor a0 a1) (N.lxor (gmul 2 a2) (gmul 3 a3));
       N.lxor (N.lxor (gmul 3 a0) a1) (N.lxor a2 (gmul 2 a3))]
  | _ => c
  end.

Definition MixColumns (s : list N) : list N := flat_map mix_column (chunks 4 4 s).

Definition full_round (s : list N) (rk : list N) : list N :=
  xor_bytes (MixColumns (ShiftRows (SubBytes s))) rk.

(** [Cipher] on one block of sixteen bytes. *)
Definition encrypt_block (key : list N) (block : list N) : list N :=
  match KeyExpansion key with
  | rk0 :: rks =>
      let s := xor_bytes block rk0 in
      let s := fold_left full_round (removelast rks) s in
      xor_bytes (ShiftRows (SubBytes s)) (List.last rks [])
  | [] => []
  end.
End AES.


(** *** Galois/Counter mode (NIST SP 800-38D) *)
Module GCM.
Definition R : N := N.shiftl 0xE1 120.

(** Product in GF(2^128); bit 127 of the number is the first bit of the
    block. *)
Fixpoint mul_loop (i : nat) (x z v : N) : N :=
  match i with
  | O => z
  | S i' =>
      let z' := if N.testbit x (N.of_nat i') then N.lxor z v else z in
      let v' := if N.testbit v 0 then N.lxor (N.shiftr v 1) R else N.shiftr v 1 in
      mul_loop i' x z' v'
  end.

Definition mul (x y : N) : N := mul_loop 128 x 0 y.

(** Zero bytes up to the next multiple of sixteen. *)
Definition pad16 (l : list N) : list N :=
  l ++ repeat 0 ((16 - length l mod 16) mod 16)%nat.

Definition GHASH (h : N) (data : list N) : N :=
  fold_left (fun y blk => mul (N.lxor y (be_number blk)) h) (blocks_of 16 data) 0.

Definition inc32 (cb : list N) : list N :=
  firstn 12 cb ++ be_bytes 4 ((be_number (skipn 12 cb) + 1) mod 2 ^ 32).

Fixpoint GCTR_blocks (key : list N) (cb : list N) (xs : list (list N)) : list N :=
  match xs with
  | [] => []
  | x :: rest => xor_bytes x (AES.encrypt_block key cb) ++ GCTR_blocks key (inc32 cb) rest
  end.

Definition GCTR (key : list N) (icb : list N) (x : list N) : list N :=
  GCTR_blocks key icb (blocks_of 16 x).

Definition zero_block : list N := repeat 0 16%nat.

Definition hash_subkey (key : list N) : N := be_number (AES.encrypt_block key zero_block).

Definition J0 (key : list N) (iv : list N) : list N :=
  if (length iv =? 12)%nat then iv ++ [0; 0; 0; 1]
  else be_bytes 16 (GHASH (hash_subkey key)
         (pad16 iv ++ repeat 0 8%nat ++ be_bytes 8 (8 * N.of_nat (length iv)))).

Definition tag (key iv aad c : list N) : list N :=
  let s := GHASH (hash_subkey key)
             (pad16 aad ++ pad16 c
              ++ be_bytes 8 (8 * N.of_nat (length aad)) ++ be_bytes 8 (8 * N.of_nat (length c))) in
  xor_bytes (AES.encrypt_block key (J0 key iv)) (be_bytes 16 s).

(** Ciphertext followed by the 128-bit tag. *)
Definition encrypt (key iv aad p : list N) : list N :=
  let c := GCTR key (inc32 (J0 key iv)) p in
  c ++ tag key iv aad c.

Definition decrypt (key iv aad ct : list N) : option (list N) :=
  if (length ct <? 16)%nat then None
  else
    let c := firstn (length ct - 16) ct in
    let t := skipn (length ct - 16) ct in
    if bool_decide (t = tag key iv aad c)
    then Some (GCTR key (inc32 (J0 key iv)) c)
    else None.
End GCM.

(** ** crypto.subtle

    Keys and the operations on them, after the Web Cryptography API. Length
    limits of the engines (2^39 - 256 bytes of plaintext, the number of
    arguments of a call) are not modelled. A member of a JSON Web Key whose
    JSON type is not the one the dictionary declares, which an engine would
    coerce, is rejected with [DataError]. *)

Definition JsonWebKey := JSON.

Inductive KeyUsage := encrypt_usage | decrypt_usage | deriveKey_usage.

#[global] Instance KeyUsage_eq_dec : EqDecision KeyUsage.
Proof. solve_decision. Defined.

Definition usage_name (u : KeyUsage) : jsstring :=
  match u with
  | encrypt_usage => str "encrypt"
  | decrypt_usage => str "decrypt"
  | deriveKey_usage => str "deriveKey"
  end.

(** A secret [CryptoKey] of algorithm AES-GCM: the engine keeps the raw key
    bytes behind the handle; [length] is the key length in bits. *)
Module CryptoKey.
Record t := mk {
  length : N;
  extractable : bool;
  usages : list KeyUsage;
  raw : list N
}.
End CryptoKey.

Definition has_usage (u : KeyUsage) (usages : list KeyUsage) : bool :=
  existsb (fun v => bool_decide (v = u)) usages.

(** [v[key]] for a JSON value; only an object has members. *)
Definition member (v : JSON) (key : jsstring) : option JSON :=
  match v with
  | JObject members => getProperty members key
  | _ => None
  end.

Definition string_member (jwk : JSON) (key : string) : result (option jsstring) :=
  match member jwk (str key) with
  | None => Ok None
  | Some (JString s) => Ok (Some s)
  | Some _ => Throw DataError
  end.

Definition is_json_string (s : jsstring) (v : JSON) : bool :=
  match v with
  | JString t => jseq s t
  | _ => false
  end.

(** The checks on [key_ops] and [ext] shared by every JSON Web Key import. *)
Definition check_key_ops_ext (jwk : JSON) (extractable : bool) (usages : list KeyUsage)
  : result unit :=
  match member jwk (str "key_ops") with
  | Some (JArray ops) =>
      if forallb (fun u => existsb (is_json_string (usage_name u)) ops) usages
      then Ok tt else Throw DataError
  | Some _ => Throw DataError
  | None => Ok tt
  end ≫= fun _ =>
  match member jwk (str "ext") with
  | Some (JBool false) => if extractable then Throw DataError else Ok tt
  | Some (JBool true) | None => Ok tt
  | Some _ => Throw DataError
  end.

(** A value that is not an object cannot be read as a dictionary. *)
Definition check_dictionary (jwk : JSON) : result unit :=
  match jwk with
  | JString _ | JNumber _ | JBool _ => Throw TypeError
  | _ => Ok tt
  end.

(** *** AES-GCM keys *)

Definition aes_alg_name (bits : N) : jsstring := str "A" ++ decimal bits ++ str "GCM".

(** [generateKey({ name: 'AES-GCM', length: 256 }, extractable, usages)] from
    the 32 bytes the random source hands out. *)
Definition generateKey_AES_GCM_256 (extractable : bool) (usages : list KeyUsage)
    (random : list N) : CryptoKey.t :=
  CryptoKey.mk 256 extractable usages random.

(** [exportKey('jwk', key)]: the members are in the order of the dictionary. *)
Definition exportKey_jwk_AES (key : CryptoKey.t) : result JsonWebKey :=
  if CryptoKey.extractable key then
    Ok (JObject
          [(str "alg", JString (aes_alg_name (CryptoKey.length key)));
           (str "ext", JBool true);
           (str "k", JString (base64url_encode (CryptoKey.raw key)));
           (str "key_ops", JArray (map (fun u => JString (usage_name u)) (CryptoKey.usages key)));
           (str "kty", JString (str "oct"))])
  else Throw InvalidAccessError.

(** [importKey('jwk', jwk, { name: 'AES-GCM' }, extractable, usages)] *)
Definition importKey_jwk_AES (jwk : JSON) (extractable : bool) (usages : list KeyUsage)
  : result CryptoKey.t :=
  if has_usage deriveKey_usage usages then Throw SyntaxError else
  _ ← check_dictionary jwk;
  kty ← string_member jwk "kty";
  if negb (bool_decide (kty = Some (str "oct"))) then Throw DataError else
  k ← string_member jwk "k";
  match k ≫= base64url_decode with
  | None => Throw DataError
  | Some data =>
      let bits := 8 * N.of_nat (length data) in
      if negb ((bits =? 128) || (bits =? 192) || (bits =? 256)) then Throw DataError else
      alg ← string_member jwk "alg";
      if negb (bool_decide (alg = None ∨ alg = Some (aes_alg_name bits))) then Throw DataError else
      use ← string_member jwk "use";
      if negb (bool_decide (usages = [] ∨ use = None ∨ use = Some (str "enc")))
      then Throw DataError else
      _ ← check_key_ops_ext jwk extractable usages;
      if bool_decide (usages = []) then Throw SyntaxError else
      Ok (CryptoKey.mk bits extractable usages data)
  end.

(** [encrypt({ name: 'AES-GCM', iv }, key, data)]: no additional data, a tag
    of 128 bits. The engines reject an empty [iv]. *)
Definition subtle_encrypt (iv : list N) (key : CryptoKey.t) (data : list N)
  : result (list N) :=
  if negb (has_usage encrypt_usage (CryptoKey.usages key)) then Throw InvalidAccessError
  else if bool_decide (iv = []) then Throw OperationError
  else Ok (GCM.encrypt (CryptoKey.raw key) iv [] data).

(** [decrypt({ name: 'AES-GCM', iv }, key, data)] *)
Definition subtle_decrypt (iv : list N) (key : CryptoKey.t) (data : list N)
  : result (list N) :=
  if negb (has_usage decrypt_usage (CryptoKey.usages key)) then Throw InvalidAccessError
  else if bool_decide (iv = []) then Throw OperationError
  else match GCM.decrypt (CryptoKey.raw key) iv [] data with
       | Some plaintext => Ok plaintext
       | None => Throw OperationError
       end.

(** *** ECDH keys

    The group of the named curve is a parameter: its points, the addition,
    the base point and its order, and the passage between a point and its
    affine coordinates ([affine] has no value at the point at infinity,
    [from_affine] none off the curve). *)
Class NamedCurve := {
  point : Type;
  padd : point -> point -> point;
  pzero : point;
  base_point : point;
  order : N;
  affine : point -> option (N * N);
  from_affine : N -> N -> option point
}.

Section ECDH.
Context {curve : NamedCurve}.

(** [d] times [P], by doubling and adding. *)
Definition smul (d : N) (P : point) : point :=
  match d with
  | N0 => pzero
  | Npos p => Pos.iter_op padd p P
  end.

(** A coordinate or a private value of P-384 fills 48 octets. *)
Definition field_octets : nat := 48.

Definition octets_member (jwk : JSON) (key : string) : result N :=
  s ← string_member jwk key;
  match s ≫= base64url_decode with
  | Some data =>
      if bool_decide (length data = field_octets) then Ok (be_number data) else Throw DataError
  | None => Throw DataError
  end.

(** What every import of an elliptic-curve JSON Web Key checks, and the
    public point the key carries. *)
Definition import_ec_point (jwk : JSON) (usages : list KeyUsage) : result point :=
  _ ← check_dictionary jwk;
  kty ← string_member jwk "kty";
  if negb (bool_decide (kty = Some (str "EC"))) then Throw DataError else
  use ← string_member jwk "use";
  if negb (bool_decide (usages = [] ∨ use = None ∨ use = Some (str "enc")))
  then Throw DataError else
  _ ← check_key_ops_ext jwk true usages;
  crv ← string_member jwk "crv";
  if negb (bool_decide (crv = Some (str "P-384"))) then Throw DataError else
  x ← octets_member jwk "x";
  y ← octets_member jwk "y";
  match from_affine x y with
  | Some Q => Ok Q
  | None => Throw DataError
  end.

(** [importKey('jwk', jwk, { name: 'ECDH', namedCurve: 'P-384' }, true, [])]:
    a public key. A key with a [d] member is a private key, which cannot be
    imported without a usage. *)
Definition importKey_jwk_ECDH_public (jwk : JSON) : result point :=
  match member jwk (str "d") with
  | Some _ => Throw SyntaxError
  | None => import_ec_point jwk []
  end.

(** [importKey('jwk', jwk, { name: 'ECDH', namedCurve: 'P-384' }, true,
    ['deriveKey'])]: a private key, which is its private value. *)
Definition importKey_jwk_ECDH_private (jwk : JSON) : result N :=
  match member jwk (str "d") with
  | None => Throw SyntaxError
  | Some _ =>
      _ ← import_ec_point jwk [deriveKey_usage];
      d ← octets_member jwk "d";
      if (0 <? d) && (d <? order) then Ok d else Throw DataError
  end.

Definition ec_jwk_members (x y : N) (key_ops : list JSON) : list (jsstring * JSON) :=
  [(str "ext", JBool true);
   (str "key_ops", JArray key_ops);
   (str "kty", JString (str "EC"));
   (str "x", JString (base64url_encode (be_bytes field_octets x)));
   (str "y", JString (base64url_encode (be_bytes field_octets y)))].

(** [exportKey('jwk', publicKey)] *)
Definition exportKey_jwk_ECDH_public (Q : point) : result JsonWebKey :=
  match affine Q with
  | Some (x, y) => Ok (JObject ((str "crv", JString (str "P-384")) :: ec_jwk_members x y []))
  | None => Throw OperationError
  end.

(** [exportKey('jwk', privateKey)] *)
Definition exportKey_jwk_ECDH_private (d : N) : result JsonWebKey :=
  match affine (smul d base_point) with
  | Some (x, y) =>
      Ok (JObject ((str "crv", JString (str "P-384"))
                   :: (str "d", JString (base64url_encode (be_bytes field_octets d)))
                   :: ec_jwk_members x y [JString (usage_name deriveKey_usage)]))
  | None => Throw OperationError
  end.

(** [deriveKey({ name: 'ECDH', public }, privateKey, { name: 'AES-GCM',
    length: 256 }, true, ['encrypt', 'decrypt'])]: the first 256 bits of the
    first coordinate of the shared point. *)
Definition deriveKey_ECDH_AES_GCM_256 (public : point) (privateKey : N) : result CryptoKey.t :=
  match affine (smul privateKey public) with
  | Some (x, _) =>
      Ok (CryptoKey.mk 256 true [encrypt_usage; decrypt_usage]
            (firstn 32 (be_bytes field_octets x)))
  | None => Throw OperationError
  end.
End ECDH.

(** ** types.ts *)

Module CryptoKeys.
Record t := mk { publicKey : JsonWebKey; privateKey : JsonWebKey }.
End CryptoKeys.

Module User.
Record t := mk {
  id : jsstring;
  name : jsstring;
  keys : CryptoKeys.t;
  isServerMode : bool
}.
End User.

(** What the program reads of an [RTCPeerConnection]. *)
Inductive RTCSignalingState :=
| stable | have_local_offer | have_remote_offer | have_local_pranswer | have_remote_pranswer
| closed.

#[global] Instance RTCSignalingState_eq_dec : EqDecision RTCSignalingState.
Proof. solve_decision. Defined.

Module RTCPeerConnection.
Record t := mk {
  signalingState : RTCSignalingState;
  localDescription : option JSON;
  remoteDescription : option JSON
}.
End RTCPeerConnection.

(** [readyState] of an [RTCDataChannel]. *)
Inductive RTCDataChannelState := channel_connecting | channel_open | channel_closing | channel_closed.

#[global] Instance RTCDataChannelState_eq_dec : EqDecision RTCDataChannelState.
Proof. solve_decision. Defined.

Inductive PeerStatus := connecting | connected | disconnected.

#[global] Instance PeerStatus_eq_dec : EqDecision PeerStatus.
Proof. solve_decision. Defined.

Module Peer.
Record t := mk {
  id : jsstring;
  name : jsstring;
  keys : CryptoKeys.t;
  isServerMode : bool;
  connection : RTCPeerConnection.t;
  dataChannel : RTCDataChannelState;
  status : PeerStatus;
  sharedSecret : option CryptoKey.t
}.
End Peer.

Inductive MessageType :=
| TEXT | USER_INFO | GROUP_KEY | MICRO_WORLD_UPDATE | SIGNALING_REQUEST | SIGNALING_RESPONSE.

Module TextMessage.
Record t := mk {
  timestamp : Z;
  id : jsstring;
  senderId : jsstring;
  recipientId : jsstring;
  encryptedContent : jsstring;
  iv : jsstring
}.
End TextMessage.

Module UserInfoMessage.
Record t := mk {
  timestamp : Z;
  payload_id : jsstring;
  payload_name : jsstring;
  payload_isServerMode : bool;
  payload_publicKey : JsonWebKey
}.
End UserInfoMessage.

Module GroupKeyMessage.
Record t := mk {
  timestamp : Z;
  groupId : jsstring;
  encryptedKey : jsstring;
  iv : jsstring
}.
End GroupKeyMessage.

Module MicroWorldUpdateMessage.
Record t := mk {
  timestamp : Z;
  groupId : jsstring;
  encryptedState : jsstring;
  iv : jsstring
}.
End MicroWorldUpdateMessage.

Inductive AppMessage :=
| Text (m : TextMessage.t)
| UserInfo (m : UserInfoMessage.t)
| GroupKey (m : GroupKeyMessage.t)
| MicroWorldUpdate (m : MicroWorldUpdateMessage.t).

Definition message_type (message : AppMessage) : MessageType :=
  match message with
  | Text _ => TEXT
  | UserInfo _ => USER_INFO
  | GroupKey _ => GROUP_KEY
  | MicroWorldUpdate _ => MICRO_WORLD_UPDATE
  end.

Module ChatMember.
Record t := mk { id : jsstring; name : jsstring }.
End ChatMember.

Inductive ChatType := dm | group.

#[global] Instance ChatType_eq_dec : EqDecision ChatType.
Proof. solve_decision. Defined.

Module Chat.
Record t := mk {
  id : jsstring;
  name : jsstring;
  type : ChatType;
  messages : list TextMessage.t;
  unreadCount : N;
  members : list ChatMember.t;
  groupKey : option CryptoKey.t;
  groupKeyJwk : option JsonWebKey
}.

Definition set_messages (ms : list TextMessage.t) (c : t) : t :=
  mk (id c) (name c) (type c) ms (unreadCount c) (members c) (groupKey c) (groupKeyJwk c).

Definition set_unreadCount (n : N) (c : t) : t :=
  mk (id c) (name c) (type c) (messages c) n (members c) (groupKey c) (groupKeyJwk c).
End Chat.

(** ** services/cryptoService.ts

    What the random source returns is an argument: the private value of a
    generated key pair, the bytes of a generated symmetric key, the nonce of
    an encryption. *)

Module EncryptedText.
Record t := mk { encryptedContent : jsstring; iv : jsstring }.
End EncryptedText.

(** Derives a stable user ID from their public key. *)
Definition generateUserIdFromPublicKey (publicKey : JsonWebKey) : jsstring :=
  let pubKeyString := JSON_stringify publicKey in
  let data := TextEncoder_encode pubKeyString in
  let hashArray := SHA256.digest data in
  substring0 16 (flat_map hex2 hashArray).

(** Generates a new symmetric key for group chats. *)
Definition generateSymmetricKey (random : list N) : CryptoKey.t :=
  generateKey_AES_GCM_256 true [encrypt_usage; decrypt_usage] random.

(** Exports a symmetric key to a storable format (JWK). *)
Definition exportSymmetricKey (key : CryptoKey.t) : result JsonWebKey :=
  exportKey_jwk_AES key.

(** Imports a symmetric key from a storable format (JWK). *)
Definition importSymmetricKey (jwk : JsonWebKey) : result CryptoKey.t :=
  importKey_jwk_AES jwk true [encrypt_usage; decrypt_usage].

(** Encrypts a text message using the shared secret; [iv] is what
    [getRandomValues(new Uint8Array(12))] returned. The bytes of the
    ciphertext, and then those of the nonce, are spread as the arguments of
    [String.fromCharCode]. *)
Definition encryptTextMessage {js : JSEngine} (content : jsstring)
    (sharedSecret : CryptoKey.t) (iv : list N) : result EncryptedText.t :=
  let encodedContent := TextEncoder_encode content in
  encryptedBuffer ← subtle_encrypt iv sharedSecret encodedContent;
  encryptedContent ← fromCharCode_spread encryptedBuffer ≫= btoa;
  ivString ← fromCharCode_spread iv ≫= btoa;
  Ok (EncryptedText.mk encryptedContent ivString).

(** Decrypts a text message using the shared secret. *)
Definition decryptTextMessage (encryptedContent ivString : jsstring)
    (sharedSecret : CryptoKey.t) : result jsstring :=
  encryptedBuffer ← Uint8Array_from_charCodes <$> atob encryptedContent;
  iv ← Uint8Array_from_charCodes <$> atob ivString;
  decryptedBuffer ← subtle_decrypt iv sharedSecret encryptedBuffer;
  Ok (TextDecoder_decode decryptedBuffer).

Section KeyAgreement.
Context {curve : NamedCurve}.

(** Generates a new ECDH key pair for a user; [d] is the private value the
    engine drew. *)
Definition generateKeys (d : N) : result CryptoKeys.t :=
  publicKey ← exportKey_jwk_ECDH_public (smul d base_point);
  privateKey ← exportKey_jwk_ECDH_private d;
  Ok (CryptoKeys.mk publicKey privateKey).

(** Creates a new user with a unique ID and a fresh key pair. *)
Definition generateUser (name : jsstring) (d : N) : result User.t :=
  keys ← generateKeys d;
  let id := generateUserIdFromPublicKey (CryptoKeys.publicKey keys) in
  Ok (User.mk id name keys false).

(** Derives a shared secret key for symmetric encryption between two users. *)
Definition deriveSharedSecret (myPrivateKey peerPublicKey : JsonWebKey) : result CryptoKey.t :=
  privateKey ← importKey_jwk_ECDH_private myPrivateKey;
  publicKey ← importKey_jwk_ECDH_public peerPublicKey;
  deriveKey_ECDH_AES_GCM_256 publicKey privateKey.
End KeyAgreement.

(** ** services/dbService.ts *)

(** The object [saveChat] hands to the [chats] store: a copy of the chat whose
    [messages] and [groupKey] properties are [undefined]. *)
Module StorableChat.
Record t := mk {
  id : jsstring;
  name : jsstring;
  type : ChatType;
  messages : option (list TextMessage.t);
  unreadCount : N;
  members : list ChatMember.t;
  groupKey : option CryptoKey.t;
  groupKeyJwk : option JsonWebKey
}.
End StorableChat.

(** The object [saveMessage] hands to the [messages] store. *)
Module StoredMessage.
Record t := mk { message : TextMessage.t; chatId : jsstring }.
End StoredMessage.

(** Both object stores are keyed by the [id] property ([keyPath: 'id']). *)
Module DatabaseService.
Record t := mk {
  chatStore : gmap jsstring StorableChat.t;
  messageStore : gmap jsstring StoredMessage.t
}.

Definition empty : t := mk ∅ ∅.

(** [{ ...chat, messages: undefined, groupKey: undefined }] *)
Definition storableChat (chat : Chat.t) : StorableChat.t :=
  StorableChat.mk (Chat.id chat) (Chat.name chat) (Chat.type chat) None
    (Chat.unreadCount chat) (Chat.members chat) None (Chat.groupKeyJwk chat).

Definition saveChat (chat : Chat.t) (db : t) : t :=
  mk (<[Chat.id chat := storableChat chat]> (chatStore db)) (messageStore db).

Definition saveMessage (message : TextMessage.t) (chatId : jsstring) (db : t) : t :=
  mk (chatStore db)
     (<[TextMessage.id message := StoredMessage.mk message chatId]> (messageStore db)).
End DatabaseService.

(** A call issued to the [db] singleton by the chat view. *)
Inductive DbCall :=
| SaveMessage (message : TextMessage.t) (chatId : jsstring)
| SaveChat (chat : Chat.t).

Definition run_db_call (c : DbCall) (db : DatabaseService.t) : DatabaseService.t :=
  match c with
  | SaveMessage message chatId => DatabaseService.saveMessage message chatId db
  | SaveChat chat => DatabaseService.saveChat chat db
  end.

Definition run_db_calls (cs : list DbCall) (db : DatabaseService.t) : DatabaseService.t :=
  fold_left (fun d c => run_db_call c d) cs db.

(** ** Array.prototype.sort

    [xs.sort(cmp)] is a stable sort: [x] goes after [y] only when
    [cmp(x, y) > 0]. Insertion from the right keeps equal elements in their
    original order. *)
Section ArraySort.
Context {A : Type} (cmp : A -> A -> Z).

Fixpoint sort_insert (x : A) (l : list A) : list A :=
  match l with
  | [] => [x]
  | y :: l' => if (cmp x y >? 0)%Z then y :: sort_insert x l' else x :: l
  end.

Definition Array_sort (l : list A) : list A := foldr sort_insert [] l.
End ArraySort.

(** ** hooks/useWebRTC.ts

    The WebRTC engine is a parameter: what each call on a connection does
    to the connection, or the error it throws. [gathered c] is the local
    description of [c] once its ICE gathering state is [complete], and has no
    value when gathering never completes. *)
Class RTCEngine := {
  setRemoteDescription : RTCPeerConnection.t -> option JSON -> result RTCPeerConnection.t;
  createOffer_description : RTCPeerConnection.t -> result JSON;
  createAnswer_description : RTCPeerConnection.t -> result JSON;
  setLocalDescription : RTCPeerConnection.t -> JSON -> result RTCPeerConnection.t;
  gathered : RTCPeerConnection.t -> option JSON
}.

(** How an asynchronous call ends: its promise is fulfilled, rejected, or
    never settled. [OutsideTypes] marks a payload whose [sender.id] or
    [sender.name] is not a string, which the type declarations exclude. *)
Inductive Settled (A : Type) :=
| Fulfilled (a : A)
| Rejected (e : JSError)
| Pending
| OutsideTypes.
Arguments Fulfilled {A} a.
Arguments Rejected {A} e.
Arguments Pending {A}.
Arguments OutsideTypes {A}.

Module Sender.
Record t := mk { id : jsstring; name : jsstring; publicKey : JSON }.
End Sender.

(** [const { sdp, sender } = JSON.parse(atob(code))] *)
Inductive Decoded :=
| Malformed (e : JSError)
| NoSender (sdp : option JSON)
| FromSender (sdp : option JSON) (sender : Sender.t)
| IllTyped.

(** A property that is absent reads as [undefined], which a key import takes
    as [null]. *)
Definition decode_code (code : jsstring) : Decoded :=
  match atob code ≫= JSON_parse with
  | Throw e => Malformed e
  | Ok JNull => Malformed TypeError
  | Ok v =>
      let sdp := member v (str "sdp") in
      match member v (str "sender") with
      | None | Some JNull => NoSender sdp
      | Some sender =>
          match member sender (str "id"), member sender (str "name") with
          | Some (JString id), Some (JString name) =>
              FromSender sdp
                (Sender.mk id name (default JNull (member sender (str "publicKey"))))
          | _, _ => IllTyped
          end
      end
  end.

Definition placeholder_keys : CryptoKeys.t := CryptoKeys.mk (JObject []) (JObject []).

(** [new RTCPeerConnection(RTC_CONFIG)] *)
Definition new_connection : RTCPeerConnection.t :=
  RTCPeerConnection.mk stable None None.

Definition createPeerConnection (peerId : jsstring) : Peer.t :=
  Peer.mk peerId (str "Peer-" ++ substring0 6 peerId) placeholder_keys false
    new_connection channel_connecting connecting None.

(** [setPeers(prev => [...prev.filter(p => p.id !== newPeer.id), newPeer])] *)
Definition addPeer (newPeer : Peer.t) (prev : list Peer.t) : list Peer.t :=
  filter (fun p => Peer.id p ≠ Peer.id newPeer) prev ++ [newPeer].

Definition set_connection (c : RTCPeerConnection.t) (p : Peer.t) : Peer.t :=
  Peer.mk (Peer.id p) (Peer.name p) (Peer.keys p) (Peer.isServerMode p) c
    (Peer.dataChannel p) (Peer.status p) (Peer.sharedSecret p).

Definition awaiting_answer (p : Peer.t) : bool :=
  bool_decide (RTCPeerConnection.signalingState (Peer.connection p) = have_local_offer).

(** A call on the connection of the first peer that satisfies [which] changes
    that object, which the list shares. *)
Fixpoint update_first (which : Peer.t -> bool) (f : Peer.t -> Peer.t) (peers : list Peer.t)
  : list Peer.t :=
  match peers with
  | [] => []
  | p :: rest => if which p then f p :: rest else p :: update_first which f rest
  end.

Section UseWebRTC.
Context {curve : NamedCurve} {engine : RTCEngine}.
Variable user : User.t.

Definition signal_payload (description : JSON) : JSON :=
  JObject
    [(str "sdp", description);
     (str "sender",
      JObject [(str "id", JString (User.id user));
               (str "name", JString (User.name user));
               (str "publicKey", CryptoKeys.publicKey (User.keys user))])].

(** The promise that resolves with the code once gathering is complete. An
    exception of [btoa] is raised inside the event handler, and the promise
    stays unsettled. *)
Definition code_when_gathered (c : RTCPeerConnection.t) : Settled jsstring :=
  match gathered c with
  | Some description =>
      match btoa (JSON_stringify (signal_payload description)) with
      | Ok code => Fulfilled code
      | Throw _ => Pending
      end
  | None => Pending
  end.

(** [createOffer()]; [tempId] is what [crypto.randomUUID()] returned. *)
Definition createOffer (tempId : jsstring) (peers : list Peer.t)
  : Settled jsstring * list Peer.t :=
  let peer := createPeerConnection tempId in
  let peers := addPeer peer peers in
  match createOffer_description (Peer.connection peer)
        ≫= setLocalDescription (Peer.connection peer) with
  | Throw e => (Rejected e, peers)
  | Ok c =>
      let peers := update_first (fun p => jseq (Peer.id p) tempId) (set_connection c) peers in
      (code_when_gathered c, peers)
  end.

(** [handleOffer(offerCode)]: the responder. It resolves with [undefined]
    ([None]) when a peer with the id of the sender is known already. *)
Definition handleOffer (peers : list Peer.t) (offerCode : jsstring)
  : Settled (option jsstring) * list Peer.t :=
  match decode_code offerCode with
  | Malformed e => (Rejected e, peers)
  | IllTyped => (OutsideTypes, peers)
  | NoSender _ => (Rejected TypeError, peers)
  | FromSender sdp sender =>
      if existsb (fun p => jseq (Peer.id p) (Sender.id sender)) peers
      then (Fulfilled None, peers)
      else
        let peer := createPeerConnection (Sender.id sender) in
        let answered :=
          c1 ← setRemoteDescription (Peer.connection peer) sdp;
          answer ← createAnswer_description c1;
          c2 ← setLocalDescription c1 answer;
          sharedSecret ← deriveSharedSecret (CryptoKeys.privateKey (User.keys user))
                            (Sender.publicKey sender);
          Ok (c2, sharedSecret) in
        match answered with
        | Throw e => (Rejected e, peers)
        | Ok (c2, sharedSecret) =>
            let peer :=
              Peer.mk (Peer.id peer) (Sender.name sender)
                (CryptoKeys.mk (Sender.publicKey sender) (CryptoKeys.privateKey (Peer.keys peer)))
                (Peer.isServerMode peer) c2 (Peer.dataChannel peer) (Peer.status peer)
                (Some sharedSecret) in
            let peers := addPeer peer peers in
            match code_when_gathered c2 with
            | Fulfilled code => (Fulfilled (Some code), peers)
            | Rejected e => (Rejected e, peers)
            | Pending => (Pending, peers)
            | OutsideTypes => (OutsideTypes, peers)
            end
        end
  end.

Definition invalid_code_error : JSError := Error (str "Invalid answer/offer code.").

(** Where [handleAnswer] ends after [handleOffer] returned [offerCode]
    outside the [catch] block: a code is shown in an alert. *)
Definition relay_code (offerCode : option jsstring) : option jsstring :=
  match offerCode with
  | Some (c :: code) => Some (c :: code)
  | _ => None
  end.

(** The [catch] block of [handleAnswer]. *)
Definition handleAnswer_catch (peers : list Peer.t) (answerCode : jsstring)
  : Settled (option jsstring) * list Peer.t :=
  match handleOffer peers answerCode with
  | (Fulfilled offerCode, peers') =>
      match relay_code offerCode with
      | Some code => (Fulfilled (Some code), peers')
      | None => (Rejected invalid_code_error, peers')
      end
  | other => other
  end.

(** The peer renamed by the answer of [sender]. *)
Definition answered_peer (sender : Sender.t) (sharedSecret : CryptoKey.t) (p : Peer.t) : Peer.t :=
  Peer.mk (Sender.id sender) (Sender.name sender)
    (CryptoKeys.mk (Sender.publicKey sender) (JObject []))
    (Peer.isServerMode p) (Peer.connection p) (Peer.dataChannel p) (Peer.status p)
    (Some sharedSecret).

(** [handleAnswer(answerCode)]. It resolves with the code it showed in an
    alert, if any. *)
Definition handleAnswer (peers : list Peer.t) (answerCode : jsstring)
  : Settled (option jsstring) * list Peer.t :=
  match decode_code answerCode with
  | Malformed _ => handleAnswer_catch peers answerCode
  | IllTyped => (OutsideTypes, peers)
  | decoded =>
      match find awaiting_answer peers with
      | None =>
          match handleOffer peers answerCode with
          | (Rejected _, peers') => handleAnswer_catch peers' answerCode
          | (Fulfilled offerCode, peers') => (Fulfilled (relay_code offerCode), peers')
          | other => other
          end
      | Some pendingPeer =>
          match setRemoteDescription (Peer.connection pendingPeer)
                  (match decoded with
                   | NoSender sdp | FromSender sdp _ => sdp
                   | _ => None
                   end) with
          | Throw _ => handleAnswer_catch peers answerCode
          | Ok c =>
              let peers := update_first awaiting_answer (set_connection c) peers in
              match decoded with
              | FromSender _ sender =>
                  match deriveSharedSecret (CryptoKeys.privateKey (User.keys user))
                          (Sender.publicKey sender) with
                  | Throw _ => handleAnswer_catch peers answerCode
                  | Ok sharedSecret =>
                      (Fulfilled None,
                       filter (fun p => Peer.id p ≠ Peer.id pendingPeer
                                        ∨ Peer.id p = Sender.id sender)
                         (map (fun p => if jseq (Peer.id p) (Peer.id pendingPeer)
                                        then answered_peer sender sharedSecret p else p)
                            peers))
                  end
              | _ => handleAnswer_catch peers answerCode
              end
          end
      end
  end.

(** [broadcastMessage(message, recipientIds)]: the peers the message is sent
    to. *)
Definition broadcastMessage (peers : list Peer.t) (recipientIds : list jsstring) : list jsstring :=
  Peer.id <$> filter (fun p => Peer.id p ∈ recipientIds ∧ Peer.dataChannel p = channel_open) peers.
End UseWebRTC.

(** ** components/ChatView.tsx *)

Definition by_timestamp (a b : TextMessage.t) : Z :=
  (TextMessage.timestamp a - TextMessage.timestamp b)%Z.

(** [n || 0] on a number. *)
Definition or_zero (n : N) : N := if n =? 0 then 0 else n.

(** The conversation a text message is filed under. *)
Definition target_chat (senderId : jsstring) (textMessage : TextMessage.t) : jsstring :=
  if startsWith (TextMessage.recipientId textMessage) (str "group-")
  then TextMessage.recipientId textMessage else senderId.

(** [handleNewMessage(senderId, message)] with the [activeChatId] its closure
    holds, as a function of the map [setChats] passes to the updater. A message
    that is not of type TEXT returns before [setChats] is called. The chat
    object is updated in place and stays under the same key. *)
Definition handleNewMessage (activeChatId : option jsstring)
    (senderId : jsstring) (message : AppMessage)
    (prevChats : gmap jsstring Chat.t) : gmap jsstring Chat.t * list DbCall :=
  match message with
  | Text textMessage =>
      let chatId := target_chat senderId textMessage in
      match prevChats !! chatId with
      | Some chat =>
          if negb (existsb (fun m => jseq (TextMessage.id m) (TextMessage.id textMessage))
                     (Chat.messages chat))
          then
            let pushed := Chat.messages chat ++ [textMessage] in
            let sorted := Array_sort by_timestamp pushed in
            let unread :=
              if negb (jseq_opt (Some chatId) activeChatId)
              then or_zero (Chat.unreadCount chat) + 1
              else Chat.unreadCount chat in
            (<[chatId := Chat.set_unreadCount unread (Chat.set_messages sorted chat)]> prevChats,
             [SaveMessage textMessage chatId])
          else (prevChats, [])
      | None => (prevChats, [])
      end
  | _ => (prevChats, [])
  end.

(** The updater [sendMessage] passes to [setChats]: the new message is pushed
    onto the active chat and saved. *)
Definition sendMessage_updater (activeChatId : jsstring) (message : TextMessage.t)
    (prev : gmap jsstring Chat.t) : gmap jsstring Chat.t * list DbCall :=
  match prev !! activeChatId with
  | Some currentChat =>
      (<[activeChatId := Chat.set_messages (Chat.messages currentChat ++ [message]) currentChat]> prev,
       [SaveMessage message activeChatId])
  | None => (prev, [])
  end.

(** The effect that runs when [activeChatId] changes: the unread count of the
    opened chat is cleared and the chat saved, when the count was positive.
    An empty string is falsy, like [null]. *)
Definition clearUnread_effect (activeChatId : option jsstring)
    (prev : gmap jsstring Chat.t) : gmap jsstring Chat.t * list DbCall :=
  match activeChatId with
  | Some (c :: cs) =>
      let activeChatId := c :: cs in
      match prev !! activeChatId with
      | Some chat =>
          if 0 <? Chat.unreadCount chat
          then
            let chat' := Chat.set_unreadCount 0 chat in
            (<[activeChatId := chat']> prev, [SaveChat chat'])
          else (prev, [])
      | None => (prev, [])
      end
  | _ => (prev, [])
  end.

(** The state of the component. *)
Module ChatView.
Record t := mk {
  chats : gmap jsstring Chat.t;
  activeChatId : option jsstring
}.

(** Before [loadChats] has read the database. *)
Definition initial : t := mk ∅ None.
End ChatView.

(** [if (x)] on a JSON value. *)
Definition truthy (v : JSON) : bool :=
  match v with
  | JNull | JBool false | JNumber Z0 | JString [] => false
  | _ => true
  end.

(** [selectChat(peerOrChatId, name)]: a chat is created for a known peer that
    has none yet, and the chat becomes the active one. *)
Definition selectChat (user : User.t) (peers : list Peer.t) (peerOrChatId : jsstring)
    (s : ChatView.t) : ChatView.t * list DbCall :=
  let chatId := peerOrChatId in
  match find (fun p => jseq (Peer.id p) peerOrChatId) peers, ChatView.chats s !! chatId with
  | Some peer, None =>
      let newChat :=
        Chat.mk (Peer.id peer) (Peer.name peer) dm [] 0
          [ChatMember.mk (User.id user) (User.name user);
           ChatMember.mk (Peer.id peer) (Peer.name peer)]
          None None in
      (ChatView.mk (<[chatId := newChat]> (ChatView.chats s)) (Some chatId), [SaveChat newChat])
  | _, _ => (ChatView.mk (ChatView.chats s) (Some chatId), [])
  end.

(** A state change followed by the effect on [activeChatId]. *)
Definition then_clearUnread (r : ChatView.t * list DbCall) : ChatView.t * list DbCall :=
  let '(s, calls) := r in
  let '(chats, calls') := clearUnread_effect (ChatView.activeChatId s) (ChatView.chats s) in
  (ChatView.mk chats (ChatView.activeChatId s), calls ++ calls').

(** What [sendMessage] did: the next map, the calls on the database, and the
    peers the message was sent to. *)
Module Sent.
Record t := mk {
  chats : gmap jsstring Chat.t;
  calls : list DbCall;
  message : option TextMessage.t;
  recipients : list jsstring
}.
End Sent.

(** [sendMessage(content)]; [uuid], [now] and [iv] are what
    [crypto.randomUUID()], [Date.now()] and the random source returned. *)
Definition sendMessage {js : JSEngine} (user : User.t) (peers : list Peer.t)
    (s : ChatView.t) (content : jsstring) (uuid : jsstring) (now : Z) (iv : list N)
  : result Sent.t :=
  let nothing := Ok (Sent.mk (ChatView.chats s) [] None []) in
  match ChatView.activeChatId s with
  | None | Some [] => nothing
  | Some activeChatId =>
      match ChatView.chats s !! activeChatId with
      | None => nothing
      | Some chat =>
          let encrypted :=
            match Chat.type chat with
            | dm =>
                match find (fun p => jseq (Peer.id p) (Chat.id chat)) peers with
                | Some peer =>
                    match Peer.sharedSecret peer with
                    | Some sharedSecret =>
                        e ← encryptTextMessage content sharedSecret iv;
                        Ok (Some (e, [Peer.id peer]))
                    | None => Ok None
                    end
                | None => Ok None
                end
            | group =>
                match Chat.groupKey chat with
                | Some groupKey =>
                    e ← encryptTextMessage content groupKey iv;
                    Ok (Some (e, filter (fun id => id ≠ User.id user)
                                   (ChatMember.id <$> Chat.members chat)))
                | None => Ok None
                end
            end in
          r ← encrypted;
          match r with
          | None => nothing
          | Some (e, recipientIds) =>
              let message :=
                TextMessage.mk now uuid (User.id user) (Chat.id chat)
                  (EncryptedText.encryptedContent e) (EncryptedText.iv e) in
              let '(chats, calls) := sendMessage_updater activeChatId message (ChatView.chats s) in
              let connectedRecipients :=
                filter (fun id => existsb (fun p => jseq (Peer.id p) id
                                                    && bool_decide (Peer.status p = connected))
                                    peers) recipientIds in
              Ok (Sent.mk chats calls (Some message) (broadcastMessage peers connectedRecipients))
          end
      end
  end.

(** [createGroup(name)]; [uuid] and [random] are what [crypto.randomUUID()]
    and the key generator drew. *)
Definition createGroup (user : User.t) (name : jsstring) (uuid : jsstring) (random : list N)
    (s : ChatView.t) : result (ChatView.t * list DbCall) :=
  let groupId := str "group-" ++ uuid in
  let groupKey := generateSymmetricKey random in
  groupKeyJwk ← exportSymmetricKey groupKey;
  let newGroup :=
    Chat.mk groupId name group [] 0 [ChatMember.mk (User.id user) (User.name user)]
      (Some groupKey) (Some groupKeyJwk) in
  Ok (ChatView.mk (<[groupId := newGroup]> (ChatView.chats s)) (Some groupId),
      [SaveChat newGroup]).

(** How [joinGroup] ends. [JoinOutsideTypes] marks an invite whose [groupId]
    or [groupName] is not a string although its key imports. *)
Inductive Joined :=
| JoinedGroup (s : ChatView.t) (calls : list DbCall)
| Reselected (s : ChatView.t)
| InvalidInviteCode (e : JSError)
| JoinOutsideTypes.

(** [joinGroup(inviteCode)]; every exception ends in the alert "Invalid
    invite code." *)
Definition joinGroup (user : User.t) (inviteCode : jsstring) (s : ChatView.t) : Joined :=
  match atob inviteCode ≫= JSON_parse with
  | Throw e => InvalidInviteCode e
  | Ok JNull => InvalidInviteCode TypeError
  | Ok v =>
      match member v (str "groupId") with
      | Some (JString groupId) =>
          if bool_decide (is_Some (ChatView.chats s !! groupId))
          then Reselected (ChatView.mk (ChatView.chats s) (Some groupId))
          else
            let groupKeyJwk := default JNull (member v (str "key")) in
            match importSymmetricKey groupKeyJwk, member v (str "groupName") with
            | Throw e, _ => InvalidInviteCode e
            | Ok groupKey, Some (JString groupName) =>
                let newGroup :=
                  Chat.mk groupId groupName group [] 0
                    [ChatMember.mk (User.id user) (User.name user)]
                    (Some groupKey) (Some groupKeyJwk) in
                JoinedGroup (ChatView.mk (<[groupId := newGroup]> (ChatView.chats s)) (Some groupId))
                  [SaveChat newGroup]
            | Ok _, _ => JoinOutsideTypes
            end
      | _ =>
          match importSymmetricKey (default JNull (member v (str "key"))) with
          | Throw e => InvalidInviteCode e
          | Ok _ => JoinOutsideTypes
          end
      end
  end.

(** [generateGroupInviteCode(groupId)] *)
Definition generateGroupInviteCode (chats : gmap jsstring Chat.t) (groupId : jsstring)
  : result jsstring :=
  match chats !! groupId with
  | Some chat =>
      match Chat.type chat, Chat.groupKeyJwk chat with
      | group, Some groupKeyJwk =>
          if truthy groupKeyJwk then
            let payload :=
              JObject [(str "groupId", JString (Chat.id chat));
                       (str "groupName", JString (Chat.name chat));
                       (str "key", groupKeyJwk)] in
            btoa (JSON_stringify payload)
          else Throw (Error (str "Invalid group or missing key"))
      | _, _ => Throw (Error (str "Invalid group or missing key"))
      end
  | None => Throw (Error (str "Invalid group or missing key"))
  end.

(** ** hooks/useWebRTC.ts: the data channel *)

(** The object [sendMessage] hands to [broadcastMessage], its properties in
    the order of the literal; [JSON.stringify] of it is what a data channel
    carries. *)
Definition TextMessage_to_JSON (m : TextMessage.t) : JSON :=
  JObject [(str "id", JString (TextMessage.id m));
           (str "type", JString (str "TEXT"));
           (str "senderId", JString (TextMessage.senderId m));
           (str "recipientId", JString (TextMessage.recipientId m));
           (str "encryptedContent", JString (TextMessage.encryptedContent m));
           (str "iv", JString (TextMessage.iv m));
           (str "timestamp", JNumber (TextMessage.timestamp m))].

(** The message a data channel sends when it opens; [now] is [Date.now()]. *)
Definition userInfoMessage (user : User.t) (now : Z) : UserInfoMessage.t :=
  UserInfoMessage.mk now (User.id user) (User.name user) (User.isServerMode user)
    (CryptoKeys.publicKey (User.keys user)).

Definition UserInfoMessage_to_JSON (m : UserInfoMessage.t) : JSON :=
  JObject [(str "type", JString (str "USER_INFO"));
           (str "payload",
            JObject [(str "id", JString (UserInfoMessage.payload_id m));
                     (str "name", JString (UserInfoMessage.payload_name m));
                     (str "publicKey", UserInfoMessage.payload_publicKey m);
                     (str "isServerMode", JBool (UserInfoMessage.payload_isServerMode m))]);
           (str "timestamp", JNumber (UserInfoMessage.timestamp m))].

Definition string_property (v : JSON) (key : string) : option jsstring :=
  match member v (str key) with
  | Some (JString s) => Some s
  | _ => None
  end.

Definition number_property (v : JSON) (key : string) : option Z :=
  match member v (str key) with
  | Some (JNumber z) => Some z
  | _ => None
  end.

Definition boolean_property (v : JSON) (key : string) : option bool :=
  match member v (str key) with
  | Some (JBool b) => Some b
  | _ => None
  end.

(** A parsed value read as the message its [type] announces, when it has the
    properties the type declares. *)
Definition as_TextMessage (v : JSON) : option TextMessage.t :=
  timestamp ← number_property v "timestamp";
  id ← string_property v "id";
  senderId ← string_property v "senderId";
  recipientId ← string_property v "recipientId";
  encryptedContent ← string_property v "encryptedContent";
  iv ← string_property v "iv";
  Some (TextMessage.mk timestamp id senderId recipientId encryptedContent iv).

Definition as_UserInfoMessage (v : JSON) : option UserInfoMessage.t :=
  timestamp ← number_property v "timestamp";
  payload ← member v (str "payload");
  id ← string_property payload "id";
  name ← string_property payload "name";
  isServerMode ← boolean_property payload "isServerMode";
  publicKey ← member payload (str "publicKey");
  Some (UserInfoMessage.mk timestamp id name isServerMode publicKey).

Definition as_GroupKeyMessage (v : JSON) : option GroupKeyMessage.t :=
  timestamp ← number_property v "timestamp";
  groupId ← string_property v "groupId";
  encryptedKey ← string_property v "encryptedKey";
  iv ← string_property v "iv";
  Some (GroupKeyMessage.mk timestamp groupId encryptedKey iv).

Definition as_MicroWorldUpdateMessage (v : JSON) : option MicroWorldUpdateMessage.t :=
  timestamp ← number_property v "timestamp";
  groupId ← string_property v "groupId";
  encryptedState ← string_property v "encryptedState";
  iv ← string_property v "iv";
  Some (MicroWorldUpdateMessage.mk timestamp groupId encryptedState iv).

Definition as_AppMessage (v : JSON) : option AppMessage :=
  match string_property v "type" with
  | Some t =>
      if jseq t (str "TEXT") then Text <$> as_TextMessage v
      else if jseq t (str "USER_INFO") then UserInfo <$> as_UserInfoMessage v
      else if jseq t (str "GROUP_KEY") then GroupKey <$> as_GroupKeyMessage v
      else if jseq t (str "MICRO_WORLD_UPDATE")
           then MicroWorldUpdate <$> as_MicroWorldUpdateMessage v
      else None
  | None => None
  end.

(** The updater of [setPeers] for a USER_INFO message received on the
    channel of [peerId]. *)
Definition update_user_info (peerId : jsstring) (userInfo : UserInfoMessage.t)
    (prev : list Peer.t) : list Peer.t :=
  map (fun p =>
         if jseq (Peer.id p) peerId
         then Peer.mk (Peer.id p) (UserInfoMessage.payload_name userInfo)
                (CryptoKeys.mk (UserInfoMessage.payload_publicKey userInfo)
                   (CryptoKeys.privateKey (Peer.keys p)))
                (UserInfoMessage.payload_isServerMode userInfo)
                (Peer.connection p) (Peer.dataChannel p) (Peer.status p) (Peer.sharedSecret p)
         else p)
    prev.

(** How [handleDataChannelMessage] ends: the text is not JSON (the exception
    is caught and logged), or [onNewMessage(peerId, message)] is called,
    after [setPeers] for a USER_INFO message. [OutsideMessageTypes] marks a
    value that is none of the declared messages. *)
Inductive Incoming :=
| Unparsed (e : JSError)
| Received (peers : list Peer.t) (message : AppMessage)
| OutsideMessageTypes.

Definition handleDataChannelMessage (data peerId : jsstring) (prev : list Peer.t) : Incoming :=
  match JSON_parse data with
  | Throw e => Unparsed e
  | Ok JNull => Unparsed TypeError
  | Ok v =>
      match as_AppMessage v with
      | Some (UserInfo userInfo) =>
          Received (update_user_info peerId userInfo prev) (UserInfo userInfo)
      | Some message => Received prev message
      | None => OutsideMessageTypes
      end
  end.

Definition set_status (status : PeerStatus) (p : Peer.t) : Peer.t :=
  Peer.mk (Peer.id p) (Peer.name p) (Peer.keys p) (Peer.isServerMode p) (Peer.connection p)
    (Peer.dataChannel p) status (Peer.sharedSecret p).

(** The updaters of [setPeers] in [onopen] and [onclose] of the channel that
    [setupDataChannelEvents] was given with [peerId]. *)
Definition dataChannel_onopen (peerId : jsstring) (prev : list Peer.t) : list Peer.t :=
  map (fun p => if jseq (Peer.id p) peerId then set_status connected p else p) prev.

Definition dataChannel_onclose (peerId : jsstring) (prev : list Peer.t) : list Peer.t :=
  map (fun p => if jseq (Peer.id p) peerId then set_status disconnected p else p) prev.

(** *** The handler a data channel keeps

    [setupDataChannelEvents] assigns [onmessage] once, when the channel is
    set up. The function assigned calls the [handleDataChannelMessage] of
    the render that set the channel up, and that one the [onNewMessage] of
    the same render: the [handleNewMessage] that closed over the
    [activeChatId] of that render. The callbacks later renders make are not
    given to the channel. *)
Module ChannelHandler.
Record t := mk { peerId : jsstring; activeChatId : option jsstring }.
End ChannelHandler.

(** [dataChannel.onmessage = (event) => handleDataChannelMessage(event, peerId)],
    assigned in a render where the chat view is in state [s]. *)
Definition setupDataChannelEvents_onmessage (peerId : jsstring) (s : ChatView.t)
  : ChannelHandler.t :=
  ChannelHandler.mk peerId (ChatView.activeChatId s).

(** A message event on the channel, with the peers and the chat view as they
    are when it arrives: the next peers, the next state of the chat view and
    the calls on the database. *)
Definition dataChannel_onmessage (handler : ChannelHandler.t) (data : jsstring)
    (peers : list Peer.t) (s : ChatView.t) : list Peer.t * ChatView.t * list DbCall :=
  match handleDataChannelMessage data (ChannelHandler.peerId handler) peers with
  | Received peers' message =>
      let '(chats, calls) :=
        handleNewMessage (ChannelHandler.activeChatId handler) (ChannelHandler.peerId handler)
          message (ChatView.chats s) in
      (peers', ChatView.mk chats (ChatView.activeChatId s), calls)
  | _ => (peers, s, [])
  end.

(** ** services/dbService.ts: reading *)

(** The order of IndexedDB on keys that are strings: by code units. *)
Fixpoint key_ltb (a b : jsstring) : bool :=
  match a, b with
  | _, [] => false
  | [], _ :: _ => true
  | x :: a', y :: b' => (x <? y) || ((x =? y) && key_ltb a' b')
  end.

Definition after_key {A : Type} (x y : jsstring * A) : Z := if key_ltb y.1 x.1 then 1 else 0.

(** [getAll()] on a store or an index: the records in ascending order of
    their keys. *)
Definition getAll {A : Type} (store : gmap jsstring A) : list A :=
  snd <$> Array_sort after_key (map_to_list store).

Definition by_stored_timestamp (a b : StoredMessage.t) : Z :=
  by_timestamp (StoredMessage.message a) (StoredMessage.message b).

Module DatabaseReads.
(** [getChats()] *)
Definition getChats (db : DatabaseService.t) : list StorableChat.t :=
  getAll (DatabaseService.chatStore db).

(** [getMessagesForChat(chatId)]: the index named [chatId] is on the
    property [recipientId]; what it returns is sorted by [timestamp]. *)
Definition getMessagesForChat (chatId : jsstring) (db : DatabaseService.t)
  : list StoredMessage.t :=
  Array_sort by_stored_timestamp
    (filter (fun r => TextMessage.recipientId (StoredMessage.message r) = chatId)
       (getAll (DatabaseService.messageStore db))).
End DatabaseReads.

(** ** components/ChatView.tsx: loading *)

(** [loadChats()], the effect that runs once: the map [setChats] is called
    with. A key that cannot be imported rejects the whole load, and
    [setChats] is not called. The objects read keep their [chatId] property,
    which nothing reads. *)
Definition loadChats (db : DatabaseService.t) : result (gmap jsstring Chat.t) :=
  foldl (fun (loaded : result (gmap jsstring Chat.t)) (savedChat : StorableChat.t) =>
           chatMap ← loaded;
           let messages := DatabaseReads.getMessagesForChat (StorableChat.id savedChat) db in
           groupKey ← match StorableChat.groupKeyJwk savedChat with
                      | Some jwk => if truthy jwk then Some <$> importSymmetricKey jwk
                                    else Ok None
                      | None => Ok None
                      end;
           Ok (<[StorableChat.id savedChat :=
                   Chat.mk (StorableChat.id savedChat) (StorableChat.name savedChat)
                     (StorableChat.type savedChat) (StoredMessage.message <$> messages)
                     (StorableChat.unreadCount savedChat) (StorableChat.members savedChat)
                     groupKey (StorableChat.groupKeyJwk savedChat)]> chatMap))
        (Ok ∅) (DatabaseReads.getChats db).

(** ** components/Login.tsx *)

(** The code units [trim] removes: white space and line terminators. *)
Definition is_white_space (c : N) : bool :=
  (c =? 0x9) || (c =? 0xA) || (c =? 0xB) || (c =? 0xC) || (c =? 0xD) || (c =? 0x20)
  || (c =? 0xA0) || (c =? 0x1680) || ((0x2000 <=? c) && (c <=? 0x200A))
  || (c =? 0x2028) || (c =? 0x2029) || (c =? 0x202F) || (c =? 0x205F) || (c =? 0x3000)
  || (c =? 0xFEFF).

Fixpoint trimStart (s : jsstring) : jsstring :=
  match s with
  | c :: rest => if is_white_space c then trimStart rest else s
  | [] => []
  end.

(** [s.trim()] *)
Definition trim (s : jsstring) : jsstring := rev (trimStart (rev (trimStart s))).

Definition CryptoKeys_to_JSON (keys : CryptoKeys.t) : JSON :=
  JObject [(str "publicKey", CryptoKeys.publicKey keys);
           (str "privateKey", CryptoKeys.privateKey keys)].

(** The object [handleSubmit] stores under ['aether-user-identity']. *)
Definition identityToStore (newUser : User.t) : JSON :=
  JObject [(str "id", JString (User.id newUser));
           (str "name", JString (User.name newUser));
           (str "keys", CryptoKeys_to_JSON (User.keys newUser))].

(** How [handleSubmit] ends: with the error on the name, with the text put in
    local storage and the user handed to [onLogin], or with the error of the
    key generation. *)
Inductive Submitted :=
| NameTooShort
| UserCreated (stored : jsstring) (newUser : User.t)
| CouldNotCreateUser (e : JSError).

(** [handleSubmit(e)] on the name typed; [d] is the private value the engine
    drew. *)
Definition Login_handleSubmit {curve : NamedCurve} (name : jsstring) (d : N) : Submitted :=
  if (length (trim name) <? 3)%nat then NameTooShort
  else match generateUser name d with
       | Ok newUser => UserCreated (JSON_stringify (identityToStore newUser)) newUser
       | Throw e => CouldNotCreateUser e
       end.

(** How the effect on the stored identity ends. [LoginOutsideTypes] marks a
    stored object whose [id] or [name] is not a string, or whose [keys] lack
    a key. *)
Inductive AutoLogin :=
| NoStoredIdentity
| LoggedIn (user : User.t)
| IdentityRemoved (e : JSError)
| LoginOutsideTypes.

Definition as_stored_User (v : JSON) : option User.t :=
  id ← string_property v "id";
  storedName ← string_property v "name";
  keys ← member v (str "keys");
  publicKey ← member keys (str "publicKey");
  privateKey ← member keys (str "privateKey");
  Some (User.mk id storedName (CryptoKeys.mk publicKey privateKey) false).

(** The effect that runs when the login screen is shown, on what
    [localStorage.getItem('aether-user-identity')] returned. An empty string
    is falsy, like [null]; an exception of [JSON.parse] or of the
    destructuring removes the item. *)
Definition Login_effect (storedIdentity : option jsstring) : AutoLogin :=
  match storedIdentity with
  | None | Some [] => NoStoredIdentity
  | Some storedIdentity =>
      match JSON_parse storedIdentity with
      | Throw e => IdentityRemoved e
      | Ok JNull => IdentityRemoved TypeError
      | Ok v =>
          match as_stored_User v with
          | Some user => LoggedIn user
          | None => LoginOutsideTypes
          end
      end
  end.

(** * Known answers

    The primitives are checked against the published test vectors. *)

Definition unhex (s : string) : list N :=
  (fix go (l : list N) : list N :=
     match l with
     | a :: b :: r => default 0 (hex_value a) * 16 + default 0 (hex_value b) :: go r
     | _ => []
     end) (str s).

Example sha256_abc :
  flat_map hex2 (SHA256.digest (str "abc"))
  = str "ba7816bf8f01cfea414140de5dae2223b00361a396177a9cb410ff61f20015ad".
Proof. vm_compute. reflexivity. Qed.

Example sha256_two_blocks :
  flat_map hex2
    (SHA256.digest (str "abcdbcdecdefdefgefghfghighijhijkijkljklmklmnlmnomnopnopq"))
  = str "248d6a61d20638b8e5c026930c3e6039a33ce45964ff2167f6ecedd419db06c1".
Proof. vm_compute. reflexivity. Qed.

(** FIPS 197, appendix C. *)
Example aes_128 :
  AES.encrypt_block (unhex "000102030405060708090a0b0c0d0e0f")
    (unhex "00112233445566778899aabbccddeeff")
  = unhex "69c4e0d86a7b0430d8cdb78070b4c55a".
Proof. vm_compute. reflexivity. Qed.

Example aes_192 :
  AES.encrypt_block (unhex "000102030405060708090a0b0c0d0e0f1011121314151617")
    (unhex "00112233445566778899aabbccddeeff")
  = unhex "dda97ca4864cdfe06eaf70a0ec0d7191".
Proof. vm_compute. reflexivity. Qed.

Example aes_256 :
  AES.encrypt_block (unhex "000102030405060708090a0b0c0d0e0f101112131415161718191a1b1c1d1e1f")
    (unhex "00112233445566778899aabbccddeeff")
  = unhex "8ea2b7ca516745bfeafc49904b496089".
Proof. vm_compute. reflexivity. Qed.

(** The GCM specification of McGrew and Viega, test cases 14, 16 and 17. *)
Example gcm_zero_key :
  GCM.encrypt (repeat 0 32) (repeat 0 12) [] (repeat 0 16)
  = unhex "cea7403d4d606b6e074ec5d3baf39d18d0d1c8a799996bf0265b98b5d48ab919".
Proof. vm_compute. reflexivity. Qed.

Definition gcm_key : list N :=
  unhex "feffe9928665731c6d6a8f9467308308feffe9928665731c6d6a8f9467308308".
Definition gcm_plaintext : list N :=
  unhex "d9313225f88406e5a55909c5aff5269a86a7a9531534f7da2e4c303d8a318a721c3c0c95956809532fcf0e2449a6b525b16aedf5aa0de657ba637b39".
Definition gcm_aad : list N := unhex "feedfacedeadbeeffeedfacedeadbeefabaddad2".

Example gcm_96_bit_iv :
  GCM.encrypt gcm_key (unhex "cafebabefacedbaddecaf888") gcm_aad gcm_plaintext
  = unhex "522dc1f099567d07f47f37a32a84427d643a8cdcbfe5c0c97598a2bd2555d1aa8cb08e48590dbb3da7b08b1056828838c5f61e6393ba7a0abcc9f66276fc6ece0f4e1768cddf8853bb2d551b".
Proof. vm_compute. reflexivity. Qed.

Example gcm_64_bit_iv :
  GCM.encrypt gcm_key (unhex "cafebabefacedbad") gcm_aad gcm_plaintext
  = unhex "c3762df1ca787d32ae47c13bf19844cbaf1ae14d0b976afac52ff7d79bba9de0feb582d33934a4f0954cc2363bc73f7862ac430e64abe499f47c9b1f3a337dbf46a792c45e454913fe2ea8f2".
Proof. vm_compute. reflexivity. Qed.

Example btoa_hello : btoa (str "Hello, world!") = Ok (str "SGVsbG8sIHdvcmxkIQ==").
Proof. vm_compute. reflexivity. Qed.

Example atob_forgiving : atob (str " SGVs bG8sIHdvcmxkIQ ") = Ok (str "Hello, world!").
Proof. vm_compute. reflexivity. Qed.

Example atob_bad_padding : atob (str "SGVsbG8sIHdvcmxkIQ=") = Throw InvalidCharacterError.
Proof. vm_compute. reflexivity. Qed.

(** "π€" and U+1F600, then a lone surrogate. *)
Example encode_utf8 :
  TextEncoder_encode [0x3C0; 0x20AC; 0xD83D; 0xDE00; 0xD800]
  = unhex "cf80e282acf09f9880efbfbd".
Proof. vm_compute. reflexivity. Qed.

Example decode_utf8_errors :
  TextDecoder_decode (unhex "e08041f09f41c3") = [0xFFFD; 0xFFFD; 0x41; 0xFFFD; 0x41; 0xFFFD].
Proof. vm_compute. reflexivity. Qed.

(** A text in which the apostrophe stands for the quotation mark. *)
Definition json_text (s : string) : jsstring :=
  map (fun c => if c =? 39 then 34 else c) (str s).

Example stringify_sample :
  JSON_stringify
    (JObject [(str "a", JArray [JNumber 1; JNumber (-20); JNull; JBool true]);
              (str "b", JString (str "x" ++ [34; 92; 10; 1; 0xD800; 0x3C0]))])
  = json_text "{'a':[1,-20,null,true],'b':'x\'\\\n\u0001\ud800" ++ [0x3C0] ++ json_text "'}".
Proof. vm_compute. reflexivity. Qed.

Example parse_sample :
  JSON_parse (json_text " { 'a' : [ 1 , -20 , { 'b' : null } ] , 'a' : true, 'c':'A\n\u00e9' } ")
  = Ok (JObject [(str "a", JBool true); (str "c", JString [65; 10; 233])]).
Proof. vm_compute. reflexivity. Qed.

Example parse_trailing_comma : JSON_parse (str "[1,]") = Throw SyntaxError.
Proof. vm_compute. reflexivity. Qed.

Example user_id_of_empty_object :
  generateUserIdFromPublicKey (JObject []) = str "44136fa355b3678a".
Proof. vm_compute. reflexivity. Qed.

(** * Properties of the encodings *)

Ltac Zify.zify_post_hook ::= Z.to_euclidean_division_equations.

(** A byte array: every element is below 256. *)
Definition is_bytes (l : list N) : Prop := Forall (fun b => b < 256) l.

Lemma list_ind3 {A} (P : list A -> Prop) :
  P [] -> (forall a, P [a]) -> (forall a b, P [a; b]) ->
  (forall a b c l, P l -> P (a :: b :: c :: l)) ->
  forall l, P l.
Proof.
  intros H0 H1 H2 H3.
  assert (forall l, P l /\ (forall a, P (a :: l)) /\ (forall a b, P (a :: b :: l))) as H.
  { induction l as [|x l (IH0 & IH1 & IH2)]; [by repeat split|].
    split; [apply IH1|]. split; [intros a; apply IH2|]. intros a b. by apply H3. }
  intros l. apply H.
Qed.

(** ** Base64 *)

(** The sextets of a byte array, before they are mapped to characters. *)
Fixpoint sextets (bytes : list N) : list N :=
  match bytes with
  | b1 :: b2 :: b3 :: rest =>
      b1 / 4 :: (b1 mod 4) * 16 + b2 / 16 :: (b2 mod 16) * 4 + b3 / 64 :: b3 mod 64
      :: sextets rest
  | [b1; b2] => [b1 / 4; (b1 mod 4) * 16 + b2 / 16; (b2 mod 16) * 4]
  | [b1] => [b1 / 4; (b1 mod 4) * 16]
  | [] => []
  end.

Definition padding_of (bytes : list N) : jsstring :=
  match (length bytes mod 3)%nat with
  | 1%nat => [equals_sign; equals_sign]
  | 2%nat => [equals_sign]
  | _ => []
  end.

Lemma base64_encode_sextets alphabet padding bytes :
  base64_encode alphabet padding bytes
  = map (base64_char alphabet) (sextets bytes) ++ (if padding then padding_of bytes else []).
Proof.
  induction bytes as [|a|a b|a b c l IH] using list_ind3.
  - by destruct padding.
  - by destruct padding.
  - by destruct padding.
  - change (base64_encode alphabet padding (a :: b :: c :: l))
      with (base64_char alphabet (a / 4)
            :: base64_char alphabet ((a mod 4) * 16 + b / 16)
            :: base64_char alphabet ((b mod 16) * 4 + c / 64)
            :: base64_char alphabet (c mod 64)
            :: base64_encode alphabet padding l).
    rewrite IH. simpl sextets. simpl map.
    replace (padding_of (a :: b :: c :: l)) with (padding_of l); [done|].
    unfold padding_of. simpl length.
    replace (S (S (S (length l)))) with (length l + 1 * 3)%nat by lia.
    by rewrite Nat.Div0.mod_add.
Qed.

Lemma sextets_to_bytes_sextets bytes : is_bytes bytes -> sextets_to_bytes (sextets bytes) = bytes.
Proof.
  induction bytes as [|a|a b|a b c l IH] using list_ind3; intros Hb.
  - done.
  - inversion Hb; subst. simpl. f_equal. lia.
  - inversion Hb as [|? ? Ha Hb']; subst. inversion Hb'; subst. simpl.
    f_equal; [lia|]. f_equal. lia.
  - inversion Hb as [|? ? Ha Hb1]; subst. inversion Hb1 as [|? ? Hb2 Hb3]; subst.
    inversion Hb3 as [|? ? Hc Hl]; subst.
    simpl sextets.
    change (sextets_to_bytes (?x :: ?y :: ?z :: ?w :: ?r))
      with (x * 4 + y / 16 :: (y mod 16) * 16 + z / 4 :: (z mod 4) * 64 + w
            :: sextets_to_bytes r).
    rewrite IH by done. f_equal; [lia|]. f_equal; [lia|]. f_equal. lia.
Qed.

Lemma sextets_below_64 bytes : is_bytes bytes -> Forall (fun s => s < 64) (sextets bytes).
Proof.
  induction bytes as [|a|a b|a b c l IH] using list_ind3; intros Hb.
  - constructor.
  - inversion Hb; subst. simpl. repeat constructor; lia.
  - inversion Hb as [|? ? Ha Hb']; subst. inversion Hb'; subst. simpl.
    repeat constructor; lia.
  - inversion Hb as [|? ? Ha Hb1]; subst. inversion Hb1 as [|? ? Hb2 Hb3]; subst.
    inversion Hb3 as [|? ? Hc Hl]; subst.
    simpl sextets. repeat (constructor; [lia|]). by apply IH.
Qed.

Lemma sextets_length_mod4 bytes : (length (sextets bytes) mod 4)%nat <> 1%nat.
Proof.
  induction bytes as [|a|a b|a b c l IH] using list_ind3; try (simpl; lia).
  simpl sextets. simpl length.
  replace (S (S (S (S (length (sextets l)))))) with (length (sextets l) + 1 * 4)%nat by lia.
  by rewrite Nat.Div0.mod_add.
Qed.

(** An alphabet of 64 characters in which every sextet is found again. *)
Definition alphabet_ok (alphabet : jsstring) : bool :=
  forallb (fun n => bool_decide (index_of (base64_char alphabet (N.of_nat n)) alphabet
                                 = Some (N.of_nat n))) (seq 0 64).

Lemma index_of_char alphabet n :
  alphabet_ok alphabet = true -> n < 64 ->
  index_of (base64_char alphabet n) alphabet = Some n.
Proof.
  intros Hok Hn. unfold alphabet_ok in Hok. rewrite forallb_forall in Hok.
  specialize (Hok (N.to_nat n)). rewrite N2Nat.id in Hok.
  apply bool_decide_eq_true in Hok; [done|].
  apply in_seq. lia.
Qed.

Lemma sextets_of_chars alphabet ss :
  alphabet_ok alphabet = true -> Forall (fun s => s < 64) ss ->
  sextets_of alphabet (map (base64_char alphabet) ss) = Some ss.
Proof.
  intros Hok. induction 1 as [|s ss Hs _ IH]; [done|].
  simpl. by rewrite index_of_char, IH.
Qed.

Lemma base64_alphabet_ok : alphabet_ok base64_alphabet = true.
Proof. vm_compute. reflexivity. Qed.

Lemma base64url_alphabet_ok : alphabet_ok base64url_alphabet = true.
Proof. vm_compute. reflexivity. Qed.

(** Base64url, as JSON Web Keys use it, is read back exactly. *)
Lemma base64url_decode_encode bytes :
  is_bytes bytes -> base64url_decode (base64url_encode bytes) = Some bytes.
Proof.
  intros Hb. unfold base64url_decode, base64url_encode.
  rewrite base64_encode_sextets, app_nil_r, length_map.
  destruct (N.eqb_spec (N.of_nat (length (sextets bytes)) mod 4) 1) as [Heq|_].
  - exfalso. apply (sextets_length_mod4 bytes).
    apply Nat2N.inj. rewrite Nat2N.inj_mod. exact Heq.
  - rewrite sextets_of_chars; [|apply base64url_alphabet_ok|by apply sextets_below_64].
    simpl. by rewrite sextets_to_bytes_sextets.
Qed.

(** A character of the alphabet is neither white space nor the padding
    sign. *)
Definition plain_char (c : N) : bool := negb (is_ascii_whitespace c) && negb (c =? equals_sign).

Lemma base64_char_plain n : n < 64 -> plain_char (base64_char base64_alphabet n) = true.
Proof.
  intros Hn.
  assert (forallb (fun k => plain_char (base64_char base64_alphabet (N.of_nat k))) (seq 0 64)
          = true) as H by (vm_compute; reflexivity).
  rewrite forallb_forall in H. specialize (H (N.to_nat n)).
  rewrite N2Nat.id in H. apply H, in_seq. lia.
Qed.

Lemma strip_padding_none body :
  Forall (fun c => plain_char c = true) body -> strip_padding body = body.
Proof.
  intros Hb. unfold strip_padding.
  destruct (rev body) as [|c r] eqn:Hr; [done|].
  assert (plain_char c = true) as Hc.
  { rewrite List.Forall_forall in Hb. apply Hb. apply in_rev. rewrite Hr. by left. }
  unfold plain_char in Hc. apply andb_true_iff in Hc as [_ Hc].
  by rewrite (negb_true_iff _) in Hc; rewrite Hc.
Qed.

Lemma strip_padding_one body :
  Forall (fun c => plain_char c = true) body -> strip_padding (body ++ [equals_sign]) = body.
Proof.
  intros Hb. unfold strip_padding. rewrite rev_app_distr. simpl.
  destruct (rev body) as [|c r] eqn:Hr.
  - apply (f_equal (@rev N)) in Hr. rewrite rev_involutive in Hr. by subst.
  - assert (plain_char c = true) as Hc.
    { rewrite List.Forall_forall in Hb. apply Hb. apply in_rev. rewrite Hr. by left. }
    unfold plain_char in Hc. apply andb_true_iff in Hc as [_ Hc].
    rewrite (negb_true_iff _) in Hc. rewrite Hc.
    by rewrite <- Hr, rev_involutive.
Qed.

Lemma strip_padding_two body : strip_padding (body ++ [equals_sign; equals_sign]) = body.
Proof.
  unfold strip_padding. rewrite rev_app_distr. simpl. apply rev_involutive.
Qed.

Lemma filter_no_whitespace body :
  Forall (fun c => is_ascii_whitespace c = false) body ->
  List.filter (fun c => negb (is_ascii_whitespace c)) body = body.
Proof.
  induction 1 as [|c body Hc _ IH]; [done|].
  simpl. by rewrite Hc, IH.
Qed.

Lemma sextets_length bytes :
  length (sextets bytes)
  = (4 * (length bytes / 3)
     + match length bytes mod 3 with 0 => 0 | 1 => 2 | _ => 3 end)%nat.
Proof.
  induction bytes as [|a|a b|a b c l IH] using list_ind3; try done.
  simpl sextets. simpl length. rewrite IH.
  replace (S (S (S (length l)))) with (length l + 1 * 3)%nat by lia.
  rewrite Nat.div_add, Nat.Div0.mod_add by lia. lia.
Qed.

(** [atob] reads back what [btoa] wrote. *)
Lemma atob_base64_encode bytes :
  is_bytes bytes -> atob (base64_encode base64_alphabet true bytes) = Ok bytes.
Proof.
  intros Hb. rewrite base64_encode_sextets.
  set (body := map (base64_char base64_alphabet) (sextets bytes)).
  assert (Forall (fun c => plain_char c = true) body) as Hplain.
  { apply Forall_map. eapply Forall_impl; [by apply sextets_below_64|].
    intros n Hn. by apply base64_char_plain. }
  assert (length body = length (sextets bytes)) as Hlen by apply length_map.
  pose proof (sextets_length bytes) as Hsl.
  pose proof (Nat.mod_upper_bound (length bytes) 3 ltac:(lia)) as Hmod.
  unfold atob.
  assert (List.filter (fun c => negb (is_ascii_whitespace c)) (body ++ padding_of bytes)
          = body ++ padding_of bytes) as ->.
  { apply filter_no_whitespace. apply Forall_app. split.
    - eapply Forall_impl; [exact Hplain|]. intros c Hc.
      unfold plain_char in Hc. apply andb_true_iff in Hc as [Hc _].
      by apply negb_true_iff.
    - unfold padding_of. destruct (length bytes mod 3)%nat as [|[|[|]]]; repeat constructor. }
  assert (N.of_nat (length (body ++ padding_of bytes)) mod 4 = 0) as Hz.
  { rewrite length_app, Hlen, Hsl. unfold padding_of.
    destruct (length bytes mod 3)%nat as [|[|[|]]]; simpl length; lia. }
  rewrite Hz. simpl (0 =? 0).
  assert (strip_padding (body ++ padding_of bytes) = body) as ->.
  { unfold padding_of. destruct (length bytes mod 3)%nat as [|[|[|]]].
    - rewrite app_nil_r. by apply strip_padding_none.
    - apply strip_padding_two.
    - by apply strip_padding_one.
    - rewrite app_nil_r. by apply strip_padding_none. }
  destruct (N.eqb_spec (N.of_nat (length body) mod 4) 1) as [Heq|_].
  - exfalso. apply (sextets_length_mod4 bytes). rewrite <- Hlen.
    apply Nat2N.inj. rewrite Nat2N.inj_mod. exact Heq.
  - unfold body. rewrite sextets_of_chars;
      [|apply base64_alphabet_ok|by apply sextets_below_64].
    by rewrite sextets_to_bytes_sextets.
Qed.

Lemma btoa_bytes bytes : is_bytes bytes -> btoa bytes = Ok (base64_encode base64_alphabet true bytes).
Proof.
  intros Hb. unfold btoa.
  assert (forallb (fun c => c <=? 255) bytes = true) as ->; [|done].
  apply forallb_forall. intros c Hc. unfold is_bytes in Hb. rewrite List.Forall_forall in Hb.
  apply Hb in Hc. apply N.leb_le. lia.
Qed.

Lemma fromCharCode_bytes bytes : is_bytes bytes -> fromCharCode bytes = bytes.
Proof.
  induction 1 as [|b bytes Hb _ IH]; [done|].
  unfold fromCharCode in *. simpl. rewrite IH. f_equal. apply N.mod_small. lia.
Qed.

Lemma Uint8Array_from_charCodes_bytes bytes :
  is_bytes bytes -> Uint8Array_from_charCodes bytes = bytes.
Proof.
  induction 1 as [|b bytes Hb _ IH]; [done|].
  unfold Uint8Array_from_charCodes in *. simpl. rewrite IH. f_equal. by apply N.mod_small.
Qed.

(** The binary string of a byte array goes through [btoa] and back through
    [Uint8Array.from(atob(...), c => c.charCodeAt(0))] unchanged. *)
Lemma binary_string_round_trip bytes :
  is_bytes bytes ->
  exists text : jsstring,
    btoa (fromCharCode bytes) = Ok text
    /\ Uint8Array_from_charCodes <$> atob text = Ok bytes.
Proof.
  intros Hb. exists (base64_encode base64_alphabet true bytes).
  rewrite fromCharCode_bytes, btoa_bytes, atob_base64_encode by done.
  split; [done|]. simpl. by rewrite Uint8Array_from_charCodes_bytes.
Qed.

(** ** UTF-8 *)

Lemma testbit_small b n i : b < 2 ^ n -> n <= i -> N.testbit b i = false.
Proof.
  intros Hb Hi. destruct (N.eq_dec b 0) as [->|Hne]; [apply N.bits_0|].
  apply N.bits_above_log2. apply N.lt_le_trans with n; [|done].
  apply N.log2_lt_pow2; lia.
Qed.

Lemma lor_high_low a b n : b < 2 ^ n -> N.lor (a * 2 ^ n) b = a * 2 ^ n + b.
Proof.
  intros Hb.
  assert (N.land (a * 2 ^ n) b = 0) as Hland.
  { apply N.bits_inj. intros i. rewrite N.land_spec, N.bits_0.
    destruct (N.lt_ge_cases i n).
    - by rewrite N.mul_pow2_bits_low.
    - rewrite (testbit_small b n i) by done. apply andb_false_r. }
  by rewrite N.add_nocarry_lxor, N.lxor_lor.
Qed.

Lemma utf8_continuation_arith cp j :
  utf8_continuation cp j = 128 + (cp / 2 ^ (6 * j)) mod 64.
Proof.
  unfold utf8_continuation. rewrite N.shiftr_div_pow2.
  change 63 with (N.ones 6). rewrite N.land_ones.
  change 128 with (2 * 2 ^ 6) at 1. rewrite lor_high_low; [done|].
  by apply N.mod_lt.
Qed.

Lemma utf8_continuation_0 cp : utf8_continuation cp 0 = 128 + cp mod 64.
Proof. rewrite utf8_continuation_arith. change (2 ^ (6 * 0)) with 1. by rewrite N.div_1_r. Qed.

Lemma utf8_continuation_1 cp : utf8_continuation cp 1 = 128 + (cp / 64) mod 64.
Proof. by rewrite utf8_continuation_arith. Qed.

Lemma utf8_continuation_2 cp : utf8_continuation cp 2 = 128 + (cp / 4096) mod 64.
Proof. by rewrite utf8_continuation_arith. Qed.

Lemma shiftr_6 cp : N.shiftr cp 6 = cp / 64.
Proof. by rewrite N.shiftr_div_pow2. Qed.

Lemma shiftr_12 cp : N.shiftr cp 12 = cp / 4096.
Proof. by rewrite N.shiftr_div_pow2. Qed.

Lemma shiftr_18 cp : N.shiftr cp 18 = cp / 262144.
Proof. by rewrite N.shiftr_div_pow2. Qed.

Lemma land_low x n : N.land x (N.ones n) = x mod 2 ^ n.
Proof. apply N.land_ones. Qed.

Lemma decoder_accumulate cp byte :
  N.lor (N.shiftl cp 6) (N.land byte 63) = cp * 64 + byte mod 64.
Proof.
  rewrite N.shiftl_mul_pow2. change 63 with (N.ones 6). rewrite N.land_ones.
  rewrite lor_high_low; [done|]. by apply N.mod_lt.
Qed.

(** A Unicode scalar value: a code point that is not a surrogate. *)
Definition is_scalar_value (cp : N) : bool :=
  (cp <? 0x110000) && negb ((0xD800 <=? cp) && (cp <=? 0xDFFF)).

(** The decoder after it was fed some bytes, and what it emitted. *)
Fixpoint feed (st : Utf8Decoder.state) (bytes : list N) : Utf8Decoder.state * list N :=
  match bytes with
  | [] => (st, [])
  | b :: rest =>
      let '(st', out) := Utf8Decoder.handler st b in
      let '(st'', out') := feed st' rest in
      (st'', out ++ out')
  end.

Lemma run_app st l1 l2 :
  Utf8Decoder.run st (l1 ++ l2) = (feed st l1).2 ++ Utf8Decoder.run (feed st l1).1 l2.
Proof.
  revert st. induction l1 as [|b l1 IH]; intros st; [done|].
  simpl. destruct (Utf8Decoder.handler st b) as [st' out].
  rewrite IH. destruct (feed st' l1) as [st'' out']. simpl. by rewrite app_assoc.
Qed.

(** Decides the comparisons of the goal by arithmetic. *)
Ltac decide_tests :=
  repeat match goal with
    | |- context [?a <=? ?b] =>
        first [ rewrite (proj2 (N.leb_le a b)) by lia
              | rewrite (proj2 (N.leb_gt a b)) by lia ]
    | |- context [?a <? ?b] =>
        first [ rewrite (proj2 (N.ltb_lt a b)) by lia
              | rewrite (proj2 (N.ltb_ge a b)) by lia ]
    | |- context [?a =? ?b] =>
        first [ rewrite (proj2 (N.eqb_eq a b)) by lia
              | rewrite (proj2 (N.eqb_neq a b)) by lia ]
    end.

Lemma start_lead2 b :
  0xC2 <= b <= 0xDF ->
  Utf8Decoder.start b = (Utf8Decoder.mk (b mod 32) 0 1 0x80 0xBF, []).
Proof.
  intros Hb. unfold Utf8Decoder.start. decide_tests. simpl.
  change 31 with (N.ones 5). by rewrite N.land_ones.
Qed.

Lemma start_lead3 b :
  0xE0 <= b <= 0xEF ->
  Utf8Decoder.start b
  = (Utf8Decoder.mk (b mod 16) 0 2 (if b =? 0xE0 then 0xA0 else 0x80)
       (if b =? 0xED then 0x9F else 0xBF), []).
Proof.
  intros Hb. unfold Utf8Decoder.start.
  rewrite (proj2 (N.leb_gt b 127)) by lia.
  rewrite (proj2 (N.leb_le 194 b)) by lia.
  rewrite (proj2 (N.leb_gt b 223)) by lia.
  rewrite (proj2 (N.leb_le 224 b)) by lia.
  rewrite (proj2 (N.leb_le b 239)) by lia.
  simpl andb. cbv iota.
  change 15 with (N.ones 4). by rewrite N.land_ones.
Qed.

Lemma start_lead4 b :
  0xF0 <= b <= 0xF4 ->
  Utf8Decoder.start b
  = (Utf8Decoder.mk (b mod 8) 0 3 (if b =? 0xF0 then 0x90 else 0x80)
       (if b =? 0xF4 then 0x8F else 0xBF), []).
Proof.
  intros Hb. unfold Utf8Decoder.start.
  rewrite (proj2 (N.leb_gt b 127)) by lia.
  rewrite (proj2 (N.leb_le 194 b)) by lia.
  rewrite (proj2 (N.leb_gt b 223)) by lia.
  rewrite (proj2 (N.leb_le 224 b)) by lia.
  rewrite (proj2 (N.leb_gt b 239)) by lia.
  rewrite (proj2 (N.leb_le 240 b)) by lia.
  rewrite (proj2 (N.leb_le b 244)) by lia.
  simpl andb. cbv iota.
  change 7 with (N.ones 3). by rewrite N.land_ones.
Qed.

(** A continuation byte within the boundaries, in a sequence that needs
    more bytes. *)
Lemma handler_continue cp seen needed lower upper b :
  needed <> 0 -> lower <= b <= upper ->
  Utf8Decoder.handler (Utf8Decoder.mk cp seen needed lower upper) b
  = if seen + 1 =? needed then (Utf8Decoder.initial, [cp * 64 + b mod 64])
    else (Utf8Decoder.mk (cp * 64 + b mod 64) (seen + 1) needed 0x80 0xBF, []).
Proof.
  intros Hn Hb. unfold Utf8Decoder.handler. simpl.
  rewrite (proj2 (N.eqb_neq needed 0)) by done.
  rewrite (proj2 (N.leb_le lower b)) by lia.
  rewrite (proj2 (N.leb_le b upper)) by lia.
  simpl. by rewrite decoder_accumulate.
Qed.

Lemma handler_initial b : Utf8Decoder.handler Utf8Decoder.initial b = Utf8Decoder.start b.
Proof. done. Qed.

(** The decoder reads the encoding of a scalar value as that value and is
    back in its initial state. *)
Lemma feed_encode_scalar cp :
  is_scalar_value cp = true ->
  feed Utf8Decoder.initial (utf8_encode_scalar cp) = (Utf8Decoder.initial, [cp]).
Proof.
  unfold is_scalar_value. rewrite andb_true_iff, negb_true_iff, andb_false_iff.
  rewrite N.ltb_lt, N.leb_gt, N.leb_gt. intros [Hmax Hsur].
  unfold utf8_encode_scalar.
  destruct (N.leb_spec cp 0x7F) as [H1|H1].
  { simpl. rewrite handler_initial. unfold Utf8Decoder.start.
    by rewrite (proj2 (N.leb_le cp 127)) by lia. }
  destruct (N.leb_spec cp 0x7FF) as [H2|H2].
  { rewrite utf8_continuation_0, shiftr_6. cbn [feed].
    rewrite handler_initial, start_lead2 by lia.
    rewrite handler_continue by (try done; lia). simpl N.eqb. cbv iota.
    cbn [app]. f_equal. f_equal. lia. }
  destruct (N.leb_spec cp 0xFFFF) as [H3|H3].
  { rewrite utf8_continuation_0, utf8_continuation_1, shiftr_12. cbn [feed].
    rewrite handler_initial, start_lead3 by lia.
    rewrite handler_continue.
    2: done.
    2: { destruct (N.eqb_spec (cp / 4096 + 224) 224);
         destruct (N.eqb_spec (cp / 4096 + 224) 237); lia. }
    simpl N.eqb. cbv iota.
    rewrite handler_continue by (try done; lia). simpl N.eqb. cbv iota.
    cbn [app]. f_equal. f_equal. lia. }
  rewrite utf8_continuation_0, utf8_continuation_1, utf8_continuation_2, shiftr_18. cbn [feed].
  rewrite handler_initial, start_lead4 by lia.
  rewrite handler_continue.
  2: done.
  2: { destruct (N.eqb_spec (cp / 262144 + 240) 240);
       destruct (N.eqb_spec (cp / 262144 + 240) 244); lia. }
  simpl N.eqb. cbv iota.
  rewrite handler_continue by (try done; lia). simpl N.eqb. cbv iota.
  rewrite handler_continue by (try done; lia). simpl N.eqb. cbv iota.
  cbn [app]. f_equal. f_equal. lia.
Qed.

(** [s.isWellFormed()]: every surrogate of [s] is part of a pair. The code
    units are 16-bit numbers. *)
Fixpoint isWellFormed (s : jsstring) : bool :=
  match s with
  | [] => true
  | c :: rest =>
      if is_lead_surrogate c then
        match rest with
        | d :: rest' => is_trail_surrogate d && isWellFormed rest'
        | [] => false
        end
      else negb (is_trail_surrogate c) && (c <? 65536) && isWellFormed rest
  end.

Lemma surrogate_pair_value c d :
  is_lead_surrogate c = true -> is_trail_surrogate d = true ->
  is_scalar_value (0x10000 + N.shiftl (c - 0xD800) 10 + (d - 0xDC00)) = true
  /\ utf16_encode_scalar (0x10000 + N.shiftl (c - 0xD800) 10 + (d - 0xDC00)) = [c; d]
  /\ 0x10000 <= 0x10000 + N.shiftl (c - 0xD800) 10 + (d - 0xDC00).
Proof.
  unfold is_lead_surrogate, is_trail_surrogate.
  rewrite !andb_true_iff, !N.leb_le. intros [Hc1 Hc2] [Hd1 Hd2].
  rewrite N.shiftl_mul_pow2. change (2 ^ 10) with 1024.
  split; [|split; [|lia]].
  - unfold is_scalar_value. apply andb_true_iff. split; [apply N.ltb_lt; lia|].
    apply negb_true_iff, andb_false_iff. right. apply N.leb_gt. lia.
  - unfold utf16_encode_scalar.
    rewrite (proj2 (N.ltb_ge _ _)) by lia.
    rewrite N.shiftr_div_pow2. change (2 ^ 10) with 1024.
    change 1023 with (N.ones 10). rewrite N.land_ones. change (2 ^ 10) with 1024.
    f_equal; [lia|]. f_equal. lia.
Qed.

Lemma single_unit_value c :
  is_lead_surrogate c = false -> is_trail_surrogate c = false -> c < 65536 ->
  is_scalar_value c = true /\ utf16_encode_scalar c = [c].
Proof.
  unfold is_lead_surrogate, is_trail_surrogate, is_scalar_value, utf16_encode_scalar.
  rewrite !andb_false_iff, !N.leb_gt. intros Hl Ht Hc.
  rewrite (proj2 (N.ltb_lt c 65536)) by done. split; [|done].
  apply andb_true_iff. split; [apply N.ltb_lt; lia|].
  apply negb_true_iff, andb_false_iff. rewrite !N.leb_gt. lia.
Qed.

(** The scalar values of a well-formed string are scalar values, and their
    code units are the string. *)
Lemma scalar_values_well_formed (n : nat) (s : jsstring) :
  (length s <= n)%nat -> isWellFormed s = true ->
  Forall (fun cp => is_scalar_value cp = true) (scalar_values s)
  /\ flat_map utf16_encode_scalar (scalar_values s) = s.
Proof.
  revert s. induction n as [|n IH]; intros s Hn Hwf.
  - destruct s; [by split|simpl in Hn; lia].
  - destruct s as [|c rest]; [by split|].
    cbn [isWellFormed scalar_values] in *.
    destruct (is_lead_surrogate c) eqn:Hlead.
    + destruct rest as [|d rest']; [done|].
      apply andb_true_iff in Hwf as [Hd Hwf]. rewrite Hd.
      destruct (surrogate_pair_value c d Hlead Hd) as (Hs & Hu & _).
      destruct (IH rest') as [IH1 IH2]; [simpl in Hn; lia|done|].
      split; [by constructor|]. cbn [flat_map]. by rewrite Hu, IH2.
    + apply andb_true_iff in Hwf as [Hc Hwf]. apply andb_true_iff in Hc as [Ht Hc].
      apply negb_true_iff in Ht. apply N.ltb_lt in Hc. rewrite Ht.
      destruct (single_unit_value c Hlead Ht Hc) as [Hs Hu].
      destruct (IH rest) as [IH1 IH2]; [simpl in Hn; lia|done|].
      split; [by constructor|]. cbn [flat_map]. by rewrite Hu, IH2.
Qed.

Lemma run_encoded cps :
  Forall (fun cp => is_scalar_value cp = true) cps ->
  Utf8Decoder.run Utf8Decoder.initial (flat_map utf8_encode_scalar cps) = cps.
Proof.
  induction 1 as [|cp cps Hcp _ IH]; [done|].
  cbn [flat_map]. rewrite run_app, feed_encode_scalar by done. simpl. by rewrite IH.
Qed.

(** The scalar values of a string that does not start with U+FEFF do not
    start with it either. *)
Lemma scalar_values_no_bom (s : jsstring) :
  isWellFormed s = true -> (forall rest, s <> 0xFEFF :: rest) ->
  forall cps, scalar_values s <> 0xFEFF :: cps.
Proof.
  intros Hwf Hs cps. destruct s as [|c rest]; [done|].
  cbn [isWellFormed scalar_values] in *.
  destruct (is_lead_surrogate c) eqn:Hlead.
  - destruct rest as [|d rest']; [done|].
    apply andb_true_iff in Hwf as [Hd _]. rewrite Hd.
    destruct (surrogate_pair_value c d Hlead Hd) as (_ & _ & Hge).
    intros [= Heq _]. lia.
  - apply andb_true_iff in Hwf as [Hc _]. apply andb_true_iff in Hc as [Ht _].
    apply negb_true_iff in Ht. rewrite Ht. intros [= -> _]. by apply (Hs rest).
Qed.

(** A well-formed string that does not start with a byte order mark is
    decoded from its UTF-8 encoding unchanged. *)
Lemma TextDecoder_decode_encode (s : jsstring) :
  isWellFormed s = true -> (forall rest, s <> 0xFEFF :: rest) ->
  TextDecoder_decode (TextEncoder_encode s) = s.
Proof.
  intros Hwf Hbom.
  destruct (scalar_values_well_formed (length s) s) as [Hsv Hunits]; [done|done|].
  unfold TextDecoder_decode, TextEncoder_encode. rewrite run_encoded by done.
  pose proof (scalar_values_no_bom s Hwf Hbom) as Hno.
  destruct (scalar_values s) as [|cp cps]; [done|].
  destruct (N.eqb_spec cp 0xFEFF) as [->|_]; [by destruct (Hno cps)|done].
Qed.

(** A string of 16-bit code units. *)
Definition is_code_units (s : jsstring) : Prop := Forall (fun c => c < 65536) s.

Lemma isWellFormed_code_units (n : nat) (s : jsstring) :
  (length s <= n)%nat -> isWellFormed s = true -> is_code_units s.
Proof.
  revert s. induction n as [|n IH]; intros s Hn Hwf.
  - destruct s; [constructor|simpl in Hn; lia].
  - destruct s as [|c rest]; [constructor|].
    cbn [isWellFormed] in Hwf.
    destruct (is_lead_surrogate c) eqn:Hlead.
    + destruct rest as [|d rest']; [done|].
      apply andb_true_iff in Hwf as [Hd Hwf].
      unfold is_lead_surrogate, is_trail_surrogate in *.
      apply andb_true_iff in Hlead as [_ Hc]. apply andb_true_iff in Hd as [_ Hd].
      apply N.leb_le in Hc, Hd.
      constructor; [lia|]. constructor; [lia|]. apply IH; [simpl in Hn; lia|done].
    + apply andb_true_iff in Hwf as [Hc Hwf]. apply andb_true_iff in Hc as [_ Hc].
      apply N.ltb_lt in Hc. constructor; [done|]. apply IH; [simpl in Hn; lia|done].
Qed.

Lemma scalar_values_bound (n : nat) (s : jsstring) :
  (length s <= n)%nat -> is_code_units s ->
  Forall (fun cp => cp < 0x110000) (scalar_values s).
Proof.
  revert s. induction n as [|n IH]; intros s Hn Hs.
  - destruct s; [constructor|simpl in Hn; lia].
  - destruct Hs as [|c rest Hc Hrest]; [constructor|].
    cbn [scalar_values].
    destruct (is_lead_surrogate c) eqn:Hlead.
    + destruct Hrest as [|d rest' Hd Hrest']; [by repeat constructor|].
      destruct (is_trail_surrogate d) eqn:Htrail.
      * destruct (surrogate_pair_value c d Hlead Htrail) as (Hsv & _ & _).
        unfold is_scalar_value in Hsv. apply andb_true_iff in Hsv as [Hsv _].
        apply N.ltb_lt in Hsv.
        constructor; [done|]. apply IH; [simpl in Hn; lia|done].
      * constructor; [done|]. apply IH; [simpl in *; lia|by constructor].
    + destruct (is_trail_surrogate c).
      * constructor; [done|]. apply IH; [simpl in Hn; lia|done].
      * constructor; [lia|]. apply IH; [simpl in Hn; lia|done].
Qed.

Lemma utf8_encode_scalar_is_bytes cp : cp < 0x110000 -> is_bytes (utf8_encode_scalar cp).
Proof.
  intros Hcp.
  assert (forall j, utf8_continuation cp j < 256) as Hcont.
  { intros j. rewrite utf8_continuation_arith.
    pose proof (N.mod_lt (cp / 2 ^ (6 * j)) 64). lia. }
  unfold utf8_encode_scalar.
  destruct (N.leb_spec cp 0x7F); [repeat constructor; lia|].
  destruct (N.leb_spec cp 0x7FF).
  { rewrite shiftr_6. repeat constructor; [lia|apply Hcont]. }
  destruct (N.leb_spec cp 0xFFFF).
  { rewrite shiftr_12. repeat constructor; [lia|apply Hcont..]. }
  rewrite shiftr_18. repeat constructor; [lia|apply Hcont..].
Qed.

(** The encoder yields bytes. *)
Lemma TextEncoder_encode_is_bytes (s : jsstring) :
  is_code_units s -> is_bytes (TextEncoder_encode s).
Proof.
  intros Hs. pose proof (scalar_values_bound (length s) s (le_n _) Hs) as Hb.
  unfold TextEncoder_encode. induction Hb as [|cp cps Hcp _ IH]; [constructor|].
  cbn [flat_map]. apply Forall_app. split; [|done]. by apply utf8_encode_scalar_is_bytes.
Qed.


(** * Properties of the cipher *)

(** ** Bytes under exclusive or *)

Lemma lxor_byte a b : a < 256 -> b < 256 -> N.lxor a b < 256.
Proof.
  intros Ha Hb.
  destruct (N.eq_dec (N.lxor a b) 0) as [->|Hne]; [lia|].
  apply (N.log2_lt_pow2 _ 8); [lia|].
  eapply N.le_lt_trans; [apply N.log2_lxor|].
  apply N.max_lub_lt.
  - destruct (N.eq_dec a 0) as [->|?]; [done|]. apply N.log2_lt_pow2; lia.
  - destruct (N.eq_dec b 0) as [->|?]; [done|]. apply N.log2_lt_pow2; lia.
Qed.

Lemma xor_bytes_length a b : length (xor_bytes a b) = (length a `min` length b)%nat.
Proof. unfold xor_bytes. by rewrite length_map, length_combine. Qed.

Lemma xor_bytes_is_bytes a b : is_bytes a -> is_bytes b -> is_bytes (xor_bytes a b).
Proof.
  intros Ha. revert b. induction Ha as [|x a Hx _ IH]; intros b Hb; [constructor|].
  destruct Hb as [|y b Hy Hb]; [constructor|].
  unfold xor_bytes in *. simpl. constructor; [by apply lxor_byte|by apply IH].
Qed.

Lemma xor_bytes_involutive x ks :
  (length x <= length ks)%nat -> xor_bytes (xor_bytes x ks) ks = x.
Proof.
  revert ks. induction x as [|a x IH]; intros [|k ks] Hlen; simpl in *; try done; try lia.
  unfold xor_bytes in *. simpl. rewrite IH by lia.
  by rewrite N.lxor_assoc, N.lxor_nilpotent, N.lxor_0_r.
Qed.

(** ** Pieces of a list *)

Lemma chunks_enough {A} (n m k : nat) (l : list A) :
  (0 < k)%nat -> (length l <= n)%nat -> (length l <= m)%nat -> chunks n k l = chunks m k l.
Proof.
  intros Hk. revert m l. induction n as [|n IH]; intros m l Hn Hm.
  - destruct l; [|simpl in Hn; lia]. by destruct m.
  - destruct l as [|a l]; [by destruct m|].
    destruct m as [|m]; [simpl in Hm; lia|].
    simpl. f_equal. destruct k as [|k]; [lia|].
    apply IH; rewrite length_skipn; simpl in *; lia.
Qed.

Lemma blocks_of_cons {A} (k : nat) (a : A) (l : list A) :
  (0 < k)%nat ->
  blocks_of k (a :: l) = firstn k (a :: l) :: blocks_of k (skipn k (a :: l)).
Proof.
  intros Hk. unfold blocks_of. simpl length. cbn [chunks]. f_equal.
  destruct k as [|k]; [lia|].
  apply chunks_enough; [lia| |done]. rewrite length_skipn. simpl. lia.
Qed.

Lemma chunks_inv {A} (P : A -> Prop) (count k : nat) (l : list A) :
  (0 < k)%nat -> Forall P l -> length l = (count * k)%nat ->
  length (chunks count k l) = count
  /\ Forall (fun c => length c = k /\ Forall P c) (chunks count k l).
Proof.
  intros Hk. revert l. induction count as [|count IH]; intros l HP Hlen.
  - by split.
  - destruct l as [|a l]; [simpl in Hlen; lia|].
    cbn [chunks].
    destruct (IH (skipn k (a :: l))) as [IH1 IH2].
    { by apply Forall_drop. }
    { rewrite length_skipn, Hlen. lia. }
    split; [simpl; by rewrite IH1|].
    constructor; [|done]. split.
    + rewrite length_firstn, Hlen. lia.
    + by apply Forall_take.
Qed.

(** ** AES: the shape of the key schedule and of a block *)

Lemma nth_below (bound : N) (table : list N) (i : nat) :
  forallb (fun x => x <? bound) table = true -> 0 < bound -> nth i table 0 < bound.
Proof.
  intros Ht Hb. destruct (nth_in_or_default i table 0) as [Hin| ->]; [|done].
  rewrite forallb_forall in Ht. apply N.ltb_lt. by apply Ht.
Qed.

Lemma sbox_byte b : AES.sbox b < 256.
Proof. unfold AES.sbox. apply nth_below; [vm_compute; reflexivity|done]. Qed.

Lemma xtime_byte b : AES.xtime b < 256.
Proof.
  unfold AES.xtime. apply lxor_byte.
  - change 255 with (N.ones 8). rewrite N.land_ones. by apply N.mod_lt.
  - by destruct (N.testbit b 7).
Qed.

Lemma rcon_byte i : AES.rcon i < 256.
Proof. destruct i; [done|]. simpl. apply xtime_byte. Qed.

(** A word of the key schedule: four bytes. *)
Definition is_word (w : list N) : Prop := length w = 4%nat /\ is_bytes w.

Lemma SubWord_word w : length w = 4%nat -> is_word (AES.SubWord w).
Proof.
  intros Hw. split; [unfold AES.SubWord; by rewrite length_map|].
  unfold AES.SubWord, is_bytes. apply Forall_map, Forall_true. intros; apply sbox_byte.
Qed.

Lemma RotWord_length w : length (AES.RotWord w) = length w.
Proof. destruct w; [done|]. simpl. rewrite length_app. simpl. lia. Qed.

Lemma xor_word a b : is_word a -> is_word b -> is_word (xor_bytes a b).
Proof.
  intros [Ha1 Ha2] [Hb1 Hb2]. split.
  - rewrite xor_bytes_length. lia.
  - by apply xor_bytes_is_bytes.
Qed.

Lemma nth_word (ws : list (list N)) (i : nat) :
  Forall is_word ws -> (i < length ws)%nat -> is_word (nth i ws []).
Proof.
  intros Hws Hi. rewrite List.Forall_forall in Hws. apply Hws. by apply nth_In.
Qed.

Lemma expand_words (fuel Nk i : nat) (prev : list (list N)) :
  (0 < Nk)%nat -> length prev = Nk -> Forall is_word prev ->
  length (AES.expand fuel Nk i prev) = fuel /\ Forall is_word (AES.expand fuel Nk i prev).
Proof.
  intros HNk. revert i prev. induction fuel as [|fuel IH]; intros i prev Hlen Hprev.
  - by split.
  - cbn [AES.expand].
    set (temp0 := nth (Nk - 1) prev []).
    assert (is_word temp0) as Htemp0 by (apply nth_word; [done|lia]).
    set (temp := if (i mod Nk =? 0)%nat then _ else _).
    assert (is_word temp) as Htemp.
    { unfold temp. destruct (i mod Nk =? 0)%nat.
      - apply xor_word.
        + apply SubWord_word. rewrite RotWord_length. apply Htemp0.
        + split; [done|]. repeat constructor; try done. apply rcon_byte.
      - destruct ((6 <? Nk)%nat && (i mod Nk =? 4)%nat); [|done].
        apply SubWord_word, Htemp0. }
    set (w := xor_bytes (nth 0 prev []) temp).
    assert (is_word w) as Hw by (apply xor_word; [apply nth_word; [done|lia]|done]).
    destruct (IH (S i) (tl prev ++ [w])) as [IH1 IH2].
    + rewrite length_app. destruct prev; simpl in *; lia.
    + apply Forall_app. split; [|by constructor].
      destruct prev; [done|]. by inversion Hprev.
    + split; [simpl; by rewrite IH1|by constructor].
Qed.

(** A key of 128, 192 or 256 bits. *)
Definition is_aes_key (key : list N) : Prop :=
  is_bytes key /\ (length key = 16 \/ length key = 24 \/ length key = 32)%nat.

Lemma concat_words (ws : list (list N)) :
  Forall is_word ws -> length (concat ws) = (4 * length ws)%nat /\ is_bytes (concat ws).
Proof.
  induction 1 as [|w ws [Hw1 Hw2] _ [IH1 IH2]]; [by split; [|constructor]|].
  simpl. rewrite length_app, Hw1, IH1. split; [lia|]. by apply Forall_app.
Qed.

(** A block: sixteen bytes. *)
Definition is_block (b : list N) : Prop := length b = 16%nat /\ is_bytes b.

Lemma KeyExpansion_blocks key :
  is_aes_key key ->
  (2 <= length (AES.KeyExpansion key))%nat /\ Forall is_block (AES.KeyExpansion key).
Proof.
  intros [Hbytes Hlen]. unfold AES.KeyExpansion.
  set (Nk := (length key / 4)%nat).
  assert (length key = (Nk * 4)%nat /\ (0 < Nk)%nat) as [HNk Hpos].
  { unfold Nk. destruct Hlen as [Hl | [Hl | Hl]]; rewrite Hl; (split; [reflexivity | simpl; lia]). }
  destruct (chunks_inv (fun b => b < 256) Nk 4 key) as [Hc1 Hc2]; [lia|done|done|].
  destruct (expand_words (4 * (Nk + 7) - Nk) Nk Nk (chunks Nk 4 key)) as [He1 He2];
    [done|done|done|].
  set (w := chunks Nk 4 key ++ AES.expand (4 * (Nk + 7) - Nk) Nk Nk (chunks Nk 4 key)).
  assert (Forall is_word w) as Hw by (by apply Forall_app).
  assert (length w = ((Nk + 7) * 4)%nat) as Hwl.
  { unfold w. rewrite length_app, Hc1, He1. lia. }
  destruct (chunks_inv is_word (Nk + 7) 4 w) as [Hk1 Hk2]; [lia|done|done|].
  split; [rewrite length_map, Hk1; lia|].
  apply Forall_map. eapply Forall_impl; [exact Hk2|].
  intros ws [Hl Hws]. destruct (concat_words ws Hws) as [H1 H2].
  split; [rewrite H1, Hl; lia|done].
Qed.

Lemma ShiftRows_block s : is_bytes s -> is_block (AES.ShiftRows s).
Proof.
  intros Hs. unfold AES.ShiftRows. split; [by rewrite length_map|].
  apply Forall_map, Forall_true. intros i.
  destruct (nth_in_or_default (i `mod` 4 + 4 * ((i / 4 + i `mod` 4) `mod` 4)) s 0) as [Hin| ->];
    [|done].
  unfold is_bytes in Hs. rewrite List.Forall_forall in Hs. by apply Hs.
Qed.

Lemma SubBytes_bytes s : is_bytes (AES.SubBytes s).
Proof. unfold AES.SubBytes. apply Forall_map, Forall_true. intros; apply sbox_byte. Qed.

(** The cipher returns a block, whatever it is given as a block. *)
Lemma encrypt_block_block key block : is_aes_key key -> is_block (AES.encrypt_block key block).
Proof.
  intros Hkey. destruct (KeyExpansion_blocks key Hkey) as [Hlen Hblocks].
  unfold AES.encrypt_block.
  destruct (AES.KeyExpansion key) as [|rk0 [|rk1 rks]]; [simpl in Hlen; lia..|].
  assert (is_block (List.last (rk1 :: rks) [])) as [Hl1 Hl2].
  { inversion Hblocks as [|? ? _ Hrest]; subst.
    rewrite List.Forall_forall in Hrest. apply Hrest.
    destruct (exists_last (l := rk1 :: rks)) as (l' & a & Heq); [done|].
    rewrite Heq, last_last. apply in_or_app. right. by left. }
  destruct (ShiftRows_block (AES.SubBytes
              (fold_left AES.full_round (removelast (rk1 :: rks)) (xor_bytes block rk0))))
    as [Hs1 Hs2]; [apply SubBytes_bytes|].
  split.
  - rewrite xor_bytes_length. lia.
  - by apply xor_bytes_is_bytes.
Qed.

(** ** Counter mode *)

Lemma GCTR_nil key icb : GCM.GCTR key icb [] = [].
Proof. done. Qed.

Lemma GCTR_cons key icb a x :
  GCM.GCTR key icb (a :: x)
  = xor_bytes (firstn 16 (a :: x)) (AES.encrypt_block key icb)
    ++ GCM.GCTR key (GCM.inc32 icb) (skipn 16 (a :: x)).
Proof. unfold GCM.GCTR. by rewrite blocks_of_cons by lia. Qed.

(** Counter mode keeps the length, yields bytes from bytes, and undoes
    itself. *)
Lemma GCTR_spec key :
  is_aes_key key ->
  forall (n : nat) (x icb : list N),
    (length x <= n)%nat ->
    length (GCM.GCTR key icb x) = length x
    /\ (is_bytes x -> is_bytes (GCM.GCTR key icb x))
    /\ GCM.GCTR key icb (GCM.GCTR key icb x) = x.
Proof.
  intros Hkey. induction n as [|n IH]; intros x icb Hn.
  - destruct x; [|simpl in Hn; lia]. by repeat split.
  - destruct x as [|a x]; [by repeat split|].
    rewrite GCTR_cons.
    destruct (encrypt_block_block key icb Hkey) as [Hks1 Hks2].
    remember (AES.encrypt_block key icb) as ks eqn:Hks.
    set (hd := firstn 16 (a :: x)). set (tl := skipn 16 (a :: x)).
    assert (length hd = (16 `min` S (length x))%nat) as Hhd by apply length_firstn.
    assert (length tl = (S (length x) - 16)%nat) as Htl by apply length_skipn.
    destruct (IH tl (GCM.inc32 icb)) as (IH1 & IH2 & IH3); [simpl in Hn; lia|].
    assert (length (xor_bytes hd ks) = length hd) as Hxl.
    { rewrite xor_bytes_length. lia. }
    split; [|split].
    + rewrite length_app, Hxl, IH1, Hhd, Htl. simpl length. lia.
    + intros Hx. apply Forall_app. split.
      * apply xor_bytes_is_bytes; [by apply Forall_take|done].
      * apply IH2. by apply Forall_drop.
    + destruct (xor_bytes hd ks ++ GCM.GCTR key (GCM.inc32 icb) tl) as [|b y] eqn:Hy.
      { apply (f_equal length) in Hy. rewrite length_app, Hxl, Hhd in Hy. simpl in Hy. lia. }
      rewrite GCTR_cons, <- Hy, <- Hks.
      destruct (Nat.le_gt_cases 16 (S (length x))) as [Hge|Hlt].
      * assert (length (xor_bytes hd ks) = 16%nat) as H16 by lia.
        change firstn with (@take N). change skipn with (@drop N).
        rewrite (take_app_length' _ _ 16), (drop_app_length' _ _ 16) by done.
        rewrite xor_bytes_involutive by lia. rewrite IH3.
        apply firstn_skipn.
      * assert (tl = []) as Htl0 by (apply length_zero_iff_nil; lia).
        rewrite Htl0, GCTR_nil, app_nil_r.
        rewrite firstn_all2 by lia. rewrite skipn_all2 by lia.
        rewrite GCTR_nil, app_nil_r, xor_bytes_involutive by lia.
        unfold hd. apply firstn_all2. simpl length. lia.
Qed.

Lemma be_bytes_length n x : length (be_bytes n x) = n.
Proof. induction n as [|n IH]; [done|]. simpl. by rewrite IH. Qed.

Lemma be_bytes_is_bytes n x : is_bytes (be_bytes n x).
Proof.
  induction n as [|n IH]; [constructor|]. simpl. constructor; [|done].
  by apply N.mod_lt.
Qed.

(** ** Galois/Counter mode *)

Lemma tag_block key iv aad c : is_aes_key key -> is_block (GCM.tag key iv aad c).
Proof.
  intros Hkey. unfold GCM.tag.
  destruct (encrypt_block_block key (GCM.J0 key iv) Hkey) as [H1 H2].
  split.
  - rewrite xor_bytes_length, be_bytes_length. lia.
  - apply xor_bytes_is_bytes; [done|apply be_bytes_is_bytes].
Qed.

(** What was encrypted is decrypted again, under the same key, nonce and
    additional data. *)
Lemma GCM_decrypt_encrypt key iv aad p :
  is_aes_key key -> GCM.decrypt key iv aad (GCM.encrypt key iv aad p) = Some p.
Proof.
  intros Hkey. unfold GCM.decrypt, GCM.encrypt.
  set (icb := GCM.inc32 (GCM.J0 key iv)).
  set (c := GCM.GCTR key icb p).
  destruct (tag_block key iv aad c Hkey) as [Ht _].
  rewrite length_app, Ht.
  destruct (Nat.ltb_spec (length c + 16) 16) as [?|_]; [lia|].
  replace (length c + 16 - 16)%nat with (length c) by lia.
  rewrite take_app_length, drop_app_length.
  rewrite bool_decide_eq_true_2 by done.
  f_equal. unfold c. by apply (GCTR_spec key Hkey (length p)).
Qed.

Lemma GCM_encrypt_is_bytes key iv aad p :
  is_aes_key key -> is_bytes p -> is_bytes (GCM.encrypt key iv aad p).
Proof.
  intros Hkey Hp. unfold GCM.encrypt. apply Forall_app. split.
  - by apply (GCTR_spec key Hkey (length p)).
  - by apply tag_block.
Qed.

(** Decryption succeeds only on a ciphertext that ends with the tag of what
    precedes it. *)
Lemma GCM_decrypt_Some key iv aad ct p :
  GCM.decrypt key iv aad ct = Some p ->
  exists c : list N,
    ct = c ++ GCM.tag key iv aad c
    /\ p = GCM.GCTR key (GCM.inc32 (GCM.J0 key iv)) c.
Proof.
  unfold GCM.decrypt. destruct (length ct <? 16)%nat; [done|].
  case_bool_decide as Ht; [|done]. intros [= <-].
  exists (firstn (length ct - 16) ct). split; [|done].
  rewrite <- Ht. symmetry. apply firstn_skipn.
Qed.


(** * Text messages *)

(** An AES-GCM key as the program makes them: 128, 192 or 256 bits, usable
    to encrypt and to decrypt. *)
Definition usable (key : CryptoKey.t) : Prop :=
  is_aes_key (CryptoKey.raw key)
  /\ has_usage encrypt_usage (CryptoKey.usages key) = true
  /\ has_usage decrypt_usage (CryptoKey.usages key) = true.

(** A nonce as [getRandomValues(new Uint8Array(12))] fills it. *)
Definition is_nonce (iv : list N) : Prop := is_bytes iv /\ length iv = 12%nat.

(** The number of bytes [encryptTextMessage] spreads as arguments: the UTF-8
    bytes of the content and a tag of sixteen. *)
Definition spread_length (content : jsstring) : N :=
  N.of_nat (length (TextEncoder_encode content)) + 16.

Lemma GCM_encrypt_length key iv aad p :
  is_aes_key key -> length (GCM.encrypt key iv aad p) = (length p + 16)%nat.
Proof.
  intros Hkey. unfold GCM.encrypt. rewrite length_app.
  destruct (GCTR_spec _ Hkey (length p) p (GCM.inc32 (GCM.J0 key iv)) (le_n _)) as [-> _].
  by destruct (tag_block key iv aad (GCM.GCTR key (GCM.inc32 (GCM.J0 key iv)) p) Hkey)
    as [-> _].
Qed.

Section TextMessages.
Context {js : JSEngine}.

Lemma fromCharCode_spread_bytes (bytes : list N) :
  is_bytes bytes -> N.of_nat (length bytes) <= argument_limit ->
  fromCharCode_spread bytes = Ok bytes.
Proof.
  intros Hbytes Hlen. unfold fromCharCode_spread.
  destruct (N.leb_spec (N.of_nat (length bytes)) argument_limit) as [_|?]; [|lia].
  by rewrite fromCharCode_bytes.
Qed.

Lemma fromCharCode_spread_long (bytes : list N) :
  argument_limit < N.of_nat (length bytes) -> fromCharCode_spread bytes = Throw RangeError.
Proof.
  intros Hlen. unfold fromCharCode_spread.
  by destruct (N.leb_spec (N.of_nat (length bytes)) argument_limit) as [?|_]; [lia|].
Qed.

Lemma encryptTextMessage_Ok content sharedSecret iv :
  is_code_units content -> usable sharedSecret -> is_nonce iv ->
  spread_length content <= argument_limit ->
  encryptTextMessage content sharedSecret iv
  = Ok (EncryptedText.mk
          (base64_encode base64_alphabet true
             (GCM.encrypt (CryptoKey.raw sharedSecret) iv [] (TextEncoder_encode content)))
          (base64_encode base64_alphabet true iv)).
Proof.
  intros Hc (Hkey & Henc & _) [Hiv Hlen] Hfits. unfold encryptTextMessage, subtle_encrypt.
  rewrite Henc. simpl negb. cbv iota.
  rewrite bool_decide_eq_false_2 by (intros ->; done).
  assert (is_bytes (GCM.encrypt (CryptoKey.raw sharedSecret) iv [] (TextEncoder_encode content)))
    as Hct by (apply GCM_encrypt_is_bytes; [done|by apply TextEncoder_encode_is_bytes]).
  cbn [mbind result_bind]. unfold spread_length in Hfits.
  rewrite (fromCharCode_spread_bytes (GCM.encrypt _ _ _ _))
    by (try done; rewrite GCM_encrypt_length by done; lia).
  rewrite (fromCharCode_spread_bytes iv) by (try done; rewrite Hlen; lia).
  cbn [mbind result_bind]. by rewrite !btoa_bytes by done.
Qed.

(** The call of [String.fromCharCode] on the ciphertext takes more arguments
    than the engine allows. *)
Lemma encryptTextMessage_RangeError content sharedSecret iv :
  usable sharedSecret -> is_nonce iv ->
  argument_limit < spread_length content ->
  encryptTextMessage content sharedSecret iv = Throw RangeError.
Proof.
  intros (Hkey & Henc & _) [Hiv Hlen] Hlong. unfold encryptTextMessage, subtle_encrypt.
  rewrite Henc. simpl negb. cbv iota.
  rewrite bool_decide_eq_false_2 by (intros ->; done).
  cbn [mbind result_bind]. unfold spread_length in Hlong.
  rewrite (fromCharCode_spread_long (GCM.encrypt _ _ _ _))
    by (rewrite GCM_encrypt_length by done; lia).
  reflexivity.
Qed.
End TextMessages.

(** When [decryptTextMessage] returns a plaintext. *)
Definition accepted (encryptedContent ivString : jsstring) (key : CryptoKey.t)
    (plaintext : jsstring) : Prop :=
  exists c iv : list N,
    Uint8Array_from_charCodes <$> atob encryptedContent
      = Ok (c ++ GCM.tag (CryptoKey.raw key) iv [] c)
    /\ Uint8Array_from_charCodes <$> atob ivString = Ok iv
    /\ iv <> []
    /\ length (GCM.tag (CryptoKey.raw key) iv [] c) = 16%nat
    /\ has_usage decrypt_usage (CryptoKey.usages key) = true
    /\ plaintext
       = TextDecoder_decode (GCM.GCTR (CryptoKey.raw key) (GCM.inc32 (GCM.J0 (CryptoKey.raw key) iv)) c).

Lemma GCM_decrypt_Some_length key iv aad ct p :
  GCM.decrypt key iv aad ct = Some p ->
  length (GCM.tag key iv aad (firstn (length ct - 16) ct)) = 16%nat.
Proof.
  unfold GCM.decrypt. destruct (Nat.ltb_spec (length ct) 16) as [|Hge]; [done|].
  case_bool_decide as Ht; [|done]. intros _. rewrite <- Ht, length_skipn. lia.
Qed.

Lemma decryptTextMessage_Ok encryptedContent ivString key plaintext :
  decryptTextMessage encryptedContent ivString key = Ok plaintext
  <-> accepted encryptedContent ivString key plaintext.
Proof.
  unfold decryptTextMessage, accepted, subtle_decrypt. split.
  - destruct (Uint8Array_from_charCodes <$> atob encryptedContent) as [ct|]; [|done].
    destruct (Uint8Array_from_charCodes <$> atob ivString) as [iv|]; [|done].
    cbn [mbind result_bind].
    destruct (has_usage decrypt_usage (CryptoKey.usages key)); [|done].
    simpl negb. cbv iota. case_bool_decide as Hiv; [done|].
    destruct (GCM.decrypt (CryptoKey.raw key) iv [] ct) as [p|] eqn:Hd; [|done].
    intros [= <-]. pose proof (GCM_decrypt_Some_length _ _ _ _ _ Hd) as Hlen.
    pose proof Hd as Hd'. apply GCM_decrypt_Some in Hd' as (c & Hct & ->).
    unfold GCM.decrypt in Hd.
    destruct (length ct <? 16)%nat; [done|]. case_bool_decide as Ht; [|done].
    exists (firstn (length ct - 16) ct), iv. rewrite <- Ht, firstn_skipn.
    repeat split; try done.
    + by rewrite Ht.
    + by injection Hd as <-.
  - intros (c & iv & -> & -> & Hiv & Hlen & -> & ->). cbn [mbind result_bind].
    simpl negb. cbv iota. rewrite bool_decide_eq_false_2 by done.
    assert (GCM.decrypt (CryptoKey.raw key) iv [] (c ++ GCM.tag (CryptoKey.raw key) iv [] c)
            = Some (GCM.GCTR (CryptoKey.raw key) (GCM.inc32 (GCM.J0 (CryptoKey.raw key) iv)) c))
      as ->; [|done].
    unfold GCM.decrypt. rewrite length_app, Hlen.
    destruct (Nat.ltb_spec (length c + 16) 16) as [?|_]; [lia|].
    replace (length c + 16 - 16)%nat with (length c) by lia.
    rewrite take_app_length, drop_app_length.
    by rewrite bool_decide_eq_true_2.
Qed.

(** The text made of a well-formed content decrypts to it under the same
    key. *)
Lemma decryptTextMessage_encrypted (content : jsstring) (key : CryptoKey.t) (iv : list N) :
  isWellFormed content = true ->
  (forall rest, content <> 0xFEFF :: rest) ->
  usable key -> is_nonce iv ->
  decryptTextMessage
    (base64_encode base64_alphabet true
       (GCM.encrypt (CryptoKey.raw key) iv [] (TextEncoder_encode content)))
    (base64_encode base64_alphabet true iv) key
  = Ok content.
Proof.
  intros Hwf Hbom (Hraw & _ & Hdec) [Hiv Hlen].
  pose proof (isWellFormed_code_units (length content) content (le_n _) Hwf) as Hunits.
  assert (is_bytes (GCM.encrypt (CryptoKey.raw key) iv [] (TextEncoder_encode content)))
    as Hct by (apply GCM_encrypt_is_bytes; [done|by apply TextEncoder_encode_is_bytes]).
  unfold decryptTextMessage. rewrite !atob_base64_encode by done.
  cbn [fmap result_fmap mbind result_bind].
  rewrite !Uint8Array_from_charCodes_bytes by done.
  unfold subtle_decrypt. rewrite Hdec. simpl negb. cbv iota.
  rewrite bool_decide_eq_false_2 by (intros ->; done).
  rewrite GCM_decrypt_encrypt by done. cbn [mbind result_bind].
  by rewrite TextDecoder_decode_encode.
Qed.

(** A ciphertext that differs from the one made only in its last sixteen
    bytes, the tag, is rejected under the same key and nonce. *)
Lemma decryptTextMessage_changed_tag (p iv altered : list N) (key : CryptoKey.t) :
  usable key -> is_nonce iv -> is_bytes altered ->
  length altered = length (GCM.encrypt (CryptoKey.raw key) iv [] p) ->
  firstn (length altered - 16) altered
  = firstn (length altered - 16) (GCM.encrypt (CryptoKey.raw key) iv [] p) ->
  altered <> GCM.encrypt (CryptoKey.raw key) iv [] p ->
  decryptTextMessage (base64_encode base64_alphabet true altered)
    (base64_encode base64_alphabet true iv) key
  = Throw OperationError.
Proof.
  intros (Hraw & _ & Hdec) [Hiv Hlen] Haltered Hsame Hbody Hchanged.
  unfold decryptTextMessage. rewrite !atob_base64_encode by done.
  cbn [fmap result_fmap mbind result_bind].
  rewrite !Uint8Array_from_charCodes_bytes by done.
  unfold subtle_decrypt. rewrite Hdec. simpl negb. cbv iota.
  rewrite bool_decide_eq_false_2 by (intros ->; done).
  rewrite GCM_encrypt_length in Hsame by done.
  assert (GCM.decrypt (CryptoKey.raw key) iv [] altered = None) as ->; [|done].
  unfold GCM.decrypt. destruct (Nat.ltb_spec (length altered) 16) as [|_]; [done|].
  rewrite bool_decide_eq_false_2; [done|]. intros Htag. apply Hchanged.
  rewrite <- (firstn_skipn (length altered - 16) altered), Htag, Hbody.
  unfold GCM.encrypt.
  set (c := GCM.GCTR (CryptoKey.raw key) (GCM.inc32 (GCM.J0 (CryptoKey.raw key) iv)) p).
  assert (length c = (length altered - 16)%nat) as Hc.
  { unfold c.
    destruct (GCTR_spec _ Hraw (length p) p (GCM.inc32 (GCM.J0 (CryptoKey.raw key) iv))
                (le_n _)) as [-> _]. lia. }
  by rewrite <- Hc, take_app_length.
Qed.


Lemma is_bytes_check (l : list N) : forallb (fun b => b <? 256) l = true -> is_bytes l.
Proof.
  intros H. apply List.Forall_forall. intros b Hb.
  rewrite forallb_forall in H. apply N.ltb_lt. by apply H.
Qed.

Definition sample_key : CryptoKey.t := generateSymmetricKey (N.of_nat <$> seq 1 32).
Definition other_key : CryptoKey.t := generateSymmetricKey (N.of_nat <$> seq 33 32).
Definition sample_nonce : list N := N.of_nat <$> seq 1 12.

(** An engine whose calls take up to 65535 arguments. *)
Definition sample_engine : JSEngine := {| argument_limit := 65535 |}.

Lemma sample_key_usable : usable sample_key.
Proof.
  split; [split|split; reflexivity].
  - apply is_bytes_check. vm_compute. reflexivity.
  - right. right. reflexivity.
Defined.

Lemma sample_nonce_is_nonce : is_nonce sample_nonce.
Proof. split; [apply is_bytes_check; vm_compute; reflexivity|reflexivity]. Defined.

(** A string the user can send, and the nonce drawn for it. *)
Definition noon_message : jsstring :=
  str "Meet me at noon."
  ++ [0x333; 0x58; 0x2B; 0; 0x29D; 0x69; 0x18; 0x7C; 0x79; 0x5A; 0x34; 0x48; 0x33; 7].
Definition noon_nonce : list N := [0; 0; 0; 0; 0; 0; 0; 0; 0; 0; 0x40; 0x89].

Section SampleTextMessages.
#[local] Existing Instance sample_engine.


End SampleTextMessages.


(** * User identifiers *)

(** ** The shape of a SHA-256 digest *)

Lemma round_length st kw : length (SHA256.round st kw) = length st.
Proof.
  unfold SHA256.round.
  destruct st as [|a [|b [|c [|d [|e [|f [|g [|h [|i st]]]]]]]]]; reflexivity.
Qed.

Lemma fold_round_length kws st : length (fold_left SHA256.round kws st) = length st.
Proof.
  revert st. induction kws as [|kw kws IH]; intros st; [done|].
  simpl. by rewrite IH, round_length.
Qed.

Lemma compress_length h block : length (SHA256.compress h block) = length h.
Proof.
  unfold SHA256.compress. rewrite length_map, length_combine, fold_round_length. lia.
Qed.

Lemma fold_compress_length blocks h : length (fold_left SHA256.compress blocks h) = length h.
Proof.
  revert h. induction blocks as [|b blocks IH]; intros h; [done|].
  simpl. by rewrite IH, compress_length.
Qed.

Lemma flat_map_be_bytes n (ws : list N) :
  length (flat_map (be_bytes n) ws) = (n * length ws)%nat
  /\ is_bytes (flat_map (be_bytes n) ws).
Proof.
  induction ws as [|w ws [IH1 IH2]]; [split; [simpl; lia|constructor]|].
  cbn [flat_map]. rewrite length_app, be_bytes_length, IH1. split; [simpl; lia|].
  apply Forall_app. split; [apply be_bytes_is_bytes|done].
Qed.

(** A digest is thirty-two bytes. *)
Lemma digest_shape msg : length (SHA256.digest msg) = 32%nat /\ is_bytes (SHA256.digest msg).
Proof.
  unfold SHA256.digest.
  destruct (flat_map_be_bytes 4 (fold_left SHA256.compress (blocks_of 64 (SHA256.pad msg))
                                   SHA256.H0)) as [H1 H2].
  split; [|done]. rewrite H1, fold_compress_length. reflexivity.
Qed.

(** ** Hexadecimal digits *)

Definition is_hex_digit (c : N) : Prop := In c (str "0123456789abcdef").

Lemma hex_digit_is_hex_digit d : d < 16 -> is_hex_digit (hex_digit d).
Proof.
  intros Hd.
  assert (forallb (fun k => bool_decide (is_hex_digit (hex_digit (N.of_nat k)))) (seq 0 16)
          = true) as H by (vm_compute; reflexivity).
  rewrite forallb_forall in H. specialize (H (N.to_nat d)).
  rewrite N2Nat.id in H. apply bool_decide_eq_true in H; [done|]. apply in_seq. lia.
Qed.

Lemma hex_shape bytes :
  is_bytes bytes ->
  length (flat_map hex2 bytes) = (2 * length bytes)%nat
  /\ Forall is_hex_digit (flat_map hex2 bytes).
Proof.
  induction 1 as [|b bytes Hb _ [IH1 IH2]]; [by split; [|constructor]|].
  cbn [flat_map]. rewrite length_app, IH1. split; [simpl; lia|].
  apply Forall_app. split; [|done].
  unfold hex2.
  constructor; [apply hex_digit_is_hex_digit; lia|].
  constructor; [apply hex_digit_is_hex_digit; lia|constructor].
Qed.

(** An identifier is sixteen hexadecimal digits. *)
Lemma user_id_shape (publicKey : JsonWebKey) :
  length (generateUserIdFromPublicKey publicKey) = 16%nat
  /\ Forall is_hex_digit (generateUserIdFromPublicKey publicKey).
Proof.
  unfold generateUserIdFromPublicKey, substring0.
  destruct (digest_shape (TextEncoder_encode (JSON_stringify publicKey))) as [Hl Hb].
  destruct (hex_shape _ Hb) as [H1 H2]. rewrite Hl in H1.
  split; [rewrite length_firstn, H1; lia|by apply Forall_take].
Qed.

(** ** Keys of the exported shape *)

Lemma be_number_fold n x acc :
  fold_left (fun a b => a * 256 + b) (be_bytes n x) acc
  = acc * 256 ^ N.of_nat n + x mod 256 ^ N.of_nat n.
Proof.
  revert acc. induction n as [|n IH]; intros acc.
  - simpl. rewrite N.mod_1_r. lia.
  - cbn [be_bytes fold_left]. rewrite IH.
    rewrite Nat2N.inj_succ, N.pow_succ_r'.
    rewrite (N.mul_comm 256 (256 ^ N.of_nat n)).
    rewrite (N.Div0.mod_mul_r x (256 ^ N.of_nat n) 256). lia.
Qed.

(** The number is read back from its big-endian bytes when it fits. *)
Lemma be_number_be_bytes n x : x < 256 ^ N.of_nat n -> be_number (be_bytes n x) = x.
Proof.
  intros Hx. unfold be_number. rewrite be_number_fold, N.mod_small by done. lia.
Qed.

(** A JSON Web Key of the shape of a P-384 public key, with coordinates [x]
    and [y]. *)
Definition shaped_key (x y : N) : JsonWebKey :=
  JObject ((str "crv", JString (str "P-384")) :: ec_jwk_members x y []).

(** ** Identifiers and digests *)

Lemma hex_digit_inj (d d' : N) : d < 16 -> d' < 16 -> hex_digit d = hex_digit d' -> d = d'.
Proof.
  unfold hex_digit. intros Hd Hd'.
  destruct (N.ltb_spec d 10), (N.ltb_spec d' 10); lia.
Qed.

Lemma hex2_inj (b b' : N) : b < 256 -> b' < 256 -> hex2 b = hex2 b' -> b = b'.
Proof.
  intros Hb Hb'. unfold hex2. intros [= Hhigh Hlow].
  apply hex_digit_inj in Hhigh; [|apply N.Div0.div_lt_upper_bound; lia..].
  apply hex_digit_inj in Hlow; [|apply N.mod_lt; lia..].
  rewrite (N.div_mod b 16), (N.div_mod b' 16) by lia. congruence.
Qed.

(** Byte arrays with the same hexadecimal text are the same. *)
Lemma flat_map_hex2_inj (l l' : list N) :
  is_bytes l -> is_bytes l' -> flat_map hex2 l = flat_map hex2 l' -> l = l'.
Proof.
  intros Hl. revert l'. induction Hl as [|b l Hb _ IH]; intros l' Hl' Heq.
  - destruct l'; [done|discriminate].
  - destruct Hl' as [|b' l' Hb' Hl']; [discriminate|].
    cbn [flat_map] in Heq. unfold hex2 at 1 3 in Heq. cbn [app] in Heq.
    injection Heq as Hhigh Hlow Hrest.
    f_equal; [|by apply IH].
    apply hex2_inj; [done..|]. unfold hex2. congruence.
Qed.

(** The first [2 n] hexadecimal digits are those of the first [n] bytes. *)
Lemma firstn_flat_map_hex2 (n : nat) (l : list N) :
  firstn (2 * n) (flat_map hex2 l) = flat_map hex2 (firstn n l).
Proof.
  revert l. induction n as [|n IH]; intros l; [done|].
  destruct l as [|b l]; [done|].
  replace (2 * S n)%nat with (S (S (2 * n))) by lia.
  cbn [flat_map firstn]. unfold hex2 at 1 3. cbn [app firstn]. by rewrite IH.
Qed.


(** * Key agreement *)

(** The JSON Web Key of a private key with private value [d] and public
    point ([x], [y]), as [exportKey] lays it out. *)
Definition private_key_jwk (d x y : N) : JsonWebKey :=
  JObject ((str "crv", JString (str "P-384"))
           :: (str "d", JString (base64url_encode (be_bytes field_octets d)))
           :: ec_jwk_members x y [JString (usage_name deriveKey_usage)]).

Lemma octets_member_exported (jwk : JSON) (key : string) (v : N) :
  member jwk (str key) = Some (JString (base64url_encode (be_bytes field_octets v))) ->
  v < 2 ^ 384 ->
  octets_member jwk key = Ok v.
Proof.
  intros Hm Hv. unfold octets_member, string_member. rewrite Hm.
  change (Ok (Some ?s) ≫= ?f) with (f (Some s)). cbv beta.
  change (Some ?s ≫= base64url_decode) with (base64url_decode s).
  rewrite base64url_decode_encode by apply be_bytes_is_bytes.
  rewrite be_bytes_length, bool_decide_eq_true_2 by done.
  by rewrite be_number_be_bytes.
Qed.

Section KeyAgreementFacts.
Context {curve : NamedCurve}.

(** The addition of the curve is associative. *)
Hypothesis padd_assoc : forall P Q R : point, padd P (padd Q R) = padd (padd P Q) R.

(** The order of the base point fits the field. *)
Hypothesis order_bound : order <= 2 ^ 384.

(** The coordinates of a point fit the field and name the point. *)
Hypothesis affine_from_affine :
  forall (P : point) (x y : N),
    affine P = Some (x, y) -> x < 2 ^ 384 /\ y < 2 ^ 384 /\ from_affine x y = Some P.

(** The base point is a finite point, and so is a multiple of a finite point
    by a private value: the group has prime order. *)
Hypothesis base_finite : affine base_point <> None.
Hypothesis multiple_finite :
  forall (d : N) (P : point),
    0 < d < order -> affine P <> None -> affine (smul d P) <> None.

Lemma iter_op_add (p q : positive) (P : point) :
  Pos.iter_op padd (p + q) P = padd (Pos.iter_op padd p P) (Pos.iter_op padd q P).
Proof.
  induction p as [|p IH] using Pos.peano_ind.
  - rewrite Pos.add_1_l, Pos.iter_op_succ by exact padd_assoc. done.
  - rewrite Pos.add_succ_l, !Pos.iter_op_succ, IH by exact padd_assoc.
    apply padd_assoc.
Qed.

Lemma iter_op_mul (p q : positive) (P : point) :
  Pos.iter_op padd (p * q) P = Pos.iter_op padd p (Pos.iter_op padd q P).
Proof.
  induction p as [|p IH] using Pos.peano_ind.
  - by rewrite Pos.mul_1_l.
  - rewrite Pos.mul_succ_l, iter_op_add, IH, Pos.iter_op_succ by exact padd_assoc. done.
Qed.

(** Multiplying by two private values in either order gives the same
    point. *)
Lemma smul_smul (a b : N) (P : point) :
  0 < a -> 0 < b -> smul a (smul b P) = smul b (smul a P).
Proof.
  intros Ha Hb. destruct a as [|p]; [lia|]. destruct b as [|q]; [lia|].
  cbn [smul]. by rewrite <- !iter_op_mul, Pos.mul_comm.
Qed.

Lemma importKey_public_exported (Q : point) (x y : N) :
  affine Q = Some (x, y) ->
  importKey_jwk_ECDH_public (shaped_key x y) = Ok Q.
Proof.
  intros HQ. destruct (affine_from_affine Q x y HQ) as (Hx & Hy & Hfrom).
  unfold importKey_jwk_ECDH_public.
  change (member (shaped_key x y) (str "d")) with (@None JSON). cbv iota.
  unfold import_ec_point.
  change (check_dictionary (shaped_key x y)) with (Ok tt).
  change (string_member (shaped_key x y) "kty") with (Ok (Some (str "EC"))).
  change (string_member (shaped_key x y) "use") with (Ok (@None jsstring)).
  change (string_member (shaped_key x y) "crv") with (Ok (Some (str "P-384"))).
  change (check_key_ops_ext (shaped_key x y) true []) with (Ok tt).
  rewrite (octets_member_exported (shaped_key x y) "x" x) by done.
  rewrite (octets_member_exported (shaped_key x y) "y" y) by done.
  cbn. by rewrite Hfrom.
Qed.

Lemma importKey_private_exported (d x y : N) :
  0 < d < order ->
  affine (smul d base_point) = Some (x, y) ->
  importKey_jwk_ECDH_private (private_key_jwk d x y) = Ok d.
Proof.
  intros Hd HQ. destruct (affine_from_affine _ x y HQ) as (Hx & Hy & Hfrom).
  unfold importKey_jwk_ECDH_private.
  change (member (private_key_jwk d x y) (str "d"))
    with (Some (JString (base64url_encode (be_bytes field_octets d)))). cbv iota.
  unfold import_ec_point.
  change (check_dictionary (private_key_jwk d x y)) with (Ok tt).
  change (string_member (private_key_jwk d x y) "kty") with (Ok (Some (str "EC"))).
  change (string_member (private_key_jwk d x y) "use") with (Ok (@None jsstring)).
  change (string_member (private_key_jwk d x y) "crv") with (Ok (Some (str "P-384"))).
  change (check_key_ops_ext (private_key_jwk d x y) true [deriveKey_usage]) with (Ok tt).
  rewrite (octets_member_exported (private_key_jwk d x y) "x" x) by done.
  rewrite (octets_member_exported (private_key_jwk d x y) "y" y) by done.
  rewrite (octets_member_exported (private_key_jwk d x y) "d" d) by (done || lia).
  cbn. rewrite Hfrom. cbn.
  destruct (N.ltb_spec 0 d); [|lia]. destruct (N.ltb_spec d order); [|lia]. done.
Qed.

(** C2: two key pairs generated on a curve whose group is associative and of
    prime order agree on the key: each of the two derivations succeeds, and
    both return the same AES-GCM key of 256 bits. *)
Theorem deriveSharedSecret_symmetric (dA dB : N) :
  0 < dA < order -> 0 < dB < order ->
  exists (A B : CryptoKeys.t) (key : CryptoKey.t),
    generateKeys dA = Ok A
    /\ generateKeys dB = Ok B
    /\ deriveSharedSecret (CryptoKeys.privateKey A) (CryptoKeys.publicKey B) = Ok key
    /\ deriveSharedSecret (CryptoKeys.privateKey B) (CryptoKeys.publicKey A) = Ok key
    /\ CryptoKey.length key = 256
    /\ length (CryptoKey.raw key) = 32%nat.
Proof.
  intros HA HB.
  destruct (affine (smul dA base_point)) as [[xA yA]|] eqn:HqA;
    [|exfalso; by apply (multiple_finite dA base_point)].
  destruct (affine (smul dB base_point)) as [[xB yB]|] eqn:HqB;
    [|exfalso; by apply (multiple_finite dB base_point)].
  destruct (affine (smul dA (smul dB base_point))) as [[x y]|] eqn:Hshared;
    [|exfalso; apply (multiple_finite dA (smul dB base_point)); [done| |done];
      by rewrite HqB].
  exists (CryptoKeys.mk (shaped_key xA yA) (private_key_jwk dA xA yA)),
         (CryptoKeys.mk (shaped_key xB yB) (private_key_jwk dB xB yB)),
         (CryptoKey.mk 256 true [encrypt_usage; decrypt_usage]
            (firstn 32 (be_bytes field_octets x))).
  split; [|split; [|split; [|split; [|split]]]].
  - unfold generateKeys, exportKey_jwk_ECDH_public, exportKey_jwk_ECDH_private.
    by rewrite HqA.
  - unfold generateKeys, exportKey_jwk_ECDH_public, exportKey_jwk_ECDH_private.
    by rewrite HqB.
  - unfold deriveSharedSecret. cbn [CryptoKeys.privateKey CryptoKeys.publicKey].
    rewrite (importKey_private_exported dA xA yA HA HqA).
    rewrite (importKey_public_exported _ xB yB HqB).
    cbn. unfold deriveKey_ECDH_AES_GCM_256. by rewrite Hshared.
  - unfold deriveSharedSecret. cbn [CryptoKeys.privateKey CryptoKeys.publicKey].
    rewrite (importKey_private_exported dB xB yB HB HqB).
    rewrite (importKey_public_exported _ xA yA HqA).
    cbn. unfold deriveKey_ECDH_AES_GCM_256.
    rewrite (smul_smul dB dA) by lia. by rewrite Hshared.
  - done.
  - cbn [CryptoKey.raw]. rewrite length_firstn, be_bytes_length. done.
Qed.
End KeyAgreementFacts.

(** The hypotheses on the curve hold of the integers modulo seven under
    addition, read as a curve whose finite points are 1 to 6; the first
    coordinate of a point has the point in its first octet. *)
Definition Z7 : NamedCurve := {|
  point := N;
  padd := fun a b => (a + b) mod 7;
  pzero := 0;
  base_point := 1;
  order := 7;
  affine := fun p => if (0 <? p) && (p <? 7) then Some (p * 2 ^ 376, p) else None;
  from_affine := fun x y =>
    if (x =? y * 2 ^ 376) && (0 <? y) && (y <? 7) then Some y else None
|}.

Section Z7Facts.
#[local] Existing Instance Z7.

Lemma Z7_padd_assoc (P Q R : point) : padd P (padd Q R) = padd (padd P Q) R.
Proof. cbn. by rewrite N.Div0.add_mod_idemp_r, N.Div0.add_mod_idemp_l, N.add_assoc. Qed.

Lemma Z7_finite (P : point) : affine P <> None -> 0 < P < 7.
Proof.
  cbn. destruct (N.ltb_spec 0 P), (N.ltb_spec P 7); cbn; done || lia.
Qed.

Lemma Z7_affine_from_affine (P : point) (x y : N) :
  affine P = Some (x, y) -> x < 2 ^ 384 /\ y < 2 ^ 384 /\ from_affine x y = Some P.
Proof.
  intros HP. assert (0 < P < 7) as Hr by (apply Z7_finite; by rewrite HP).
  assert (P = 1 \/ P = 2 \/ P = 3 \/ P = 4 \/ P = 5 \/ P = 6) as HPc by lia.
  clear Hr. revert HP.
  repeat (destruct HPc as [HPc|HPc]); rewrite HPc; intros [= <- <-];
    (split; [|split]); vm_compute; reflexivity.
Qed.

Lemma Z7_multiple_finite (d : N) (P : point) :
  0 < d < order -> affine P <> None -> affine (smul d P) <> None.
Proof.
  intros Hd HP%Z7_finite. change order with 7 in Hd.
  assert (d = 1 \/ d = 2 \/ d = 3 \/ d = 4 \/ d = 5 \/ d = 6) as Hdc by lia.
  assert (P = 1 \/ P = 2 \/ P = 3 \/ P = 4 \/ P = 5 \/ P = 6) as HPc by lia.
  clear Hd HP.
  repeat (destruct Hdc as [Hdc|Hdc]); repeat (destruct HPc as [HPc|HPc]);
    rewrite Hdc, HPc; vm_compute; discriminate.
Qed.

End Z7Facts.

Lemma deriveSharedSecret_symmetric_witness :
  exists (A B : CryptoKeys.t) (key : CryptoKey.t),
    @generateKeys Z7 3 = Ok A
    /\ @generateKeys Z7 5 = Ok B
    /\ @deriveSharedSecret Z7 (CryptoKeys.privateKey A) (CryptoKeys.publicKey B) = Ok key
    /\ @deriveSharedSecret Z7 (CryptoKeys.privateKey B) (CryptoKeys.publicKey A) = Ok key
    /\ CryptoKey.length key = 256
    /\ length (CryptoKey.raw key) = 32%nat.
Proof.
  apply (@deriveSharedSecret_symmetric Z7 Z7_padd_assoc).
  - vm_compute. discriminate.
  - exact Z7_affine_from_affine.
  - vm_compute. discriminate.
  - exact Z7_multiple_finite.
  - split; reflexivity.
  - split; reflexivity.
Defined.

(** * Properties of the chat reconciler *)

(** ** Array.prototype.sort *)
Section ArraySortFacts.
Context {A : Type} (cmp : A -> A -> Z).

Lemma sort_insert_perm (x : A) (l : list A) : sort_insert cmp x l ≡ₚ x :: l.
Proof.
  induction l as [|y l IH]; simpl; [done|].
  destruct (cmp x y >? 0)%Z; [|done].
  rewrite IH. apply Permutation_swap.
Qed.

Lemma Array_sort_perm (l : list A) : Array_sort cmp l ≡ₚ l.
Proof.
  induction l as [|x l IH]; simpl; [done|].
  rewrite sort_insert_perm. by rewrite IH.
Qed.

Lemma Array_sort_length (l : list A) : length (Array_sort cmp l) = length l.
Proof. by rewrite Array_sort_perm. Qed.
End ArraySortFacts.

(** Ascending order of the [timestamp] field. *)
Definition ascending (ms : list TextMessage.t) : Prop :=
  StronglySorted (fun a b => (TextMessage.timestamp a <= TextMessage.timestamp b)%Z) ms.

Lemma sort_insert_ascending (x : TextMessage.t) (l : list TextMessage.t) :
  ascending l -> ascending (sort_insert by_timestamp x l).
Proof.
  unfold ascending. induction 1 as [|y l Hl IH Hy]; simpl.
  - repeat constructor.
  - unfold by_timestamp at 1.
    destruct (Z.gtb_spec (TextMessage.timestamp x - TextMessage.timestamp y) 0) as [Hgt|Hle].
    + constructor; [done|].
      rewrite sort_insert_perm. constructor; [lia|done].
    + constructor; [by constructor|].
      constructor; [lia|].
      eapply Forall_impl; [exact Hy|]. simpl. intros; lia.
Qed.

Lemma Array_sort_ascending (l : list TextMessage.t) : ascending (Array_sort by_timestamp l).
Proof.
  induction l as [|x l IH]; simpl.
  - constructor.
  - by apply sort_insert_ascending.
Qed.

(** ** handleNewMessage *)

Definition has_id (id : jsstring) (ms : list TextMessage.t) : bool :=
  existsb (fun m => jseq (TextMessage.id m) id) ms.

Lemma has_id_spec id ms :
  has_id id ms = true <-> exists m, m ∈ ms /\ TextMessage.id m = id.
Proof.
  unfold has_id. rewrite existsb_exists. split.
  - intros (m & Hin & Heq). exists m. split; [by apply list_elem_of_In|].
    unfold jseq in Heq. by apply bool_decide_eq_true in Heq.
  - intros (m & Hin & Heq). exists m. split; [by apply list_elem_of_In|].
    unfold jseq. by apply bool_decide_eq_true.
Qed.

Lemma has_id_perm id ms ms' : ms ≡ₚ ms' -> has_id id ms = has_id id ms'.
Proof.
  intros Hp. apply eq_true_iff_eq. rewrite !has_id_spec.
  split; intros (m & Hin & Heq); exists m; split; try done.
  - by rewrite <- Hp.
  - by rewrite Hp.
Qed.

Lemma has_id_snoc id ms m : has_id id (ms ++ [m]) = has_id id ms || jseq (TextMessage.id m) id.
Proof. unfold has_id. rewrite existsb_app. simpl. by rewrite orb_false_r. Qed.

(** What [handleNewMessage] does with a text message whose conversation
    exists and holds no message of the same id. *)
Definition received (activeChatId : option jsstring) (chatId : jsstring)
    (textMessage : TextMessage.t) (chat : Chat.t) : Chat.t :=
  Chat.set_unreadCount
    (if negb (jseq_opt (Some chatId) activeChatId)
     then or_zero (Chat.unreadCount chat) + 1 else Chat.unreadCount chat)
    (Chat.set_messages (Array_sort by_timestamp (Chat.messages chat ++ [textMessage])) chat).

Lemma handleNewMessage_duplicate activeChatId senderId textMessage chats chat :
  chats !! target_chat senderId textMessage = Some chat ->
  has_id (TextMessage.id textMessage) (Chat.messages chat) = true ->
  handleNewMessage activeChatId senderId (Text textMessage) chats = (chats, []).
Proof.
  intros Hchat Hdup. unfold handleNewMessage. rewrite Hchat.
  fold (has_id (TextMessage.id textMessage) (Chat.messages chat)). by rewrite Hdup.
Qed.

Lemma handleNewMessage_fresh activeChatId senderId textMessage chats chat :
  chats !! target_chat senderId textMessage = Some chat ->
  has_id (TextMessage.id textMessage) (Chat.messages chat) = false ->
  handleNewMessage activeChatId senderId (Text textMessage) chats =
    (<[target_chat senderId textMessage :=
         received activeChatId (target_chat senderId textMessage) textMessage chat]> chats,
     [SaveMessage textMessage (target_chat senderId textMessage)]).
Proof.
  intros Hchat Hfresh. unfold handleNewMessage. rewrite Hchat.
  fold (has_id (TextMessage.id textMessage) (Chat.messages chat)). by rewrite Hfresh.
Qed.

Lemma handleNewMessage_no_chat activeChatId senderId textMessage chats :
  chats !! target_chat senderId textMessage = None ->
  handleNewMessage activeChatId senderId (Text textMessage) chats = (chats, []).
Proof. intros Hchat. unfold handleNewMessage. by rewrite Hchat. Qed.

Lemma received_has_id activeChatId chatId textMessage chat :
  has_id (TextMessage.id textMessage) (Chat.messages (received activeChatId chatId textMessage chat))
  = true.
Proof.
  unfold received. simpl.
  rewrite (has_id_perm _ _ _ (Array_sort_perm _ _)), has_id_snoc.
  unfold jseq. rewrite bool_decide_eq_true_2 by done. apply orb_true_r.
Qed.

Lemma received_length activeChatId chatId textMessage chat :
  length (Chat.messages (received activeChatId chatId textMessage chat))
  = S (length (Chat.messages chat)).
Proof. unfold received. simpl. rewrite Array_sort_length, length_app. simpl. lia. Qed.

(** A message with this id is among [ms]. *)
Definition occurs (id : jsstring) (ms : list TextMessage.t) : Prop :=
  exists m, m ∈ ms /\ TextMessage.id m = id.

(** C4: a text message whose id already occurs among the messages of its
    conversation is ignored by [handleNewMessage]: the map is returned as it
    was and nothing is saved. Receiving a new message and then a message of
    the same id makes the conversation one message longer, not two, and
    saves a message once. *)
Theorem receive_same_id_once
    (activeChatId activeChatId' : option jsstring) (senderId senderId' : jsstring)
    (textMessage duplicate : TextMessage.t) (chats : gmap jsstring Chat.t) (chat : Chat.t) :
  chats !! target_chat senderId textMessage = Some chat ->
  TextMessage.id duplicate = TextMessage.id textMessage ->
  target_chat senderId' duplicate = target_chat senderId textMessage ->
  (occurs (TextMessage.id textMessage) (Chat.messages chat) ->
   handleNewMessage activeChatId senderId (Text textMessage) chats = (chats, []))
  /\
  (~ occurs (TextMessage.id textMessage) (Chat.messages chat) ->
   exists chat1 : Chat.t,
     handleNewMessage activeChatId senderId (Text textMessage) chats
       = (<[target_chat senderId textMessage := chat1]> chats,
          [SaveMessage textMessage (target_chat senderId textMessage)])
     /\ length (Chat.messages chat1) = S (length (Chat.messages chat))
     /\ handleNewMessage activeChatId' senderId' (Text duplicate)
          (<[target_chat senderId textMessage := chat1]> chats)
        = (<[target_chat senderId textMessage := chat1]> chats, [])).
Proof.
  intros Hchat Hid Htarget. split.
  - intros Hocc. apply (handleNewMessage_duplicate _ _ _ _ chat); [done|].
    by apply has_id_spec.
  - intros Hfresh.
    assert (has_id (TextMessage.id textMessage) (Chat.messages chat) = false) as Hf.
    { apply not_true_is_false. by rewrite has_id_spec. }
    exists (received activeChatId (target_chat senderId textMessage) textMessage chat).
    split; [by apply handleNewMessage_fresh|].
    split; [apply received_length|].
    eapply handleNewMessage_duplicate.
    + rewrite Htarget. apply lookup_insert_eq.
    + rewrite Hid. apply received_has_id.
Qed.

Definition sample_message (id : string) (timestamp : Z) : TextMessage.t :=
  TextMessage.mk timestamp (str id) (str "peer") (str "me") (str "AAAA") (str "AAAA").

Definition sample_chat (ms : list TextMessage.t) (unread : N) : Chat.t :=
  Chat.mk (str "peer") (str "Peer") dm ms unread [] None None.

Lemma receive_same_id_once_witness :
  handleNewMessage None (str "peer") (Text (sample_message "m1" 5))
    {[ str "peer" := sample_chat [sample_message "m1" 5] 1 ]}
  = ({[ str "peer" := sample_chat [sample_message "m1" 5] 1 ]}, [])
  /\
  exists chat1 : Chat.t,
    handleNewMessage None (str "peer") (Text (sample_message "m1" 5))
      {[ str "peer" := sample_chat [] 0 ]}
    = (<[str "peer" := chat1]> {[ str "peer" := sample_chat [] 0 ]},
       [SaveMessage (sample_message "m1" 5) (str "peer")])
    /\ length (Chat.messages chat1) = 1%nat
    /\ handleNewMessage None (str "peer") (Text (sample_message "m1" 5))
         (<[str "peer" := chat1]> {[ str "peer" := sample_chat [] 0 ]})
       = (<[str "peer" := chat1]> {[ str "peer" := sample_chat [] 0 ]}, []).
Proof.
  split.
  - refine (proj1 (receive_same_id_once None None (str "peer") (str "peer")
                     (sample_message "m1" 5) (sample_message "m1" 5)
                     {[ str "peer" := sample_chat [sample_message "m1" 5] 1 ]}
                     (sample_chat [sample_message "m1" 5] 1) _ _ _) _);
      [vm_compute; reflexivity ..|].
    exists (sample_message "m1" 5). split; [apply list_elem_of_here | reflexivity].
  - refine (proj2 (receive_same_id_once None None (str "peer") (str "peer")
                     (sample_message "m1" 5) (sample_message "m1" 5)
                     {[ str "peer" := sample_chat [] 0 ]} (sample_chat [] 0) _ _ _) _);
      [vm_compute; reflexivity ..|].
    intros (m & Hin & _). inversion Hin.
Defined.

(** C10: a text message for a conversation that is not in the map leaves the
    map as it was and saves nothing: no conversation is created, no unread
    count changes, and the database is what it was. *)
Theorem receive_unknown_conversation
    (activeChatId : option jsstring) (senderId : jsstring) (textMessage : TextMessage.t)
    (chats : gmap jsstring Chat.t) (db : DatabaseService.t) :
  chats !! target_chat senderId textMessage = None ->
  handleNewMessage activeChatId senderId (Text textMessage) chats = (chats, [])
  /\ run_db_calls (handleNewMessage activeChatId senderId (Text textMessage) chats).2 db = db.
Proof.
  intros Hnone. rewrite handleNewMessage_no_chat by done. done.
Qed.

Lemma receive_unknown_conversation_witness :
  handleNewMessage (Some (str "peer")) (str "stranger") (Text (sample_message "m1" 5))
    {[ str "peer" := sample_chat [] 0 ]}
  = ({[ str "peer" := sample_chat [] 0 ]}, [])
  /\ run_db_calls
       (handleNewMessage (Some (str "peer")) (str "stranger") (Text (sample_message "m1" 5))
          {[ str "peer" := sample_chat [] 0 ]}).2 DatabaseService.empty
     = DatabaseService.empty.
Proof.
  apply (receive_unknown_conversation (Some (str "peer")) (str "stranger")
           (sample_message "m1" 5) {[ str "peer" := sample_chat [] 0 ]} DatabaseService.empty).
  vm_compute. reflexivity.
Defined.

(** X3: after [handleNewMessage] has inserted a message, the messages of the
    conversation are in ascending order of [timestamp], whatever their order
    was before. *)
Lemma receive_sorts
    (activeChatId : option jsstring) (senderId : jsstring) (textMessage : TextMessage.t)
    (chats : gmap jsstring Chat.t) (chat : Chat.t) :
  chats !! target_chat senderId textMessage = Some chat ->
  ~ occurs (TextMessage.id textMessage) (Chat.messages chat) ->
  exists chat1 : Chat.t,
    (handleNewMessage activeChatId senderId (Text textMessage) chats).1
      !! target_chat senderId textMessage = Some chat1
    /\ Chat.messages chat1 ≡ₚ textMessage :: Chat.messages chat
    /\ ascending (Chat.messages chat1).
Proof.
  intros Hchat Hfresh.
  rewrite (handleNewMessage_fresh _ _ _ _ chat) by
    (try done; apply not_true_is_false; by rewrite has_id_spec).
  eexists. split; [apply lookup_insert_eq|]. split.
  - unfold received. simpl. rewrite Array_sort_perm.
    by rewrite Permutation_app_comm.
  - apply Array_sort_ascending.
Qed.

(** The updater of [sendMessage] appends the message and does not sort. *)
Lemma sendMessage_updater_appends
    (activeChatId : jsstring) (message : TextMessage.t)
    (chats : gmap jsstring Chat.t) (chat : Chat.t) :
  chats !! activeChatId = Some chat ->
  sendMessage_updater activeChatId message chats
  = (<[activeChatId := Chat.set_messages (Chat.messages chat ++ [message]) chat]> chats,
     [SaveMessage message activeChatId]).
Proof. intros Hchat. unfold sendMessage_updater. by rewrite Hchat. Qed.

Definition me : User.t := User.mk (str "me") (str "Me") placeholder_keys false.

Definition sample_peer : Peer.t :=
  Peer.mk (str "peer") (str "Peer") placeholder_keys false new_connection channel_open
    connected (Some sample_key).

(** The peer's clock is ahead: its message carries timestamp 2000 and was
    received before the local clock reached 1000. *)
Definition skewed_state : ChatView.t :=
  ChatView.mk {[ str "peer" := sample_chat [sample_message "m1" 2000] 0 ]} (Some (str "peer")).

Section SampleSend.
#[local] Existing Instance sample_engine.

(** C5 (on the send path): [sendMessage] appends the new message without
    sorting. With a received message of timestamp 2000 in the conversation, a
    message sent at local time 1000 leaves the list as [2000; 1000], which is
    not ascending. *)
Theorem sendMessage_leaves_unsorted :
  exists (sent : Sent.t) (chat : Chat.t),
    sendMessage me [sample_peer] skewed_state (str "hi") (str "m2") 1000 (N.of_nat <$> seq 1 12)
      = Ok sent
    /\ Sent.chats sent !! str "peer" = Some chat
    /\ TextMessage.timestamp <$> Chat.messages chat = [2000%Z; 1000%Z]
    /\ ~ ascending (Chat.messages chat).
Proof.
  eexists. eexists. split; [vm_compute; reflexivity|].
  split; [vm_compute; reflexivity|].
  split; [reflexivity|].
  intros Hs. inversion Hs as [|? ? _ Hall]; subst.
  inversion Hall as [|? ? Hle _]; subst. simpl in Hle. lia.
Qed.
End SampleSend.

(** ** Unread counts *)

Lemma or_zero_id (n : N) : or_zero n = n.
Proof. unfold or_zero. destruct (N.eqb_spec n 0); congruence. Qed.

(** [handleNewMessage] adds one to the unread count of the target
    conversation exactly when it inserts the message and the target is not
    the [activeChatId] of its closure, and touches no other conversation;
    the effect on [activeChatId] sets the count of the opened conversation
    to zero and saves the chat with the cleared count when the count was
    positive. *)
Lemma unread_accounting
    (activeChatId : option jsstring) (senderId : jsstring) (textMessage : TextMessage.t)
    (chats : gmap jsstring Chat.t) (chat : Chat.t) (db : DatabaseService.t) :
  chats !! target_chat senderId textMessage = Some chat ->
  (exists chat1 : Chat.t,
     (handleNewMessage activeChatId senderId (Text textMessage) chats).1
       !! target_chat senderId textMessage = Some chat1
     /\ Chat.unreadCount chat1 =
          if negb (has_id (TextMessage.id textMessage) (Chat.messages chat))
             && negb (jseq_opt (Some (target_chat senderId textMessage)) activeChatId)
          then Chat.unreadCount chat + 1
          else Chat.unreadCount chat)
  /\ (forall other : jsstring,
        other <> target_chat senderId textMessage ->
        (handleNewMessage activeChatId senderId (Text textMessage) chats).1 !! other
        = chats !! other)
  /\ (target_chat senderId textMessage <> [] ->
      exists chat2 : Chat.t,
        (clearUnread_effect (Some (target_chat senderId textMessage)) chats).1
          !! target_chat senderId textMessage = Some chat2
        /\ Chat.unreadCount chat2 = 0
        /\ (clearUnread_effect (Some (target_chat senderId textMessage)) chats).2
           = (if 0 <? Chat.unreadCount chat then [SaveChat chat2] else [])
        /\ (0 < Chat.unreadCount chat ->
            StorableChat.unreadCount <$>
              DatabaseService.chatStore
                (run_db_calls
                   (clearUnread_effect (Some (target_chat senderId textMessage)) chats).2 db)
                !! Chat.id chat
            = Some 0)).
Proof.
  intros Hchat. split; [|split].
  - destruct (has_id (TextMessage.id textMessage) (Chat.messages chat)) eqn:Hid.
    + rewrite (handleNewMessage_duplicate _ _ _ _ chat) by done. by exists chat.
    + rewrite (handleNewMessage_fresh _ _ _ _ chat) by done.
      eexists. split; [apply lookup_insert_eq|].
      unfold received. simpl. rewrite or_zero_id.
      by destruct (jseq_opt _ _).
  - intros other Hne.
    destruct (has_id (TextMessage.id textMessage) (Chat.messages chat)) eqn:Hid.
    + by rewrite (handleNewMessage_duplicate _ _ _ _ chat).
    + rewrite (handleNewMessage_fresh _ _ _ _ chat) by done. simpl.
      by rewrite lookup_insert_ne.
  - intros Hne. unfold clearUnread_effect.
    destruct (target_chat senderId textMessage) as [|c cs] eqn:Ht; [done|].
    cbv zeta. setoid_rewrite Hchat. destruct (N.ltb_spec 0 (Chat.unreadCount chat)) as [Hpos|Hzero].
    + eexists. split; [apply lookup_insert_eq|]. split; [done|]. split; [done|].
      intros _. simpl. by rewrite lookup_insert_eq.
    + exists chat. split; [done|]. split; [lia|]. split; [done|]. lia.
Qed.

(** ** What is persisted of a chat *)

Definition group_of_sample_key : Chat.t :=
  Chat.mk (str "group-a") (str "first") group [] 0 [] (Some sample_key)
    (match exportSymmetricKey sample_key with Ok jwk => Some jwk | Throw _ => None end).

(** The object saved for a group holds the exported key, from which the
    group key is imported again. *)
Lemma saved_chat_holds_key :
  exists jwk : JsonWebKey,
    StorableChat.groupKeyJwk (DatabaseService.storableChat group_of_sample_key) = Some jwk
    /\ importSymmetricKey jwk = Ok sample_key
    /\ Chat.groupKey group_of_sample_key = Some sample_key.
Proof. eexists. split; [vm_compute; reflexivity|]. split; vm_compute; reflexivity. Qed.

(** C9, as the code has it: the object [saveChat] puts in the store, under
    the id of the chat, is the chat with [messages] and [groupKey] undefined;
    every other property is kept, [groupKeyJwk] among them. *)
Theorem saveChat_stores (chat : Chat.t) (db : DatabaseService.t) :
  DatabaseService.chatStore (DatabaseService.saveChat chat db) !! Chat.id chat
  = Some (DatabaseService.storableChat chat)
  /\ StorableChat.messages (DatabaseService.storableChat chat) = None
  /\ StorableChat.groupKey (DatabaseService.storableChat chat) = None
  /\ StorableChat.groupKeyJwk (DatabaseService.storableChat chat) = Chat.groupKeyJwk chat
  /\ StorableChat.id (DatabaseService.storableChat chat) = Chat.id chat
  /\ StorableChat.name (DatabaseService.storableChat chat) = Chat.name chat
  /\ StorableChat.type (DatabaseService.storableChat chat) = Chat.type chat
  /\ StorableChat.unreadCount (DatabaseService.storableChat chat) = Chat.unreadCount chat
  /\ StorableChat.members (DatabaseService.storableChat chat) = Chat.members chat
  /\ DatabaseService.messageStore (DatabaseService.saveChat chat db)
     = DatabaseService.messageStore db.
Proof. split; [apply lookup_insert_eq|]. repeat split. Qed.


(** * Group invites *)

(** ** JSON text of strings within Latin-1 *)

Lemma hex4_unicode_escape (c : N) :
  c < 256 ->
  hex4 (hex_digit (c / 4096)) (hex_digit ((c / 256) mod 16))
       (hex_digit ((c / 16) mod 16)) (hex_digit (c mod 16)) = Some c.
Proof.
  intros Hc.
  assert (forallb (fun n => let c := N.of_nat n in
                            bool_decide (hex4 (hex_digit (c / 4096)) (hex_digit ((c / 256) mod 16))
                                           (hex_digit ((c / 16) mod 16)) (hex_digit (c mod 16))
                                         = Some c)) (seq 0 256) = true) as H
    by (vm_compute; reflexivity).
  rewrite forallb_forall in H. specialize (H (N.to_nat c)).
  cbv zeta in H. rewrite N2Nat.id in H. apply bool_decide_eq_true in H; [done|].
  apply in_seq. lia.
Qed.

Lemma parse_string_unicode_escape (c : N) (rest : jsstring) :
  c < 256 ->
  parse_string (unicode_escape c ++ rest)
  = '(t, r) ← parse_string rest; Some (c :: t, r).
Proof.
  intros Hc. unfold unicode_escape. cbn [app].
  change (parse_string (92 :: 117 :: ?h1 :: ?h2 :: ?h3 :: ?h4 :: rest))
    with (u ← hex4 h1 h2 h3 h4; '(t, r) ← parse_string rest; Some (u :: t, r)).
  by rewrite hex4_unicode_escape.
Qed.

Lemma parse_string_escape (c : N) (rest : jsstring) :
  c < 256 ->
  parse_string (json_escape_unit c ++ rest)
  = '(t, r) ← parse_string rest; Some (c :: t, r).
Proof.
  intros Hc. unfold json_escape_unit.
  destruct (N.eqb_spec c 8) as [->|H8]; [done|].
  destruct (N.eqb_spec c 9) as [->|H9]; [done|].
  destruct (N.eqb_spec c 10) as [->|H10]; [done|].
  destruct (N.eqb_spec c 12) as [->|H12]; [done|].
  destruct (N.eqb_spec c 13) as [->|H13]; [done|].
  destruct (N.eqb_spec c 34) as [->|H34]; [done|].
  destruct (N.eqb_spec c 92) as [->|H92]; [done|].
  destruct (N.ltb_spec c 32) as [H32|H32]; [by apply parse_string_unicode_escape|].
  cbn [app parse_string].
  destruct (N.eqb_spec c 34); [done|]. destruct (N.eqb_spec c 92); [done|].
  destruct (N.ltb_spec c 32); [lia|]. done.
Qed.

(** A quoted string is read back as the string. *)
Lemma parse_string_quote_units (s rest : jsstring) :
  is_bytes s -> parse_string (quote_units s ++ 34 :: rest) = Some (s, rest).
Proof.
  induction 1 as [|c s Hc _ IH]; [done|].
  cbn [quote_units].
  assert (is_lead_surrogate c = false) as ->.
  { unfold is_lead_surrogate. destruct (N.leb_spec 0xD800 c); [lia|done]. }
  assert (is_trail_surrogate c = false) as ->.
  { unfold is_trail_surrogate. destruct (N.leb_spec 0xDC00 c); [lia|done]. }
  rewrite <- app_assoc, parse_string_escape, IH by done. done.
Qed.

Lemma unicode_escape_is_bytes (c : N) : c < 256 -> is_bytes (unicode_escape c).
Proof.
  intros Hc. unfold unicode_escape, hex_digit.
  repeat (apply Forall_cons; split); try apply Forall_nil; try done;
    match goal with |- context [?d <? 10] => destruct (N.ltb_spec d 10) end; lia.
Qed.

Lemma quote_units_is_bytes (s : jsstring) : is_bytes s -> is_bytes (quote_units s).
Proof.
  induction 1 as [|c s Hc _ IH]; [constructor|].
  cbn [quote_units].
  assert (is_lead_surrogate c = false) as ->.
  { unfold is_lead_surrogate. destruct (N.leb_spec 0xD800 c); [lia|done]. }
  assert (is_trail_surrogate c = false) as ->.
  { unfold is_trail_surrogate. destruct (N.leb_spec 0xDC00 c); [lia|done]. }
  apply Forall_app. split; [|done].
  unfold json_escape_unit.
  repeat match goal with |- context [N.eqb c ?k] => destruct (N.eqb_spec c k) end;
    try (vm_compute; repeat constructor; fail).
  destruct (c <? 32); [by apply unicode_escape_is_bytes|].
  by apply Forall_cons.
Qed.

(** One step of each of the three functions of the parser. *)
Lemma parse_value_S (fuel : nat) (s : jsstring) :
  parse_value (S fuel) s
  = match skip_ws s with
    | [] => None
    | c :: rest =>
        if c =? 34 then '(t, r) ← parse_string rest; Some (JString t, r)
        else if c =? 91 then
          match skip_ws rest with
          | d :: r =>
              if d =? 93 then Some (JArray [], r)
              else '(items, r) ← parse_elements fuel rest; Some (JArray items, r)
          | [] => None
          end
        else if c =? 123 then
          match skip_ws rest with
          | d :: r =>
              if d =? 125 then Some (JObject [], r)
              else '(members, r) ← parse_members fuel rest []; Some (JObject members, r)
          | [] => None
          end
        else if c =? 116 then r ← strip_prefix (str "rue") rest; Some (JBool true, r)
        else if c =? 102 then r ← strip_prefix (str "alse") rest; Some (JBool false, r)
        else if c =? 110 then r ← strip_prefix (str "ull") rest; Some (JNull, r)
        else '(z, r) ← parse_number (c :: rest); Some (JNumber z, r)
    end.
Proof. reflexivity. Qed.

Lemma parse_elements_S (fuel : nat) (s : jsstring) :
  parse_elements (S fuel) s
  = '(v, r) ← parse_value fuel s;
    match skip_ws r with
    | c :: r' =>
        if c =? 44 then '(vs, r'') ← parse_elements fuel r'; Some (v :: vs, r'')
        else if c =? 93 then Some ([v], r')
        else None
    | [] => None
    end.
Proof. reflexivity. Qed.

Lemma parse_members_S (fuel : nat) (s : jsstring) (acc : list (jsstring * JSON)) :
  parse_members (S fuel) s acc
  = match skip_ws s with
    | q :: r =>
        if negb (q =? 34) then None else
        '(k, r1) ← parse_string r;
        match skip_ws r1 with
        | colon :: r2 =>
            if negb (colon =? 58) then None else
            '(v, r3) ← parse_value fuel r2;
            match skip_ws r3 with
            | c :: r4 =>
                if c =? 44 then parse_members fuel r4 (set_member k v acc)
                else if c =? 125 then Some (set_member k v acc, r4)
                else None
            | [] => None
            end
        | [] => None
        end
    | [] => None
    end.
Proof. reflexivity. Qed.

(** More fuel reads the same value. *)
Lemma parse_fuel_S (fuel : nat) :
  (forall s r, parse_value fuel s = Some r -> parse_value (S fuel) s = Some r)
  /\ (forall s r, parse_elements fuel s = Some r -> parse_elements (S fuel) s = Some r)
  /\ (forall s acc r, parse_members fuel s acc = Some r -> parse_members (S fuel) s acc = Some r).
Proof.
  induction fuel as [|fuel (IHv & IHe & IHm)]; [done|].
  split; [|split].
  - intros s r. rewrite (parse_value_S fuel), (parse_value_S (S fuel)).
    destruct (skip_ws s) as [|c rest]; [done|].
    destruct (c =? 34); [done|].
    destruct (c =? 91).
    { destruct (skip_ws rest) as [|d r']; [done|]. destruct (d =? 93); [done|].
      destruct (parse_elements fuel rest) as [[items r1]|] eqn:He; [|done].
      by rewrite (IHe _ _ He). }
    destruct (c =? 123); [|done].
    destruct (skip_ws rest) as [|d r']; [done|]. destruct (d =? 125); [done|].
    destruct (parse_members fuel rest []) as [[members r1]|] eqn:Hm; [|done].
    by rewrite (IHm _ _ _ Hm).
  - intros s r. rewrite (parse_elements_S fuel), (parse_elements_S (S fuel)).
    destruct (parse_value fuel s) as [[v r1]|] eqn:Hv; [|done].
    rewrite (IHv _ _ Hv). cbn [mbind option_bind].
    destruct (skip_ws r1) as [|c r']; [done|].
    destruct (c =? 44); [|done].
    destruct (parse_elements fuel r') as [[vs r'']|] eqn:He; [|done].
    by rewrite (IHe _ _ He).
  - intros s acc r. rewrite (parse_members_S fuel), (parse_members_S (S fuel)).
    destruct (skip_ws s) as [|q r0]; [done|].
    destruct (negb (q =? 34)); [done|].
    destruct (parse_string r0) as [[k r1]|]; [|done]. cbn [mbind option_bind].
    destruct (skip_ws r1) as [|colon r2]; [done|].
    destruct (negb (colon =? 58)); [done|].
    destruct (parse_value fuel r2) as [[v r3]|] eqn:Hv; [|done].
    rewrite (IHv _ _ Hv). cbn [mbind option_bind].
    destruct (skip_ws r3) as [|c r4]; [done|].
    destruct (c =? 44); [|done].
    apply IHm.
Qed.

Lemma parse_value_fuel (fuel fuel' : nat) (s : jsstring) (r : JSON * jsstring) :
  (fuel <= fuel')%nat -> parse_value fuel s = Some r -> parse_value fuel' s = Some r.
Proof.
  induction 1 as [|fuel' _ IH]; [done|].
  intros H. by apply parse_fuel_S, IH.
Qed.

(** ** The payload of a group invite *)

(** The JSON Web Key [exportKey] returns for an AES-GCM key of 256 bits
    usable to encrypt and decrypt, [k] being its key material in base64url. *)
Definition exported_key_jwk (k : jsstring) : JsonWebKey :=
  JObject [(str "alg", JString (str "A256GCM"));
           (str "ext", JBool true);
           (str "k", JString k);
           (str "key_ops", JArray [JString (str "encrypt"); JString (str "decrypt")]);
           (str "kty", JString (str "oct"))].

Definition invite_payload (groupId groupName : jsstring) (key : JsonWebKey) : JSON :=
  JObject [(str "groupId", JString groupId);
           (str "groupName", JString groupName);
           (str "key", key)].

Lemma exportSymmetricKey_generated (random : list N) :
  exportSymmetricKey (generateSymmetricKey random)
  = Ok (exported_key_jwk (base64url_encode random)).
Proof. reflexivity. Qed.

Lemma parse_value_string (fuel : nat) (s rest : jsstring) :
  is_bytes s ->
  parse_value (S fuel) (34 :: quote_units s ++ 34 :: rest) = Some (JString s, rest).
Proof.
  intros Hs.
  change (parse_value (S fuel) (34 :: ?l)) with ('(t, r) ← parse_string l; Some (JString t, r)).
  by rewrite parse_string_quote_units.
Qed.

Lemma parse_value_true (fuel : nat) (rest : jsstring) :
  parse_value (S fuel) (str "true" ++ rest) = Some (JBool true, rest).
Proof. reflexivity. Qed.

Lemma parse_value_object (fuel : nat) (rest : jsstring) :
  parse_value (S fuel) (123 :: 34 :: rest)
  = '(members, r) ← parse_members fuel (34 :: rest) []; Some (JObject members, r).
Proof. reflexivity. Qed.

Lemma parse_value_array (fuel : nat) (rest : jsstring) :
  parse_value (S fuel) (91 :: 34 :: rest)
  = '(items, r) ← parse_elements fuel (34 :: rest); Some (JArray items, r).
Proof. reflexivity. Qed.

Lemma parse_members_key (fuel : nat) (k text : jsstring) (acc : list (jsstring * JSON)) :
  is_bytes k ->
  parse_members (S fuel) (34 :: quote_units k ++ 34 :: 58 :: text) acc
  = '(v, r3) ← parse_value fuel text;
    match r3 with
    | 44 :: r4 => parse_members fuel r4 (set_member k v acc)
    | 125 :: r4 => Some (set_member k v acc, r4)
    | _ => match skip_ws r3 with
           | c :: r4 =>
               if c =? 44 then parse_members fuel r4 (set_member k v acc)
               else if c =? 125 then Some (set_member k v acc, r4)
               else None
           | [] => None
           end
    end.
Proof.
  intros Hk. rewrite parse_members_S.
  change (skip_ws (34 :: ?l)) with (34 :: l). cbv iota beta.
  change (negb (34 =? 34)) with false. cbv iota.
  rewrite parse_string_quote_units by done. cbn [mbind option_bind].
  change (skip_ws (58 :: text)) with (58 :: text). cbv iota beta.
  change (negb (58 =? 58)) with false. cbv iota.
  destruct (parse_value fuel text) as [[v r3]|]; [|done]. cbn [mbind option_bind].
  destruct r3 as [|c r4]; [done|].
  destruct (N.eqb_spec c 44) as [->|H44]; [done|].
  destruct (N.eqb_spec c 125) as [->|H125]; [done|].
  assert (forall (A : Type) (a b d : A),
             match c with 44 => a | 125 => b | _ => d end = d) as ->; [|done].
  intros A a b d.
  repeat match goal with
         | |- context [match ?x with _ => _ end] => destruct x; try done; try lia
         end.
Qed.
Lemma parse_elements_value (fuel : nat) (text : jsstring) :
  parse_elements (S fuel) text
  = '(v, r) ← parse_value fuel text;
    match r with
    | 44 :: r' => '(vs, r'') ← parse_elements fuel r'; Some (v :: vs, r'')
    | 93 :: r' => Some ([v], r')
    | _ => match skip_ws r with
           | c :: r' =>
               if c =? 44 then '(vs, r'') ← parse_elements fuel r'; Some (v :: vs, r'')
               else if c =? 93 then Some ([v], r')
               else None
           | [] => None
           end
    end.
Proof.
  rewrite parse_elements_S.
  destruct (parse_value fuel text) as [[v r]|]; [|done]. cbn [mbind option_bind].
  destruct r as [|c r']; [done|].
  destruct (N.eqb_spec c 44) as [->|H44]; [done|].
  destruct (N.eqb_spec c 93) as [->|H93]; [done|].
  assert (forall (A : Type) (a b d : A),
             match c with 44 => a | 93 => b | _ => d end = d) as ->; [|done].
  intros A a b d.
  repeat match goal with
         | |- context [match ?x with _ => _ end] => destruct x; try done; try lia
         end.
Qed.

Lemma parse_invite_payload (groupId groupName k : jsstring) :
  is_bytes groupId -> is_bytes groupName -> is_bytes k ->
  parse_value 20 (JSON_stringify (invite_payload groupId groupName (exported_key_jwk k)))
  = Some (invite_payload groupId groupName (exported_key_jwk k), []).
Proof.
  intros Hid Hname Hk.
  unfold invite_payload, exported_key_jwk.
  cbn [JSON_stringify map join_comma]. unfold QuoteJSONString.
  rewrite <- !app_assoc. cbn [app].
  rewrite parse_value_object.
  rewrite parse_members_key by (by apply is_bytes_check).
  rewrite parse_value_string by done. cbn [mbind option_bind].
  rewrite parse_members_key by (by apply is_bytes_check).
  rewrite parse_value_string by done. cbn [mbind option_bind].
  rewrite parse_members_key by (by apply is_bytes_check).
  rewrite parse_value_object.
  rewrite parse_members_key by (by apply is_bytes_check).
  rewrite parse_value_string by (by apply is_bytes_check). cbn [mbind option_bind].
  rewrite parse_members_key by (by apply is_bytes_check).
  rewrite parse_value_true. cbn [mbind option_bind].
  rewrite parse_members_key by (by apply is_bytes_check).
  rewrite parse_value_string by done. cbn [mbind option_bind].
  rewrite parse_members_key by (by apply is_bytes_check).
  rewrite parse_value_array.
  rewrite parse_elements_value.
  rewrite parse_value_string by (by apply is_bytes_check). cbn [mbind option_bind].
  rewrite parse_elements_value.
  rewrite parse_value_string by (by apply is_bytes_check). cbn [mbind option_bind].
  rewrite parse_members_key by (by apply is_bytes_check).
  rewrite parse_value_string by (by apply is_bytes_check). cbn [mbind option_bind].
  reflexivity.
Qed.

Lemma base64url_encode_is_bytes (bytes : list N) : is_bytes (base64url_encode bytes).
Proof.
  unfold base64url_encode. rewrite base64_encode_sextets, app_nil_r.
  apply Forall_map, Forall_forall. intros n _. unfold base64_char.
  assert (Forall (fun c => c < 256) base64url_alphabet) as Halphabet
    by (apply is_bytes_check; vm_compute; reflexivity).
  destruct (nth_in_or_default (N.to_nat n) base64url_alphabet 0) as [Hin| ->]; [|done].
  rewrite List.Forall_forall in Halphabet. by apply Halphabet.
Qed.

Lemma invite_text_is_bytes (groupId groupName k : jsstring) :
  is_bytes groupId -> is_bytes groupName -> is_bytes k ->
  is_bytes (JSON_stringify (invite_payload groupId groupName (exported_key_jwk k))).
Proof.
  intros Hid Hname Hk.
  unfold invite_payload, exported_key_jwk.
  cbn [JSON_stringify map join_comma]. unfold QuoteJSONString.
  rewrite <- !app_assoc. cbn [app]. unfold is_bytes.
  repeat first
    [ apply Forall_nil_2
    | apply Forall_cons; split; [done|]
    | apply Forall_app; split;
      [first [ apply quote_units_is_bytes; first [assumption | by apply is_bytes_check]
             | by apply is_bytes_check ]|] ].
Qed.

Lemma invite_text_length (groupId groupName : jsstring) (key : JSON) :
  (20 <= S (2 * length (JSON_stringify (invite_payload groupId groupName key))))%nat.
Proof.
  unfold invite_payload. cbn [JSON_stringify map join_comma]. unfold QuoteJSONString.
  rewrite <- !app_assoc. cbn [app length].
  change (quote_units (str "groupId")) with (str "groupId").
  rewrite length_app. cbn [length str map list_ascii_of_string]. lia.
Qed.

Lemma JSON_parse_invite (groupId groupName k : jsstring) :
  is_bytes groupId -> is_bytes groupName -> is_bytes k ->
  JSON_parse (JSON_stringify (invite_payload groupId groupName (exported_key_jwk k)))
  = Ok (invite_payload groupId groupName (exported_key_jwk k)).
Proof.
  intros Hid Hname Hk. unfold JSON_parse.
  by rewrite (parse_value_fuel 20 _ _ _ (invite_text_length _ _ _)
                (parse_invite_payload _ _ _ Hid Hname Hk)).
Qed.

Lemma importSymmetricKey_exported (random : list N) :
  is_bytes random -> length random = 32%nat ->
  importSymmetricKey (exported_key_jwk (base64url_encode random))
  = Ok (generateSymmetricKey random).
Proof.
  intros Hbytes Hlen. unfold importSymmetricKey, importKey_jwk_AES.
  set (jwk := exported_key_jwk (base64url_encode random)).
  change (has_usage deriveKey_usage [encrypt_usage; decrypt_usage]) with false. cbv iota.
  change (check_dictionary jwk) with (Ok tt).
  change (string_member jwk "kty") with (Ok (Some (str "oct"))).
  change (string_member jwk "k") with (Ok (Some (base64url_encode random))).
  change (string_member jwk "alg") with (Ok (Some (str "A256GCM"))).
  change (string_member jwk "use") with (Ok (@None jsstring)).
  change (check_key_ops_ext jwk true [encrypt_usage; decrypt_usage]) with (Ok tt).
  cbn [mbind result_bind option_bind].
  change (negb (bool_decide (Some (str "oct") = Some (str "oct")))) with false. cbv iota.
  rewrite base64url_decode_encode by done. rewrite Hlen. reflexivity.
Qed.

(** The invite code of a group whose id and name are within Latin-1, and
    whose key was exported from 32 bytes, is accepted by [joinGroup] where
    the group is not known yet: the group joined has the id, the name and
    the key of the group of the code. *)
Lemma invite_round_trip (guest : User.t) (chats : gmap jsstring Chat.t) (groupId : jsstring)
    (chat : Chat.t) (random : list N) (s : ChatView.t) :
  chats !! groupId = Some chat ->
  Chat.type chat = group ->
  Chat.groupKeyJwk chat = Some (exported_key_jwk (base64url_encode random)) ->
  is_bytes random -> length random = 32%nat ->
  is_bytes (Chat.id chat) -> is_bytes (Chat.name chat) ->
  ChatView.chats s !! Chat.id chat = None ->
  exists (code : jsstring) (s' : ChatView.t) (calls : list DbCall) (joined : Chat.t),
    generateGroupInviteCode chats groupId = Ok code
    /\ joinGroup guest code s = JoinedGroup s' calls
    /\ ChatView.chats s' !! Chat.id chat = Some joined
    /\ ChatView.activeChatId s' = Some (Chat.id chat)
    /\ calls = [SaveChat joined]
    /\ Chat.id joined = Chat.id chat
    /\ Chat.name joined = Chat.name chat
    /\ Chat.type joined = group
    /\ Chat.groupKey joined = Some (generateSymmetricKey random)
    /\ Chat.groupKeyJwk joined = Chat.groupKeyJwk chat.
Proof.
  intros Hchat Htype Hjwk Hbytes Hlen Hid Hname Hnew.
  set (k := base64url_encode random) in *.
  assert (is_bytes k) as Hk by apply base64url_encode_is_bytes.
  set (payload := invite_payload (Chat.id chat) (Chat.name chat) (exported_key_jwk k)).
  pose proof (invite_text_is_bytes _ _ _ Hid Hname Hk) as Htext. fold payload in Htext.
  exists (base64_encode base64_alphabet true (JSON_stringify payload)).
  eexists. eexists. eexists.
  split.
  { unfold generateGroupInviteCode. rewrite Hchat, Htype, Hjwk.
    change (truthy (exported_key_jwk k)) with true. cbv iota.
    fold (invite_payload (Chat.id chat) (Chat.name chat) (exported_key_jwk k)). fold payload.
    by apply btoa_bytes. }
  split.
  { unfold joinGroup. rewrite atob_base64_encode by done.
    change (Ok (JSON_stringify payload) ≫= JSON_parse) with (JSON_parse (JSON_stringify payload)).
    unfold payload at 1. rewrite JSON_parse_invite by done.
    change (member (invite_payload ?i ?n ?key) (str "groupId")) with (Some (JString i)).
    change (member (invite_payload ?i ?n ?key) (str "groupName")) with (Some (JString n)).
    change (member (invite_payload ?i ?n ?key) (str "key")) with (Some key).
    cbv iota beta. rewrite Hnew.
    rewrite bool_decide_eq_false_2 by (intros [? [=]]).
    cbn [default from_option]. unfold id, k. rewrite importSymmetricKey_exported by done.
    reflexivity. }
  split; [apply lookup_insert_eq|].
  repeat split. cbn. by rewrite Hjwk.
Qed.

(** The name "Ωmega", whose first letter is U+03A9. *)
Definition wide_name : jsstring := 0x3A9 :: str "mega".

Definition group_of (name : jsstring) : ChatView.t :=
  match createGroup me name (str "a") (N.of_nat <$> seq 1 32) ChatView.initial with
  | Ok r => r.1
  | Throw _ => ChatView.initial
  end.

Definition guest : User.t := User.mk (str "guest") (str "Guest") placeholder_keys false.

(** The group "Café", as [createGroup] makes it. *)
Definition cafe_group : Chat.t :=
  Chat.mk (str "group-a") (str "Caf" ++ [0xE9]) group [] 0
    [ChatMember.mk (User.id me) (User.name me)]
    (Some sample_key)
    (Some (exported_key_jwk (base64url_encode (N.of_nat <$> seq 1 32)))).

Example invite_round_trip_latin1 :
  ChatView.chats (group_of (str "Caf" ++ [0xE9])) !! str "group-a" = Some cafe_group
  /\ exists (code : jsstring) (s : ChatView.t) (calls : list DbCall) (chat : Chat.t),
       generateGroupInviteCode (ChatView.chats (group_of (str "Caf" ++ [0xE9]))) (str "group-a")
       = Ok code
       /\ joinGroup guest code ChatView.initial = JoinedGroup s calls
       /\ ChatView.chats s !! str "group-a" = Some chat
       /\ Chat.id chat = str "group-a"
       /\ Chat.name chat = str "Caf" ++ [0xE9]
       /\ Chat.groupKey chat = Some sample_key.
Proof.
  split; [vm_compute; reflexivity|].
  destruct (invite_round_trip guest (ChatView.chats (group_of (str "Caf" ++ [0xE9])))
              (str "group-a") cafe_group (N.of_nat <$> seq 1 32) ChatView.initial)
    as (code & s & calls & chat & Hcode & Hjoin & Hchat & _ & _ & Hid & Hname & _ & Hkey & _).
  - vm_compute; reflexivity.
  - reflexivity.
  - reflexivity.
  - by apply is_bytes_check.
  - reflexivity.
  - by apply is_bytes_check.
  - by apply is_bytes_check.
  - reflexivity.
  - by exists code, s, calls, chat.
Qed.

(** C7 (where it fails): [btoa] takes code units up to 0xFF only, and the name
    of the group is part of what it is given. For a group whose name starts with U+03A9,
    created with a key as [createGroup] does, [generateGroupInviteCode] is
    rejected with an [InvalidCharacterError], and there is no code to hand to
    [joinGroup]. *)
Theorem invite_code_of_wide_name :
  exists chat : Chat.t,
    ChatView.chats (group_of wide_name) !! str "group-a" = Some chat
    /\ Chat.type chat = group
    /\ Chat.name chat = wide_name
    /\ Chat.groupKey chat = Some sample_key
    /\ (exists jwk, Chat.groupKeyJwk chat = Some jwk /\ importSymmetricKey jwk = Ok sample_key)
    /\ generateGroupInviteCode (ChatView.chats (group_of wide_name)) (str "group-a")
       = Throw InvalidCharacterError.
Proof.
  eexists.
  split; [vm_compute; reflexivity|].
  split; [vm_compute; reflexivity|].
  split; [vm_compute; reflexivity|].
  split; [vm_compute; reflexivity|].
  split; [eexists; split; [vm_compute; reflexivity|vm_compute; reflexivity]|].
  vm_compute; reflexivity.
Qed.

(** * The handshake *)

Lemma base64_encode_cons (alphabet : jsstring) (b : N) (bytes : list N) :
  base64_encode alphabet true (b :: bytes) <> [].
Proof. destruct bytes as [|b2 [|b3 rest]]; discriminate. Qed.

Lemma btoa_object (members : list (jsstring * JSON)) (code : jsstring) :
  btoa (JSON_stringify (JObject members)) = Ok code -> code <> [].
Proof.
  change (JSON_stringify (JObject members))
    with (123 :: join_comma (map (fun kv => match kv with
                                            | (k, x) => QuoteJSONString k ++ [58] ++ JSON_stringify x
                                            end) members) ++ [125]).
  unfold btoa. destruct (forallb _ _); [|discriminate].
  intros [= <-]. apply base64_encode_cons.
Qed.

Section HandshakeFacts.
Context {curve : NamedCurve} {engine : RTCEngine}.
Variable user : User.t.

Lemma code_when_gathered_cons (c : RTCPeerConnection.t) (code : jsstring) :
  code_when_gathered user c = Fulfilled code -> code <> [].
Proof.
  unfold code_when_gathered. destruct (gathered c) as [d|]; [|discriminate].
  destruct (btoa _) as [code'|] eqn:Hcode; [|discriminate].
  intros [= <-]. by apply btoa_object in Hcode.
Qed.

(** The code [handleOffer] resolves with is not the empty string. *)
Lemma handleOffer_code (peers peers' : list Peer.t) (offerCode code : jsstring) :
  handleOffer user peers offerCode = (Fulfilled (Some code), peers') -> code <> [].
Proof.
  unfold handleOffer. destruct (decode_code offerCode) as [e|sdp|sdp sender|]; try discriminate.
  destruct (existsb _ peers); [discriminate|].
  destruct (_ ≫= _) as [[c2 sharedSecret]|]; [|discriminate].
  destruct (code_when_gathered user c2) eqn:Hcode; try discriminate.
  intros [= <- _]. by apply code_when_gathered_cons in Hcode.
Qed.

Lemma relay_code_cons (code : jsstring) : code <> [] -> relay_code (Some code) = Some code.
Proof. by destruct code. Qed.

Lemma find_update_first (which : Peer.t -> bool) (f : Peer.t -> Peer.t) (peers : list Peer.t)
    (p : Peer.t) :
  find which peers = Some p -> f p ∈ update_first which f peers.
Proof.
  induction peers as [|q rest IH]; [discriminate|]. cbn.
  destruct (which q).
  - intros [= ->]. apply list_elem_of_here.
  - intros H. apply list_elem_of_further. by apply IH.
Qed.

(** A rejection of [handleOffer] leaves the peers as they were. *)
Lemma handleOffer_Rejected (peers peers' : list Peer.t) (offerCode : jsstring) (e : JSError) :
  handleOffer user peers offerCode = (Rejected e, peers') -> peers' = peers.
Proof.
  unfold handleOffer. destruct (decode_code offerCode) as [e'|sdp|sdp sender|];
    try (by intros [= _ <-]); try discriminate.
  destruct (existsb _ peers); [discriminate|].
  destruct (_ ≫= _) as [[c2 sharedSecret]|]; [|by intros [= _ <-]].
  unfold code_when_gathered. destruct (gathered c2); [|discriminate].
  destruct (btoa _); discriminate.
Qed.

(** [handleOffer] resolves without a code only for a sender that is a peer
    already, and leaves the peers as they were. *)
Lemma handleOffer_without_code (peers peers' : list Peer.t) (offerCode : jsstring)
    (code : option jsstring) :
  handleOffer user peers offerCode = (Fulfilled code, peers') ->
  relay_code code = None -> code = None /\ peers' = peers.
Proof.
  intros Hoffer Hrelay. destruct code as [code|].
  - apply handleOffer_code in Hoffer. by destruct code.
  - split; [done|]. revert Hoffer. unfold handleOffer.
    destruct (decode_code offerCode) as [e'|sdp|sdp sender|]; try discriminate.
    destruct (existsb _ peers); [by intros [= <-]|].
    destruct (_ ≫= _) as [[c2 sharedSecret]|]; [|discriminate].
    unfold code_when_gathered. destruct (gathered c2); [|discriminate].
    destruct (btoa _); discriminate.
Qed.

(** How the [catch] block rejects. *)
Lemma handleAnswer_catch_Rejected (peers0 peers' : list Peer.t) (answerCode : jsstring)
    (e : JSError) :
  handleAnswer_catch user peers0 answerCode = (Rejected e, peers') ->
  peers' = peers0
  /\ (handleOffer user peers0 answerCode = (Rejected e, peers0)
      \/ (e = invalid_code_error
          /\ handleOffer user peers0 answerCode = (Fulfilled None, peers0))).
Proof.
  unfold handleAnswer_catch.
  destruct (handleOffer user peers0 answerCode) as [[offerCode|e'| |] peers1] eqn:Hoffer;
    try discriminate.
  - destruct (relay_code offerCode) eqn:Hrelay; [discriminate|].
    intros [= <- <-].
    destruct (handleOffer_without_code _ _ _ _ Hoffer Hrelay) as [-> ->].
    split; [done|]. by right.
  - intros [= <- <-]. pose proof (handleOffer_Rejected _ _ _ _ Hoffer) as ->.
    split; [done|]. by left.
Qed.

(** [handleOffer] is rejected, or resolves without a code, when no key is
    derived from the public key of the sender. *)
Lemma handleOffer_without_key (peers : list Peer.t) (offerCode : jsstring)
    (sdp : option JSON) (sender : Sender.t) (e0 : JSError) :
  decode_code offerCode = FromSender sdp sender ->
  deriveSharedSecret (CryptoKeys.privateKey (User.keys user)) (Sender.publicKey sender)
    = Throw e0 ->
  (exists e, handleOffer user peers offerCode = (Rejected e, peers))
  \/ handleOffer user peers offerCode = (Fulfilled None, peers).
Proof.
  intros Hdecode Hderive. unfold handleOffer. rewrite Hdecode.
  destruct (existsb _ peers); [by right|]. left. rewrite Hderive.
  destruct (setRemoteDescription _ sdp) as [c1|e1]; [|by eexists].
  cbn [mbind result_bind].
  destruct (createAnswer_description c1) as [answer|e2]; [|by eexists].
  cbn [mbind result_bind].
  destruct (setLocalDescription c1 answer) as [c2|e3]; [|by eexists].
  by eexists.
Qed.

(** C6, as the code has it. For a code that decodes to a payload with a
    sender:
    - with a peer awaiting an answer whose connection takes the description,
      and a key derived from the public key of the sender, the call resolves
      and that peer has now the id and the name of the sender, the
      connection and the key; its temporary id is gone;
    - with no peer awaiting an answer, a code that [handleOffer] resolves
      with is what the call resolves with, and when the sender is a peer
      already, the call resolves as well, with nothing, and the peers are as
      they were;
    - with a peer awaiting an answer whose connection refuses the
      description, and a sender that is a peer already, the call is
      rejected with [Invalid answer/offer code.];
    - with a peer awaiting an answer whose connection takes the description,
      and a public key from which no key is derived, the call is rejected,
      and the connection keeps the description it took;
    - when the call is rejected, the peers are as they were, but for the
      connection that took the description before the sender or its key
      failed; and the error is the one [handleOffer] rejects the same code
      with, on these peers, or it is [Invalid answer/offer code.] and
      [handleOffer] resolves without a code. *)
Theorem handleAnswer_outcomes (peers : list Peer.t) (answerCode : jsstring) :
  (forall pendingPeer sdp sender c sharedSecret,
      decode_code answerCode = FromSender sdp sender ->
      find awaiting_answer peers = Some pendingPeer ->
      setRemoteDescription (Peer.connection pendingPeer) sdp = Ok c ->
      deriveSharedSecret (CryptoKeys.privateKey (User.keys user)) (Sender.publicKey sender)
        = Ok sharedSecret ->
      exists peers',
        handleAnswer user peers answerCode = (Fulfilled None, peers')
        /\ (exists p, p ∈ peers'
                      /\ Peer.id p = Sender.id sender
                      /\ Peer.name p = Sender.name sender
                      /\ Peer.connection p = c
                      /\ Peer.sharedSecret p = Some sharedSecret)
        /\ (Sender.id sender <> Peer.id pendingPeer ->
            forall p, p ∈ peers' -> Peer.id p <> Peer.id pendingPeer))
  /\ (forall code peers',
        find awaiting_answer peers = None ->
        handleOffer user peers answerCode = (Fulfilled (Some code), peers') ->
        handleAnswer user peers answerCode = (Fulfilled (Some code), peers'))
  /\ (forall sdp sender,
        decode_code answerCode = FromSender sdp sender ->
        find awaiting_answer peers = None ->
        existsb (fun p => jseq (Peer.id p) (Sender.id sender)) peers = true ->
        handleAnswer user peers answerCode = (Fulfilled None, peers))
  /\ (forall pendingPeer sdp sender e,
        decode_code answerCode = FromSender sdp sender ->
        find awaiting_answer peers = Some pendingPeer ->
        setRemoteDescription (Peer.connection pendingPeer) sdp = Throw e ->
        existsb (fun p => jseq (Peer.id p) (Sender.id sender)) peers = true ->
        handleAnswer user peers answerCode = (Rejected invalid_code_error, peers))
  /\ (forall pendingPeer sdp sender c e0,
        decode_code answerCode = FromSender sdp sender ->
        find awaiting_answer peers = Some pendingPeer ->
        setRemoteDescription (Peer.connection pendingPeer) sdp = Ok c ->
        deriveSharedSecret (CryptoKeys.privateKey (User.keys user)) (Sender.publicKey sender)
          = Throw e0 ->
        exists e,
          handleAnswer user peers answerCode
          = (Rejected e, update_first awaiting_answer (set_connection c) peers)
          /\ set_connection c pendingPeer
               ∈ update_first awaiting_answer (set_connection c) peers)
  /\ (forall e peers',
        handleAnswer user peers answerCode = (Rejected e, peers') ->
        (peers' = peers
         \/ exists pendingPeer sdp c,
              find awaiting_answer peers = Some pendingPeer
              /\ setRemoteDescription (Peer.connection pendingPeer) sdp = Ok c
              /\ (decode_code answerCode = NoSender sdp
                  \/ exists sender e0,
                       decode_code answerCode = FromSender sdp sender
                       /\ deriveSharedSecret (CryptoKeys.privateKey (User.keys user))
                            (Sender.publicKey sender) = Throw e0)
              /\ peers' = update_first awaiting_answer (set_connection c) peers)
        /\ (handleOffer user peers' answerCode = (Rejected e, peers')
            \/ (e = invalid_code_error
                /\ handleOffer user peers' answerCode = (Fulfilled None, peers')))).
Proof.
  split; [|split; [|split; [|split; [|split]]]].
  - intros pendingPeer sdp sender c sharedSecret Hdecode Hfind Hset Hderive.
    unfold handleAnswer. rewrite Hdecode, Hfind, Hset, Hderive.
    eexists. split; [reflexivity|]. split.
    + exists (answered_peer sender sharedSecret (set_connection c pendingPeer)).
      split; [|done].
      apply list_elem_of_filter. split; [by right|].
      apply (find_update_first _ (set_connection c)) in Hfind.
      apply (list_elem_of_fmap_2 (fun p => if jseq (Peer.id p) (Peer.id pendingPeer)
                                      then answered_peer sender sharedSecret p else p)) in Hfind.
      cbn [set_connection Peer.id] in Hfind. unfold jseq in Hfind at 1.
      by rewrite bool_decide_eq_true_2 in Hfind.
    + intros Hne p [[Hp|Hp] _]%list_elem_of_filter; [done|]. by rewrite Hp.
  - intros code peers' Hfind Hoffer. unfold handleAnswer.
    pose proof Hoffer as Hcode%handleOffer_code.
    unfold handleOffer in Hoffer.
    destruct (decode_code answerCode) as [e|sdp|sdp sender|] eqn:Hdecode; try discriminate.
    rewrite Hfind. unfold handleOffer. rewrite Hdecode.
    destruct (existsb _ peers); [discriminate|].
    destruct (_ ≫= _) as [[c2 sharedSecret]|]; [|discriminate].
    destruct (code_when_gathered user c2); try discriminate.
    injection Hoffer as -> <-. by rewrite relay_code_cons.
  - intros sdp sender Hdecode Hfind Hknown. unfold handleAnswer.
    rewrite Hdecode, Hfind. unfold handleOffer. by rewrite Hdecode, Hknown.
  - intros pendingPeer sdp sender e Hdecode Hfind Hset Hknown. unfold handleAnswer.
    rewrite Hdecode, Hfind, Hset. unfold handleAnswer_catch, handleOffer.
    by rewrite Hdecode, Hknown.
  - intros pendingPeer sdp sender c e0 Hdecode Hfind Hset Hderive.
    unfold handleAnswer. rewrite Hdecode, Hfind, Hset, Hderive.
    set (peers1 := update_first awaiting_answer (set_connection c) peers).
    assert (exists e, handleAnswer_catch user peers1 answerCode = (Rejected e, peers1))
      as [e He].
    { unfold handleAnswer_catch.
      destruct (handleOffer_without_key peers1 answerCode sdp sender e0 Hdecode Hderive)
        as [[e ->]| ->]; by eexists. }
    exists e. split; [exact He|]. by apply find_update_first.
  - intros e peers' Hrejected.
    assert (forall peers0,
               handleAnswer_catch user peers0 answerCode = (Rejected e, peers') ->
               peers' = peers0
               /\ (handleOffer user peers' answerCode = (Rejected e, peers')
                   \/ (e = invalid_code_error
                       /\ handleOffer user peers' answerCode = (Fulfilled None, peers'))))
      as Hcatch.
    { intros peers0 H. destruct (handleAnswer_catch_Rejected _ _ _ _ H) as [-> Hoffer].
      by split. }
    revert Hrejected. unfold handleAnswer.
    destruct (decode_code answerCode) as [e'|sdp|sdp sender|] eqn:Hdecode.
    + intros H. destruct (Hcatch _ H) as [-> Hoffer]. split; [by left|done].
    + destruct (find awaiting_answer peers) as [pendingPeer|] eqn:Hfind.
      * destruct (setRemoteDescription _ _) as [c|e1] eqn:Hset; intros H;
          destruct (Hcatch _ H) as [-> Hoffer]; (split; [|done]); [|by left].
        right. exists pendingPeer, sdp, c. repeat split; try done. by left.
      * destruct (handleOffer user peers answerCode) as [[offerCode|e''| |] peers1] eqn:Hoffer;
          try discriminate.
        pose proof (handleOffer_Rejected _ _ _ _ Hoffer) as ->.
        intros H. destruct (Hcatch _ H) as [-> Hoffer']. split; [by left|done].
    + destruct (find awaiting_answer peers) as [pendingPeer|] eqn:Hfind.
      * destruct (setRemoteDescription _ _) as [c|e1] eqn:Hset.
        -- destruct (deriveSharedSecret _ _) as [sharedSecret|e0] eqn:Hderive; [discriminate|].
           intros H. destruct (Hcatch _ H) as [-> Hoffer]. split; [|done].
           right. exists pendingPeer, sdp, c. repeat split; try done.
           right. by exists sender, e0.
        -- intros H. destruct (Hcatch _ H) as [-> Hoffer]. split; [by left|done].
      * destruct (handleOffer user peers answerCode) as [[offerCode|e''| |] peers1] eqn:Hoffer;
          try discriminate.
        pose proof (handleOffer_Rejected _ _ _ _ Hoffer) as ->.
        intros H. destruct (Hcatch _ H) as [-> Hoffer']. split; [by left|done].
    + discriminate.
Qed.
End HandshakeFacts.

(** An engine that follows the offer/answer state machine of a connection,
    and whose candidate gathering completes at once. *)
Definition description (type : string) : JSON :=
  JObject [(str "type", JString (str type)); (str "sdp", JString (str "v=0"))].

Definition description_type (d : option JSON) : option jsstring :=
  d ≫= fun v => match member v (str "type") with
                | Some (JString t) => Some t
                | _ => None
                end.

Definition signalling_engine : RTCEngine := {|
  setRemoteDescription := fun c d =>
    match description_type d, RTCPeerConnection.signalingState c with
    | None, _ => Throw TypeError
    | Some t, stable =>
        if jseq t (str "offer")
        then Ok (RTCPeerConnection.mk have_remote_offer (RTCPeerConnection.localDescription c) d)
        else Throw InvalidStateError
    | Some t, have_local_offer =>
        if jseq t (str "answer")
        then Ok (RTCPeerConnection.mk stable (RTCPeerConnection.localDescription c) d)
        else Throw InvalidStateError
    | Some _, _ => Throw InvalidStateError
    end;
  createOffer_description := fun c =>
    if bool_decide (RTCPeerConnection.signalingState c = stable)
    then Ok (description "offer") else Throw InvalidStateError;
  createAnswer_description := fun c =>
    if bool_decide (RTCPeerConnection.signalingState c = have_remote_offer)
    then Ok (description "answer") else Throw InvalidStateError;
  setLocalDescription := fun c d =>
    match description_type (Some d), RTCPeerConnection.signalingState c with
    | None, _ => Throw TypeError
    | Some t, stable =>
        if jseq t (str "offer")
        then Ok (RTCPeerConnection.mk have_local_offer (Some d)
                   (RTCPeerConnection.remoteDescription c))
        else Throw InvalidStateError
    | Some t, have_remote_offer =>
        if jseq t (str "answer")
        then Ok (RTCPeerConnection.mk stable (Some d) (RTCPeerConnection.remoteDescription c))
        else Throw InvalidStateError
    | Some _, _ => Throw InvalidStateError
    end;
  gathered := RTCPeerConnection.localDescription
|}.

(** Two users with key pairs on [Z7]. *)
Definition user_of (name : string) (d : N) : User.t :=
  match @generateUser Z7 (str name) d with
  | Ok u => u
  | Throw _ => User.mk [] [] placeholder_keys false
  end.

Definition alice : User.t := Eval vm_compute in user_of "Alice" 3.
Definition bob : User.t := Eval vm_compute in user_of "Bob" 5.

Definition code_of (r : Settled jsstring * list Peer.t) : jsstring :=
  match r.1 with Fulfilled code => code | _ => [] end.

Definition code_of_option (r : Settled (option jsstring) * list Peer.t) : jsstring :=
  match r.1 with Fulfilled (Some code) => code | _ => [] end.

(** Alice invites, Bob accepts, Alice completes. *)
Definition alice_invites : Settled jsstring * list Peer.t :=
  @createOffer signalling_engine alice (str "temp") [].

Definition bob_accepts : Settled (option jsstring) * list Peer.t :=
  @handleOffer Z7 signalling_engine bob [] (code_of alice_invites).

Definition alice_completes : Settled (option jsstring) * list Peer.t :=
  @handleAnswer Z7 signalling_engine alice alice_invites.2 (code_of_option bob_accepts).

Definition alice_pending : Peer.t :=
  set_connection (RTCPeerConnection.mk have_local_offer (Some (description "offer")) None)
    (createPeerConnection (str "temp")).

Definition bob_as_sender : Sender.t :=
  Sender.mk (User.id bob) (User.name bob) (CryptoKeys.publicKey (User.keys bob)).

Definition answered_connection : RTCPeerConnection.t :=
  RTCPeerConnection.mk stable (Some (description "offer")) (Some (description "answer")).

(** Three times five is one modulo seven. *)
Definition shared_key : CryptoKey.t :=
  CryptoKey.mk 256 true [encrypt_usage; decrypt_usage] (1 :: repeat 0 31).

Lemma handleAnswer_outcomes_witness :
  exists peers' : list Peer.t,
    @handleAnswer Z7 signalling_engine alice alice_invites.2 (code_of_option bob_accepts)
    = (Fulfilled None, peers')
    /\ exists p : Peer.t,
         p ∈ peers'
         /\ Peer.id p = User.id bob
         /\ Peer.name p = str "Bob"
         /\ Peer.connection p = answered_connection
         /\ Peer.sharedSecret p = Some shared_key.
Proof.
  destruct (@handleAnswer_outcomes Z7 signalling_engine alice alice_invites.2
              (code_of_option bob_accepts)) as [Hanswer _].
  destruct (Hanswer alice_pending (Some (description "answer")) bob_as_sender
              answered_connection shared_key) as (peers' & Heq & Hp & _).
  - vm_compute; reflexivity.
  - vm_compute; reflexivity.
  - vm_compute; reflexivity.
  - vm_compute; reflexivity.
  - exists peers'. split; [exact Heq|exact Hp].
Defined.

(** After the three steps each side has one peer, the other user, and both
    hold the same key. *)
Example handshake_scenario :
  alice_completes.1 = Fulfilled None
  /\ Peer.id <$> alice_completes.2 = [User.id bob]
  /\ Peer.id <$> bob_accepts.2 = [User.id alice]
  /\ Peer.sharedSecret <$> alice_completes.2 = [Some shared_key]
  /\ Peer.sharedSecret <$> bob_accepts.2 = [Some shared_key].
Proof. repeat split; vm_compute; reflexivity. Qed.

(** Bob is handed the invite of Alice a second time, when Alice is a peer of
    his already: no peer of Bob awaits an answer, [handleOffer] resolves
    without an answer code, and [handleAnswer] resolves: the code was taken
    neither as an answer nor as an invite, and the call did not fail. *)
Lemma invite_of_known_sender_resolves :
  find awaiting_answer bob_accepts.2 = None
  /\ @handleOffer Z7 signalling_engine bob bob_accepts.2 (code_of alice_invites)
     = (Fulfilled None, bob_accepts.2)
  /\ @handleAnswer Z7 signalling_engine bob bob_accepts.2 (code_of alice_invites)
     = (Fulfilled None, bob_accepts.2).
Proof. repeat split; vm_compute; reflexivity. Qed.

(** Alice is handed an answer whose sender carries no public key: the
    connection that awaited the answer takes the description, no key is
    derived, and the call is rejected; the peer keeps its temporary id and
    has no key, and its connection is no longer awaiting an answer. *)
Definition keyless_answer : jsstring :=
  match btoa (JSON_stringify
                (JObject [(str "sdp", description "answer");
                          (str "sender", JObject [(str "id", JString (str "b0b"));
                                                  (str "name", JString (str "Bob"))])])) with
  | Ok code => code
  | Throw _ => []
  end.

Example answer_applied_then_rejected :
  find awaiting_answer alice_invites.2 = Some alice_pending
  /\ @handleAnswer Z7 signalling_engine alice alice_invites.2 keyless_answer
     = (Rejected InvalidStateError, [set_connection answered_connection alice_pending])
  /\ find awaiting_answer [set_connection answered_connection alice_pending] = None.
Proof. repeat split; vm_compute; reflexivity. Qed.

(** A text that is not base64 is rejected with the error of [atob]. *)
Example undecodable_code_rejected :
  @handleAnswer Z7 signalling_engine alice [] (str "%") = (Rejected InvalidCharacterError, []).
Proof. vm_compute; reflexivity. Qed.

(** * Unread counts and the conversation in focus *)

(** Alice creates an invite while no conversation is open: the channel of
    the pending peer, of temporary id "temp", is given its handler then. *)
Definition alice_handler : ChannelHandler.t :=
  setupDataChannelEvents_onmessage (str "temp") ChatView.initial.

(** She opens the conversation of the pending peer, which the list shows. *)
Definition alice_opens : ChatView.t :=
  (then_clearUnread (selectChat alice alice_invites.2 (str "temp") ChatView.initial)).1.

(** A message of Bob to Alice. *)
Definition message_of_bob : TextMessage.t :=
  TextMessage.mk 1000 (str "m1") (User.id bob) (User.id alice) (str "AAAA") (str "AAAA").

(** After the handshake is completed, the message arrives on the channel. *)
Definition alice_receives : list Peer.t * ChatView.t * list DbCall :=
  dataChannel_onmessage alice_handler (JSON_stringify (TextMessage_to_JSON message_of_bob))
    alice_completes.2 alice_opens.

(** C8 (where it fails): the handler of a data channel compares the target
    conversation with the [activeChatId] of the render that set the channel
    up. The channel of Alice's invite was set up when no conversation was
    open; she then opened the conversation "temp"; a message that arrives on
    the channel is filed under "temp" and counted as unread, although "temp"
    is the conversation in focus. The [handleNewMessage] of the current
    render would not have counted it, and the effect that clears the count
    does not run, [activeChatId] being the same before and after. *)
Theorem focused_chat_counts_unread :
  ChannelHandler.activeChatId alice_handler = None
  /\ (exists opened : Chat.t,
        ChatView.chats alice_opens !! str "temp" = Some opened
        /\ Chat.unreadCount opened = 0
        /\ Chat.messages opened = [])
  /\ ChatView.activeChatId alice_opens = Some (str "temp")
  /\ ChatView.activeChatId alice_receives.1.2 = Some (str "temp")
  /\ (exists chat : Chat.t,
        ChatView.chats alice_receives.1.2 !! str "temp" = Some chat
        /\ Chat.messages chat = [message_of_bob]
        /\ Chat.unreadCount chat = 1)
  /\ alice_receives.2 = [SaveMessage message_of_bob (str "temp")]
  /\ (exists chat : Chat.t,
        (handleNewMessage (ChatView.activeChatId alice_opens) (str "temp")
           (Text message_of_bob) (ChatView.chats alice_opens)).1 !! str "temp"
        = Some chat
        /\ Chat.messages chat = [message_of_bob]
        /\ Chat.unreadCount chat = 0).
Proof.
  split; [reflexivity|].
  split; [eexists; split; [vm_compute; reflexivity|split; reflexivity]|].
  split; [vm_compute; reflexivity|].
  split; [vm_compute; reflexivity|].
  split; [eexists; split; [vm_compute; reflexivity|split; reflexivity]|].
  split; [vm_compute; reflexivity|].
  eexists; split; [vm_compute; reflexivity|split; reflexivity].
Qed.

(** * Further properties *)

(** ** services/cryptoService.ts *)

(** X1: an extractable AES-GCM key with the usages [encrypt] and [decrypt], as
    [generateSymmetricKey] and [deriveSharedSecret] make them, is imported
    again from the JSON Web Key it is exported to; a key that is not
    extractable is not exported. *)
Theorem symmetric_key_export_import (key : CryptoKey.t) :
  is_aes_key (CryptoKey.raw key) ->
  CryptoKey.length key = 8 * N.of_nat (length (CryptoKey.raw key)) ->
  CryptoKey.usages key = [encrypt_usage; decrypt_usage] ->
  (CryptoKey.extractable key = true ->
   exists jwk : JsonWebKey,
     exportSymmetricKey key = Ok jwk /\ importSymmetricKey jwk = Ok key)
  /\ (CryptoKey.extractable key = false ->
      exportSymmetricKey key = Throw InvalidAccessError).
Proof.
  destruct key as [bits extractable usages raw]. cbn [CryptoKey.raw CryptoKey.length
    CryptoKey.usages CryptoKey.extractable].
  intros [Hbytes Hlen] -> ->. split; intros ->; [|done].
  eexists. split; [reflexivity|].
  unfold importSymmetricKey, importKey_jwk_AES.
  match goal with |- context [string_member ?j "kty"] => set (jwk := j) end.
  change (has_usage deriveKey_usage [encrypt_usage; decrypt_usage]) with false. cbv iota.
  change (check_dictionary jwk) with (Ok tt).
  change (string_member jwk "kty") with (Ok (Some (str "oct"))).
  change (string_member jwk "k") with (Ok (Some (base64url_encode raw))).
  change (string_member jwk "alg")
    with (Ok (Some (aes_alg_name (8 * N.of_nat (length raw))))).
  change (string_member jwk "use") with (Ok (@None jsstring)).
  change (check_key_ops_ext jwk true [encrypt_usage; decrypt_usage]) with (Ok tt).
  cbn [mbind result_bind option_bind].
  change (negb (bool_decide (Some (str "oct") = Some (str "oct")))) with false. cbv iota.
  rewrite base64url_decode_encode by done.
  rewrite (bool_decide_eq_true_2 (_ \/ _)) by (by right).
  destruct Hlen as [Hl|[Hl|Hl]]; rewrite Hl; reflexivity.
Qed.

Lemma symmetric_key_export_import_witness :
  exists jwk : JsonWebKey,
    exportSymmetricKey sample_key = Ok jwk /\ importSymmetricKey jwk = Ok sample_key.
Proof.
  apply (symmetric_key_export_import sample_key).
  - split; [by apply is_bytes_check|right; right; reflexivity].
  - reflexivity.
  - reflexivity.
  - reflexivity.
Defined.

(** X2: for a content whose UTF-8 bytes and a tag of sixteen are no more than
    a call takes arguments, [encryptTextMessage] returns two base64 texts:
    the second decodes to the nonce, the first to the UTF-8 bytes of the
    content, encrypted, followed by the tag. *)
Theorem encryptTextMessage_output {js : JSEngine} (content : jsstring)
    (sharedSecret : CryptoKey.t) (iv : list N) :
  is_code_units content -> usable sharedSecret -> is_nonce iv ->
  spread_length content <= argument_limit ->
  exists (e : EncryptedText.t) (ciphertext : list N),
    encryptTextMessage content sharedSecret iv = Ok e
    /\ Uint8Array_from_charCodes <$> atob (EncryptedText.iv e) = Ok iv
    /\ Uint8Array_from_charCodes <$> atob (EncryptedText.encryptedContent e) = Ok ciphertext
    /\ is_bytes ciphertext
    /\ length ciphertext = (length (TextEncoder_encode content) + 16)%nat.
Proof.
  intros Hc Hkey Hiv Hfits. pose proof Hkey as (Hraw & _). pose proof Hiv as [Hivb _].
  rewrite encryptTextMessage_Ok by done.
  assert (is_bytes (GCM.encrypt (CryptoKey.raw sharedSecret) iv [] (TextEncoder_encode content)))
    as Hct by (apply GCM_encrypt_is_bytes; [done|by apply TextEncoder_encode_is_bytes]).
  eexists. eexists. split; [reflexivity|].
  cbn [EncryptedText.iv EncryptedText.encryptedContent].
  rewrite !atob_base64_encode by done. cbn [fmap result_fmap].
  rewrite !Uint8Array_from_charCodes_bytes by done.
  split; [done|]. split; [done|]. split; [done|].
  by apply GCM_encrypt_length.
Qed.

Section SampleOutput.
#[local] Existing Instance sample_engine.

Lemma encryptTextMessage_output_witness :
  exists (e : EncryptedText.t) (ciphertext : list N),
    encryptTextMessage (str "Hello") sample_key sample_nonce = Ok e
    /\ Uint8Array_from_charCodes <$> atob (EncryptedText.iv e) = Ok sample_nonce
    /\ Uint8Array_from_charCodes <$> atob (EncryptedText.encryptedContent e) = Ok ciphertext
    /\ is_bytes ciphertext
    /\ length ciphertext = (length (TextEncoder_encode (str "Hello")) + 16)%nat.
Proof.
  apply (encryptTextMessage_output (str "Hello") sample_key sample_nonce).
  - apply List.Forall_forall. intros c Hc.
    assert (forallb (fun c => c <? 65536) (str "Hello") = true) as H by reflexivity.
    rewrite forallb_forall in H. apply N.ltb_lt. by apply H.
  - exact sample_key_usable.
  - exact sample_nonce_is_nonce.
  - vm_compute. discriminate.
Defined.
End SampleOutput.

(** ** components/ChatView.tsx: the conversation map *)

Lemma receive_sorts_witness :
  exists chat1 : Chat.t,
    (handleNewMessage None (str "peer") (Text (sample_message "m2" 3))
       {[ str "peer" := sample_chat [sample_message "m1" 5] 0 ]}).1
      !! target_chat (str "peer") (sample_message "m2" 3) = Some chat1
    /\ Chat.messages chat1 ≡ₚ sample_message "m2" 3 :: [sample_message "m1" 5]
    /\ ascending (Chat.messages chat1).
Proof.
  apply (receive_sorts None (str "peer") (sample_message "m2" 3)
           {[ str "peer" := sample_chat [sample_message "m1" 5] 0 ]}
           (sample_chat [sample_message "m1" 5] 0)).
  - vm_compute. reflexivity.
  - intros (m & Hin & Hid). apply list_elem_of_singleton in Hin. subst m.
    vm_compute in Hid. discriminate.
Defined.

(** The ids of the messages of a conversation. *)
Definition message_ids (chat : Chat.t) : list jsstring :=
  TextMessage.id <$> Chat.messages chat.

(** X4: [handleNewMessage] neither adds nor removes a conversation, and where
    the ids of the messages of every conversation are distinct they stay
    so. *)
Theorem handleNewMessage_keeps_ids_distinct
    (activeChatId : option jsstring) (senderId : jsstring) (message : AppMessage)
    (chats : gmap jsstring Chat.t) :
  (forall k chat, chats !! k = Some chat -> NoDup (message_ids chat)) ->
  dom (handleNewMessage activeChatId senderId message chats).1 = dom chats
  /\ forall k chat,
       (handleNewMessage activeChatId senderId message chats).1 !! k = Some chat ->
       NoDup (message_ids chat).
Proof.
  intros Hdistinct. destruct message as [textMessage| | |]; try (split; [done|exact Hdistinct]).
  destruct (chats !! target_chat senderId textMessage) as [chat|] eqn:Hchat;
    [|rewrite handleNewMessage_no_chat by done; split; [done|exact Hdistinct]].
  destruct (has_id (TextMessage.id textMessage) (Chat.messages chat)) eqn:Hid;
    [rewrite (handleNewMessage_duplicate _ _ _ _ chat) by done; split; [done|exact Hdistinct]|].
  rewrite (handleNewMessage_fresh _ _ _ _ chat) by done. cbn [fst]. split.
  - rewrite dom_insert_L. apply elem_of_dom_2 in Hchat.
    by apply subseteq_union_1_L, singleton_subseteq_l.
  - intros k chat'. destruct (decide (k = target_chat senderId textMessage)) as [->|Hne].
    + rewrite lookup_insert_eq. intros [= <-]. unfold message_ids, received. cbn.
      rewrite (Array_sort_perm by_timestamp), fmap_app. cbn.
      apply NoDup_app. split; [by apply (Hdistinct _ _ Hchat)|]. split; [|apply NoDup_singleton].
      intros id Hin ->%list_elem_of_singleton.
      apply list_elem_of_fmap in Hin as (m & Heq & Hm).
      apply not_true_iff_false in Hid. apply Hid, has_id_spec. by exists m.
    + rewrite lookup_insert_ne by done. apply Hdistinct.
Qed.

Lemma handleNewMessage_keeps_ids_distinct_witness :
  dom (handleNewMessage None (str "peer") (Text (sample_message "m1" 3))
         {[ str "peer" := sample_chat [sample_message "m1" 5] 0 ]}).1
  = dom ({[ str "peer" := sample_chat [sample_message "m1" 5] 0 ]} : gmap jsstring Chat.t)
  /\ forall k chat,
       (handleNewMessage None (str "peer") (Text (sample_message "m1" 3))
          {[ str "peer" := sample_chat [sample_message "m1" 5] 0 ]}).1 !! k = Some chat ->
       NoDup (message_ids chat).
Proof.
  apply (handleNewMessage_keeps_ids_distinct None (str "peer") (Text (sample_message "m1" 3))
           {[ str "peer" := sample_chat [sample_message "m1" 5] 0 ]}).
  intros k chat [_ <-]%lookup_singleton_Some. apply NoDup_singleton.
Defined.

(** X5: [selectChat] makes the conversation the active one and never replaces or
    removes a conversation; selecting the same conversation again changes
    nothing more and saves nothing. *)
Theorem selectChat_again (user : User.t) (peers : list Peer.t) (peerOrChatId : jsstring)
    (s : ChatView.t) :
  ChatView.activeChatId (selectChat user peers peerOrChatId s).1 = Some peerOrChatId
  /\ (forall k chat,
        ChatView.chats s !! k = Some chat ->
        ChatView.chats (selectChat user peers peerOrChatId s).1 !! k = Some chat)
  /\ selectChat user peers peerOrChatId (selectChat user peers peerOrChatId s).1
     = ((selectChat user peers peerOrChatId s).1, []).
Proof.
  unfold selectChat.
  destruct (find _ peers) as [peer|] eqn:Hfind;
    [destruct (ChatView.chats s !! peerOrChatId) as [existing|] eqn:Hchat|].
  - cbn [fst ChatView.chats ChatView.activeChatId]. by rewrite Hchat.
  - cbn [fst ChatView.chats ChatView.activeChatId]. rewrite lookup_insert_eq.
    split; [done|]. split; [|done].
    intros k chat Hk. rewrite lookup_insert_ne; [done|]. intros <-. congruence.
  - done.
Qed.

(** ** components/ChatView.tsx: sending *)

(** The key [sendMessage] encrypts with: the secret shared with the peer of a
    direct conversation, the group key of a group. *)
Definition sending_key (peers : list Peer.t) (chat : Chat.t) : option CryptoKey.t :=
  match Chat.type chat with
  | dm => find (fun p => jseq (Peer.id p) (Chat.id chat)) peers ≫= Peer.sharedSecret
  | group => Chat.groupKey chat
  end.

Definition nothing_sent (s : ChatView.t) : Sent.t := Sent.mk (ChatView.chats s) [] None [].

Lemma sendMessage_with_key {js : JSEngine} (user : User.t) (peers : list Peer.t)
    (s : ChatView.t) (content uuid : jsstring) (now : Z) (iv : list N)
    (activeChatId : jsstring) (chat : Chat.t) (key : CryptoKey.t) :
  ChatView.activeChatId s = Some activeChatId -> activeChatId <> [] ->
  ChatView.chats s !! activeChatId = Some chat ->
  sending_key peers chat = Some key ->
  is_code_units content -> usable key -> is_nonce iv ->
  spread_length content <= argument_limit ->
  exists recipients : list jsstring,
    sendMessage user peers s content uuid now iv
    = Ok (let message :=
            TextMessage.mk now uuid (User.id user) (Chat.id chat)
              (base64_encode base64_alphabet true
                 (GCM.encrypt (CryptoKey.raw key) iv [] (TextEncoder_encode content)))
              (base64_encode base64_alphabet true iv) in
          Sent.mk
            (<[activeChatId := Chat.set_messages (Chat.messages chat ++ [message]) chat]>
               (ChatView.chats s))
            [SaveMessage message activeChatId] (Some message) recipients).
Proof.
  intros Hactive Hne Hchat Hkey Hcontent Husable Hiv Hfits.
  unfold sendMessage. rewrite Hactive. destruct activeChatId as [|c cs]; [done|].
  rewrite Hchat. unfold sending_key in Hkey.
  destruct (Chat.type chat).
  - destruct (find _ peers) as [peer|]; [|done]. cbn in Hkey. rewrite Hkey.
    rewrite encryptTextMessage_Ok by done. cbn [mbind result_bind].
    unfold sendMessage_updater. rewrite Hchat. eexists. reflexivity.
  - rewrite Hkey. rewrite encryptTextMessage_Ok by done. cbn [mbind result_bind].
    unfold sendMessage_updater. rewrite Hchat. eexists. reflexivity.
Qed.

(** X6: [sendMessage] in a conversation that has a key, of a content whose
    UTF-8 bytes and a tag of sixteen are no more than a call takes
    arguments: one message is appended to the active conversation, with the
    id, the sender, the conversation as recipient and the time given, and is
    saved under the conversation; no other conversation changes; and the
    message decrypts to the content under the key of the conversation when
    the content is well formed and does not start with U+FEFF. *)
Theorem sendMessage_appends {js : JSEngine} (user : User.t) (peers : list Peer.t)
    (s : ChatView.t) (content uuid : jsstring) (now : Z) (iv : list N)
    (activeChatId : jsstring) (chat : Chat.t) (key : CryptoKey.t) :
  ChatView.activeChatId s = Some activeChatId -> activeChatId <> [] ->
  ChatView.chats s !! activeChatId = Some chat ->
  sending_key peers chat = Some key ->
  isWellFormed content = true -> (forall rest, content <> 0xFEFF :: rest) ->
  usable key -> is_nonce iv ->
  spread_length content <= argument_limit ->
  exists (sent : Sent.t) (message : TextMessage.t),
    sendMessage user peers s content uuid now iv = Ok sent
    /\ Sent.message sent = Some message
    /\ Sent.calls sent = [SaveMessage message activeChatId]
    /\ Sent.chats sent !! activeChatId
       = Some (Chat.set_messages (Chat.messages chat ++ [message]) chat)
    /\ (forall other, other <> activeChatId ->
                      Sent.chats sent !! other = ChatView.chats s !! other)
    /\ TextMessage.id message = uuid
    /\ TextMessage.senderId message = User.id user
    /\ TextMessage.recipientId message = Chat.id chat
    /\ TextMessage.timestamp message = now
    /\ decryptTextMessage (TextMessage.encryptedContent message) (TextMessage.iv message) key
       = Ok content.
Proof.
  intros Hactive Hne Hchat Hkey Hwf Hbom Husable Hiv Hfits.
  pose proof (isWellFormed_code_units (length content) content (le_n _) Hwf) as Hunits.
  destruct (sendMessage_with_key user peers s content uuid now iv activeChatId chat key)
    as [recipients ->]; try done.
  eexists. eexists. split; [reflexivity|]. cbn.
  split; [done|]. split; [done|]. split; [apply lookup_insert_eq|].
  split; [by intros other Hother; rewrite lookup_insert_ne|].
  repeat split. by apply decryptTextMessage_encrypted.
Qed.

Definition peer_state : ChatView.t :=
  ChatView.mk {[ str "peer" := sample_chat [] 0 ]} (Some (str "peer")).

Section SampleAppends.
#[local] Existing Instance sample_engine.

Lemma sendMessage_appends_witness :
  exists (sent : Sent.t) (message : TextMessage.t),
    sendMessage me [sample_peer] peer_state (str "hi") (str "m2") 1000 sample_nonce = Ok sent
    /\ Sent.message sent = Some message
    /\ Sent.calls sent = [SaveMessage message (str "peer")]
    /\ TextMessage.id message = str "m2"
    /\ decryptTextMessage (TextMessage.encryptedContent message) (TextMessage.iv message)
         sample_key
       = Ok (str "hi").
Proof.
  destruct (sendMessage_appends me [sample_peer] peer_state (str "hi") (str "m2") 1000
              sample_nonce (str "peer") (sample_chat [] 0) sample_key)
    as (sent & message & Hsent & Hmessage & Hcalls & _ & _ & Hid & _ & _ & _ & Hdecrypt).
  - reflexivity.
  - discriminate.
  - vm_compute. reflexivity.
  - vm_compute. reflexivity.
  - reflexivity.
  - intros rest H. vm_compute in H. discriminate.
  - exact sample_key_usable.
  - exact sample_nonce_is_nonce.
  - vm_compute. discriminate.
  - exists sent, message. repeat split; assumption.
Defined.
End SampleAppends.

(** The conversation in focus, if there is one. *)
Definition active_chat (s : ChatView.t) : option Chat.t :=
  match ChatView.activeChatId s with
  | Some (c :: cs) => ChatView.chats s !! (c :: cs)
  | _ => None
  end.

(** X7: without a conversation in focus, or without a key for it (no peer of
    that id, no secret shared with the peer yet, a group without key),
    [sendMessage] changes no conversation, saves nothing and sends
    nothing. *)
Theorem sendMessage_without_key {js : JSEngine} (user : User.t) (peers : list Peer.t)
    (s : ChatView.t) (content uuid : jsstring) (now : Z) (iv : list N) :
  active_chat s ≫= sending_key peers = None ->
  sendMessage user peers s content uuid now iv = Ok (nothing_sent s).
Proof.
  unfold sendMessage, nothing_sent, active_chat.
  destruct (ChatView.activeChatId s) as [[|c cs]|]; [done| |done]. cbv zeta.
  intros Hkey.
  match goal with |- context [match ?l with Some _ => _ | None => _ end] =>
    destruct l as [chat|] eqn:Hchat end; [|done].
  setoid_rewrite Hchat in Hkey. cbn [mbind option_bind] in Hkey. unfold sending_key in Hkey.
  destruct (Chat.type chat).
  - destruct (find _ peers) as [peer|]; cbn [mbind option_bind result_bind] in *; [|done].
    by rewrite Hkey.
  - by rewrite Hkey.
Qed.

Section SampleWithoutKey.
#[local] Existing Instance sample_engine.

Lemma sendMessage_without_key_witness :
  sendMessage me [] peer_state (str "hi") (str "m2") 1000 sample_nonce
  = Ok (nothing_sent peer_state).
Proof.
  apply (sendMessage_without_key me [] peer_state (str "hi") (str "m2") 1000 sample_nonce).
  vm_compute. reflexivity.
Defined.
End SampleWithoutKey.

(** X8: whom [sendMessage] sends to: only peers whose data channel is open and
    whose status is connected; in a direct conversation only the peer of the
    conversation, in a group only members of the group, and never the user's
    own id. *)
Theorem sendMessage_recipients {js : JSEngine} (user : User.t) (peers : list Peer.t)
    (s : ChatView.t) (content uuid : jsstring) (now : Z) (iv : list N) (sent : Sent.t)
    (recipient : jsstring) :
  sendMessage user peers s content uuid now iv = Ok sent ->
  recipient ∈ Sent.recipients sent ->
  exists chat : Chat.t,
    active_chat s = Some chat
    /\ (exists p, p ∈ peers /\ Peer.id p = recipient /\ Peer.dataChannel p = channel_open)
    /\ (exists p, p ∈ peers /\ Peer.id p = recipient /\ Peer.status p = connected)
    /\ match Chat.type chat with
       | dm => recipient = Chat.id chat
       | group => recipient <> User.id user
                  /\ recipient ∈ (ChatMember.id <$> Chat.members chat)
       end.
Proof.
  unfold sendMessage, active_chat.
  destruct (ChatView.activeChatId s) as [[|c cs]|];
    [by intros [= <-] ?%elem_of_nil| |by intros [= <-] ?%elem_of_nil]. cbv zeta.
  match goal with |- context [match ?l with Some _ => _ | None => _ end] =>
    destruct l as [chat|] eqn:Hchat end; [|by intros [= <-] ?%elem_of_nil].
  match goal with |- context [?enc ≫= _] => destruct enc as [[[e recipientIds]|]|] eqn:He end;
    cbn [mbind result_bind]; [|by intros [= <-] ?%elem_of_nil|done].
  destruct (sendMessage_updater _ _ _) as [chats calls].
  intros [= <-]. cbn [Sent.recipients]. unfold broadcastMessage.
  intros (p & -> & [[Hin Hopen] Hp]%list_elem_of_filter)%list_elem_of_fmap.
  apply list_elem_of_filter in Hin as [Hconnected Hrecipient].
  exists chat. split; [exact Hchat|]. split; [by exists p|]. split.
  - apply Is_true_true, existsb_exists in Hconnected as (q & Hq & Hqc).
    apply andb_true_iff in Hqc as [Hid Hstatus].
    exists q. split; [by apply list_elem_of_In|].
    split; [by apply bool_decide_eq_true in Hid|by apply bool_decide_eq_true in Hstatus].
  - destruct (Chat.type chat).
    + destruct (find _ peers) as [peer|] eqn:Hfind; [|done].
      destruct (Peer.sharedSecret peer); [|done].
      destruct (encryptTextMessage _ _ _); [|done]. cbn in He. injection He as <- <-.
      apply list_elem_of_singleton in Hrecipient. rewrite Hrecipient.
      apply find_some in Hfind as [_ Hid]. by apply bool_decide_eq_true in Hid.
    + destruct (Chat.groupKey chat); [|done].
      destruct (encryptTextMessage _ _ _); [|done]. cbn in He. injection He as <- <-.
      by apply list_elem_of_filter in Hrecipient as [? ?].
Qed.

Section SampleRecipients.
#[local] Existing Instance sample_engine.

Lemma sendMessage_recipients_witness :
  exists chat : Chat.t,
    active_chat peer_state = Some chat
    /\ (exists p, p ∈ [sample_peer] /\ Peer.id p = str "peer"
                  /\ Peer.dataChannel p = channel_open)
    /\ (exists p, p ∈ [sample_peer] /\ Peer.id p = str "peer" /\ Peer.status p = connected)
    /\ str "peer" = Chat.id chat.
Proof.
  destruct (sendMessage me [sample_peer] peer_state (str "hi") (str "m2") 1000 sample_nonce)
    as [sent|e] eqn:Hsent; [|vm_compute in Hsent; discriminate].
  destruct (sendMessage_recipients me [sample_peer] peer_state (str "hi") (str "m2") 1000
              sample_nonce sent (str "peer") Hsent) as (chat & Hchat & Hopen & Hconn & Hkind).
  - vm_compute in Hsent. injection Hsent as <-. apply list_elem_of_here.
  - exists chat. repeat split; try assumption.
    vm_compute in Hchat. injection Hchat as <-. exact Hkind.
Defined.
End SampleRecipients.

(** ** components/ChatView.tsx: groups *)

(** What [createGroup] returns. *)
Lemma createGroup_Ok (user : User.t) (name uuid : jsstring) (random : list N) (s : ChatView.t) :
  createGroup user name uuid random s
  = Ok (let newGroup :=
          Chat.mk (str "group-" ++ uuid) name group [] 0
            [ChatMember.mk (User.id user) (User.name user)]
            (Some (generateSymmetricKey random))
            (Some (exported_key_jwk (base64url_encode random))) in
        (ChatView.mk (<[str "group-" ++ uuid := newGroup]> (ChatView.chats s))
           (Some (str "group-" ++ uuid)),
         [SaveChat newGroup])).
Proof. reflexivity. Qed.

(** The invite code of a group decodes to the payload it was made of. *)
Lemma invite_code_payload (chats : gmap jsstring Chat.t) (groupId : jsstring) (chat : Chat.t)
    (k : jsstring) :
  chats !! groupId = Some chat ->
  Chat.type chat = group ->
  Chat.groupKeyJwk chat = Some (exported_key_jwk k) ->
  is_bytes k -> is_bytes (Chat.id chat) -> is_bytes (Chat.name chat) ->
  exists code : jsstring,
    generateGroupInviteCode chats groupId = Ok code
    /\ atob code ≫= JSON_parse
       = Ok (invite_payload (Chat.id chat) (Chat.name chat) (exported_key_jwk k)).
Proof.
  intros Hchat Htype Hjwk Hk Hid Hname.
  set (payload := invite_payload (Chat.id chat) (Chat.name chat) (exported_key_jwk k)).
  pose proof (invite_text_is_bytes _ _ _ Hid Hname Hk) as Htext. fold payload in Htext.
  exists (base64_encode base64_alphabet true (JSON_stringify payload)). split.
  - unfold generateGroupInviteCode. rewrite Hchat, Htype, Hjwk.
    change (truthy (exported_key_jwk k)) with true. cbv iota.
    fold (invite_payload (Chat.id chat) (Chat.name chat) (exported_key_jwk k)). fold payload.
    by apply btoa_bytes.
  - rewrite atob_base64_encode by done.
    change (Ok (JSON_stringify payload) ≫= JSON_parse) with (JSON_parse (JSON_stringify payload)).
    unfold payload. by rewrite JSON_parse_invite.
Qed.

Lemma group_id_is_bytes (uuid : jsstring) : is_bytes uuid -> is_bytes (str "group-" ++ uuid).
Proof. intros Huuid. apply Forall_app. split; [by apply is_bytes_check|done]. Qed.

(** X10: a group is created on one device and joined on another with its invite
    code: for a name and an id within Latin-1 and a key of 32 bytes, the
    group joined has the id, the name and the key of the group created, the
    user who joined as its only member and no message; it is saved and
    becomes the conversation in focus. *)
Theorem group_created_then_joined (creator guest : User.t) (name uuid : jsstring)
    (random : list N) (s s' : ChatView.t) :
  is_bytes name -> is_bytes uuid -> is_bytes random -> length random = 32%nat ->
  ChatView.chats s' !! (str "group-" ++ uuid) = None ->
  exists (created joined : ChatView.t) (calls calls' : list DbCall) (code : jsstring)
         (chat : Chat.t),
    createGroup creator name uuid random s = Ok (created, calls)
    /\ generateGroupInviteCode (ChatView.chats created) (str "group-" ++ uuid) = Ok code
    /\ joinGroup guest code s' = JoinedGroup joined calls'
    /\ ChatView.chats joined !! (str "group-" ++ uuid) = Some chat
    /\ ChatView.activeChatId joined = Some (str "group-" ++ uuid)
    /\ calls' = [SaveChat chat]
    /\ Chat.id chat = str "group-" ++ uuid
    /\ Chat.name chat = name
    /\ Chat.type chat = group
    /\ Chat.groupKey chat = Some (generateSymmetricKey random)
    /\ Chat.members chat = [ChatMember.mk (User.id guest) (User.name guest)]
    /\ Chat.messages chat = []
    /\ (forall other, other <> str "group-" ++ uuid ->
                      ChatView.chats joined !! other = ChatView.chats s' !! other).
Proof.
  intros Hname Huuid Hrandom Hlen Hnew. rewrite createGroup_Ok. cbv zeta.
  set (newGroup := Chat.mk _ _ _ _ _ _ _ _).
  destruct (invite_code_payload (<[str "group-" ++ uuid := newGroup]> (ChatView.chats s))
              (str "group-" ++ uuid) newGroup (base64url_encode random))
    as (code & Hcode & Hdecode);
    [apply lookup_insert_eq|done|done|apply base64url_encode_is_bytes
    |by apply group_id_is_bytes|done|].
  eexists. eexists. eexists. eexists. exists code. eexists.
  split; [reflexivity|]. cbn [ChatView.chats]. split; [exact Hcode|].
  unfold joinGroup. rewrite Hdecode. subst newGroup. cbn [Chat.id Chat.name].
  change (member (invite_payload ?i ?n ?key) (str "groupId")) with (Some (JString i)).
  change (member (invite_payload ?i ?n ?key) (str "groupName")) with (Some (JString n)).
  change (member (invite_payload ?i ?n ?key) (str "key")) with (Some key).
  unfold invite_payload at 1. cbv iota beta.
  case_bool_decide as Hknown;
    [destruct Hknown as [x Hx]; discriminate (eq_trans (eq_sym Hx) Hnew)|].
  cbn [default from_option]. unfold id. rewrite importSymmetricKey_exported by done.
  split; [reflexivity|]. cbn [ChatView.chats ChatView.activeChatId].
  split; [apply lookup_insert_eq|]. repeat split.
  intros other Hother. by rewrite lookup_insert_ne.
Qed.

Lemma group_created_then_joined_witness :
  exists (created joined : ChatView.t) (calls calls' : list DbCall) (code : jsstring)
         (chat : Chat.t),
    createGroup me (str "Caf" ++ [0xE9]) (str "a") (N.of_nat <$> seq 1 32) ChatView.initial
    = Ok (created, calls)
    /\ generateGroupInviteCode (ChatView.chats created) (str "group-a") = Ok code
    /\ joinGroup guest code ChatView.initial = JoinedGroup joined calls'
    /\ ChatView.chats joined !! str "group-a" = Some chat
    /\ Chat.name chat = str "Caf" ++ [0xE9]
    /\ Chat.groupKey chat = Some sample_key.
Proof.
  destruct (group_created_then_joined me guest (str "Caf" ++ [0xE9]) (str "a")
              (N.of_nat <$> seq 1 32) ChatView.initial ChatView.initial)
    as (created & joined & calls & calls' & code & chat & H1 & H2 & H3 & H4 & _ & _ & _ & H5
        & _ & H6 & _).
  - by apply is_bytes_check.
  - by apply is_bytes_check.
  - by apply is_bytes_check.
  - reflexivity.
  - reflexivity.
  - exists created, joined, calls, calls', code, chat. repeat split; assumption.
Defined.

(** X11: the invite code of a group pasted where the group is known already: the
    group is selected again, and no conversation is added, replaced or
    saved. *)
Theorem joinGroup_known_group (user : User.t) (groupId : jsstring) (chat : Chat.t) (k : jsstring)
    (s : ChatView.t) :
  ChatView.chats s !! groupId = Some chat ->
  Chat.id chat = groupId ->
  Chat.type chat = group ->
  Chat.groupKeyJwk chat = Some (exported_key_jwk k) ->
  is_bytes k -> is_bytes (Chat.id chat) -> is_bytes (Chat.name chat) ->
  exists code : jsstring,
    generateGroupInviteCode (ChatView.chats s) groupId = Ok code
    /\ joinGroup user code s = Reselected (ChatView.mk (ChatView.chats s) (Some groupId)).
Proof.
  intros Hchat Hid Htype Hjwk Hk Hbytes Hname.
  destruct (invite_code_payload (ChatView.chats s) groupId chat k)
    as (code & Hcode & Hdecode); try done.
  exists code. split; [done|]. unfold joinGroup. rewrite Hdecode.
  change (member (invite_payload ?i ?n ?key) (str "groupId")) with (Some (JString i)).
  unfold invite_payload at 1. cbv iota beta. rewrite Hid, Hchat.
  by rewrite bool_decide_eq_true_2.
Qed.

Lemma joinGroup_known_group_witness :
  exists code : jsstring,
    generateGroupInviteCode (ChatView.chats (group_of (str "Caf" ++ [0xE9]))) (str "group-a")
    = Ok code
    /\ joinGroup guest code (group_of (str "Caf" ++ [0xE9]))
       = Reselected (ChatView.mk (ChatView.chats (group_of (str "Caf" ++ [0xE9])))
                       (Some (str "group-a"))).
Proof.
  apply (joinGroup_known_group guest (str "group-a") cafe_group
           (base64url_encode (N.of_nat <$> seq 1 32)) (group_of (str "Caf" ++ [0xE9]))).
  - vm_compute. reflexivity.
  - reflexivity.
  - reflexivity.
  - reflexivity.
  - apply base64url_encode_is_bytes.
  - by apply is_bytes_check.
  - by apply is_bytes_check.
Defined.

(** ** Where a message is filed *)

Lemma startsWith_app (p s : jsstring) : startsWith (p ++ s) p = true.
Proof. induction p as [|c p IH]; [by destruct s|]. cbn. by rewrite N.eqb_refl, IH. Qed.

(** X12: a direct message, whose recipient is a user identifier derived from a
    public key, is filed under its sender, and a message to a group that
    [createGroup] made is filed under the group: a user identifier never
    starts with "group-", the id of a created group always does. *)
Theorem message_filed_by_kind (senderId : jsstring) (timestamp : Z)
    (id sender encryptedContent iv : jsstring) :
  (forall publicKey : JsonWebKey,
      target_chat senderId
        (TextMessage.mk timestamp id sender (generateUserIdFromPublicKey publicKey)
           encryptedContent iv)
      = senderId)
  /\ (forall (user : User.t) (name uuid : jsstring) (random : list N) (s : ChatView.t),
        exists (s' : ChatView.t) (calls : list DbCall) (chat : Chat.t),
          createGroup user name uuid random s = Ok (s', calls)
          /\ ChatView.chats s'
               !! target_chat senderId
                    (TextMessage.mk timestamp id sender (str "group-" ++ uuid)
                       encryptedContent iv)
             = Some chat
          /\ Chat.id chat = str "group-" ++ uuid
          /\ Chat.type chat = group).
Proof.
  split.
  - intros publicKey. unfold target_chat. cbn [TextMessage.recipientId].
    destruct (user_id_shape publicKey) as [Hlen Hhex].
    destruct (generateUserIdFromPublicKey publicKey) as [|c rest]; [done|].
    apply Forall_cons in Hhex as [Hc _].
    assert (c <> 103) as Hg.
    { intros ->. unfold is_hex_digit in Hc. vm_compute in Hc.
      repeat (destruct Hc as [Hc|Hc]; [discriminate|]). done. }
    change (startsWith (c :: rest) (str "group-"))
      with ((103 =? c) && startsWith rest (str "roup-")).
    by rewrite (proj2 (N.eqb_neq 103 c)).
  - intros user name uuid random s. rewrite createGroup_Ok.
    eexists. eexists. eexists. split; [reflexivity|].
    unfold target_chat. cbn [TextMessage.recipientId ChatView.chats].
    rewrite startsWith_app. split; [apply lookup_insert_eq|done].
Qed.

(** ** JSON text: strings of any code units, and integers *)

Lemma hex4_unicode_escape_low (c : N) :
  c < 32 ->
  hex4 (hex_digit (c / 4096)) (hex_digit ((c / 256) mod 16))
       (hex_digit ((c / 16) mod 16)) (hex_digit (c mod 16)) = Some c.
Proof. intros Hc. apply hex4_unicode_escape. lia. Qed.

Lemma hex4_unicode_escape_surrogate (c : N) :
  0xD800 <= c <= 0xDFFF ->
  hex4 (hex_digit (c / 4096)) (hex_digit ((c / 256) mod 16))
       (hex_digit ((c / 16) mod 16)) (hex_digit (c mod 16)) = Some c.
Proof.
  intros Hc.
  assert (forallb (fun n => let c := 0xD800 + N.of_nat n in
                            bool_decide (hex4 (hex_digit (c / 4096)) (hex_digit ((c / 256) mod 16))
                                           (hex_digit ((c / 16) mod 16)) (hex_digit (c mod 16))
                                         = Some c)) (seq 0 2048) = true) as H
    by (vm_compute; reflexivity).
  rewrite forallb_forall in H. specialize (H (N.to_nat (c - 0xD800))).
  cbv zeta in H. rewrite N2Nat.id in H.
  replace (0xD800 + (c - 0xD800)) with c in H by lia.
  apply bool_decide_eq_true in H; [done|].
  apply in_seq. lia.
Qed.

Lemma parse_string_escaped (c : N) (rest : jsstring) :
  c < 32 \/ 0xD800 <= c <= 0xDFFF ->
  parse_string (unicode_escape c ++ rest)
  = '(t, r) ← parse_string rest; Some (c :: t, r).
Proof.
  intros Hc. unfold unicode_escape. cbn [app].
  change (parse_string (92 :: 117 :: ?h1 :: ?h2 :: ?h3 :: ?h4 :: rest))
    with (u ← hex4 h1 h2 h3 h4; '(t, r) ← parse_string rest; Some (u :: t, r)).
  destruct Hc; [by rewrite hex4_unicode_escape_low|by rewrite hex4_unicode_escape_surrogate].
Qed.

Lemma parse_string_unit (c : N) (rest : jsstring) :
  parse_string (json_escape_unit c ++ rest)
  = '(t, r) ← parse_string rest; Some (c :: t, r).
Proof.
  unfold json_escape_unit.
  destruct (N.eqb_spec c 8) as [->|H8]; [done|].
  destruct (N.eqb_spec c 9) as [->|H9]; [done|].
  destruct (N.eqb_spec c 10) as [->|H10]; [done|].
  destruct (N.eqb_spec c 12) as [->|H12]; [done|].
  destruct (N.eqb_spec c 13) as [->|H13]; [done|].
  destruct (N.eqb_spec c 34) as [->|H34]; [done|].
  destruct (N.eqb_spec c 92) as [->|H92]; [done|].
  destruct (N.ltb_spec c 32) as [H32|H32]; [apply parse_string_escaped; by left|].
  cbn [app parse_string].
  destruct (N.eqb_spec c 34); [done|]. destruct (N.eqb_spec c 92); [done|].
  destruct (N.ltb_spec c 32); [lia|]. done.
Qed.

Lemma parse_string_raw (c : N) (rest : jsstring) :
  0xD800 <= c ->
  parse_string (c :: rest) = '(t, r) ← parse_string rest; Some (c :: t, r).
Proof.
  intros Hc. cbn [parse_string].
  destruct (N.eqb_spec c 34); [lia|]. destruct (N.eqb_spec c 92); [lia|].
  destruct (N.ltb_spec c 32); [lia|]. done.
Qed.

(** [JSON.parse] reads a quoted string back as the string, whatever its code
    units. *)
Lemma parse_string_quoted (n : nat) (s rest : jsstring) :
  (length s <= n)%nat ->
  parse_string (quote_units s ++ 34 :: rest) = Some (s, rest).
Proof.
  revert s. induction n as [|n IH]; intros s Hn.
  { destruct s; [done|cbn in Hn; lia]. }
  destruct s as [|c s]; [done|]. cbn [length] in Hn. cbn [quote_units].
  unfold is_lead_surrogate, is_trail_surrogate.
  destruct (N.leb_spec 0xD800 c) as [Hge|Hlt]; cbn [andb].
  - destruct (N.leb_spec c 0xDBFF) as [Hlead|Hnot].
    + destruct s as [|d s'].
      * rewrite parse_string_escaped by (right; lia). done.
      * destruct (N.leb_spec 0xDC00 d) as [Hd|Hd]; cbn [andb].
        -- destruct (N.leb_spec d 0xDFFF) as [Hd'|Hd'].
           ++ cbn [app]. rewrite !parse_string_raw by lia.
              rewrite IH by (cbn [length] in Hn; lia). done.
           ++ rewrite <- app_assoc, parse_string_escaped by (right; lia).
              rewrite IH by lia. done.
        -- rewrite <- app_assoc, parse_string_escaped by (right; lia).
           rewrite IH by lia. done.
    + destruct (N.leb_spec 0xDC00 c) as [Htrail|Hnt]; cbn [andb].
      * destruct (N.leb_spec c 0xDFFF) as [Hin|Hout].
        -- rewrite <- app_assoc, parse_string_escaped by (right; lia).
           rewrite IH by lia. done.
        -- rewrite <- app_assoc, parse_string_unit, IH by lia. done.
      * lia.
  - destruct (N.leb_spec 0xDC00 c) as [?|_]; [lia|]. cbn [andb].
    rewrite <- app_assoc, parse_string_unit, IH by lia. done.
Qed.

Lemma parse_value_quoted (fuel : nat) (s rest : jsstring) :
  parse_value (S fuel) (34 :: quote_units s ++ 34 :: rest) = Some (JString s, rest).
Proof.
  change (parse_value (S fuel) (34 :: ?l)) with ('(t, r) ← parse_string l; Some (JString t, r)).
  by rewrite (parse_string_quoted (length s)).
Qed.

(** *** Integers *)

Lemma parse_digits_digit (d : N) (s : jsstring) (acc : N) :
  d < 10 -> parse_digits ((48 + d) :: s) acc = parse_digits s (acc * 10 + d).
Proof.
  intros Hd. cbn [parse_digits]. unfold is_digit.
  destruct (N.leb_spec 48 (48 + d)); [|lia]. destruct (N.leb_spec (48 + d) 57); [|lia].
  cbn [andb]. f_equal. lia.
Qed.

Lemma decimal_digits_parse (fuel : nat) :
  forall (n : N) (acc s : jsstring),
    n < 2 ^ N.of_nat fuel -> (0 < fuel)%nat ->
    parse_digits (decimal_digits fuel n acc ++ s) 0 = parse_digits (acc ++ s) n.
Proof.
  induction fuel as [|fuel IH]; intros n acc s Hn Hfuel; [lia|].
  cbn [decimal_digits]. cbv zeta.
  assert (2 ^ N.of_nat (S fuel) = 2 * 2 ^ N.of_nat fuel) as Hpow
    by (rewrite Nat2N.inj_succ, N.pow_succ_r'; done).
  destruct (N.ltb_spec n 10) as [Hsmall|Hbig].
  - rewrite N.mod_small by done. cbn [app]. by rewrite parse_digits_digit.
  - assert (0 < fuel)%nat as Hpos.
    { destruct fuel; [|lia]. change (2 ^ N.of_nat 1) with 2 in Hn. lia. }
    rewrite IH; [|lia|done]. cbn [app].
    rewrite parse_digits_digit by (apply N.mod_lt; lia). f_equal. lia.
Qed.

Lemma decimal_digits_head (fuel : nat) :
  forall (n : N) (acc : jsstring),
    n < 2 ^ N.of_nat fuel -> (0 < fuel)%nat ->
    exists (d : N) (t : jsstring),
      decimal_digits fuel n acc = (48 + d) :: t /\ d < 10 /\ (d = 0 -> n = 0 /\ t = acc).
Proof.
  induction fuel as [|fuel IH]; intros n acc Hn Hfuel; [lia|].
  cbn [decimal_digits]. cbv zeta.
  assert (2 ^ N.of_nat (S fuel) = 2 * 2 ^ N.of_nat fuel) as Hpow
    by (rewrite Nat2N.inj_succ, N.pow_succ_r'; done).
  destruct (N.ltb_spec n 10) as [Hsmall|Hbig].
  - exists n, acc. rewrite N.mod_small by done. done.
  - assert (0 < fuel)%nat as Hpos.
    { destruct fuel; [|lia]. change (2 ^ N.of_nat 1) with 2 in Hn. lia. }
    destruct (IH (n / 10) ((48 + n mod 10) :: acc)) as (d & t & -> & Hd & Hzero); [lia|done|].
    exists d, t. split; [done|]. split; [done|]. intros Hd0.
    destruct (Hzero Hd0) as [Hn0 _]. lia.
Qed.

Lemma decimal_fuel (n : N) : n < 2 ^ N.of_nat (S (N.to_nat (N.log2 n))).
Proof.
  rewrite Nat2N.inj_succ, N2Nat.id. destruct (N.eq_dec n 0) as [->|Hn]; [done|].
  apply N.log2_spec. lia.
Qed.

(** What ends a number in the texts this program writes: a comma or a
    closing brace or bracket. *)
Definition ends_number (c : N) : Prop := c = 44 \/ c = 125 \/ c = 93.

Lemma parse_natural_decimal (n : N) (c : N) (rest : jsstring) :
  ends_number c -> parse_natural (decimal n ++ c :: rest) = Some (n, c :: rest).
Proof.
  intros Hc. unfold decimal.
  pose proof (decimal_fuel n) as Hfuel.
  destruct (decimal_digits_head _ n [] Hfuel) as (d & t & Hhead & Hd & Hzero); [lia|].
  pose proof (decimal_digits_parse _ n [] (c :: rest) Hfuel) as Hparse.
  rewrite Hhead in Hparse |- *. cbn [app] in Hparse. cbn [app parse_natural].
  assert (is_digit (48 + d) = true) as ->.
  { unfold is_digit. destruct (N.leb_spec 48 (48 + d)); [|lia].
    by destruct (N.leb_spec (48 + d) 57); [|lia]. }
  cbn [negb].
  assert (is_digit c || (c =? 46) || (c =? 101) || (c =? 69) = false) as Hend
    by (destruct Hc as [->|[->| ->]]; reflexivity).
  destruct (N.eqb_spec (48 + d) 48) as [Heq|Hne].
  - assert (d = 0) as Hd0 by lia. destruct (Hzero Hd0) as [-> ->]. cbn [app]. by rewrite Hend.
  - rewrite Hparse by lia. cbn [app parse_digits].
    assert (is_digit c = false) as -> by (destruct Hc as [->|[->| ->]]; reflexivity).
    by rewrite Hend.
Qed.

Lemma parse_number_decimal (z : Z) (c : N) (rest : jsstring) :
  ends_number c -> parse_number (decimal_Z z ++ c :: rest) = Some (z, c :: rest).
Proof.
  intros Hc. destruct z as [|p|p]; unfold decimal_Z.
  - change (Z.to_N 0) with 0. unfold parse_number.
    change (decimal 0) with [48]. cbn [app]. change (48 =? 45) with false. cbv iota.
    change (48 :: c :: rest) with (decimal 0 ++ c :: rest).
    by rewrite parse_natural_decimal.
  - change (Z.to_N (Z.pos p)) with (N.pos p).
    pose proof (parse_natural_decimal (N.pos p) c rest Hc) as Hnat.
    destruct (decimal_digits_head _ (N.pos p) [] (decimal_fuel _))
      as (d & t & Hhead & Hd & _); [lia|].
    fold (decimal (N.pos p)) in Hhead. rewrite Hhead in Hnat |- *.
    cbn [app] in Hnat |- *. unfold parse_number.
    destruct (N.eqb_spec (48 + d) 45) as [?|_]; [lia|].
    by rewrite Hnat.
  - cbn [app parse_number]. change (45 =? 45) with true. cbv iota.
    by rewrite parse_natural_decimal.
Qed.

Lemma decimal_Z_head (z : Z) :
  exists (c : N) (t : jsstring),
    decimal_Z z = c :: t /\ (c = 45 \/ 48 <= c <= 57).
Proof.
  destruct z as [|p|p]; unfold decimal_Z.
  - exists 48, []. split; [done|]. right. lia.
  - destruct (decimal_digits_head _ (Z.to_N (Z.pos p)) [] (decimal_fuel _))
      as (d & t & Hhead & Hd & _); [lia|].
    exists (48 + d), t. split; [exact Hhead|]. right. lia.
  - eexists. eexists. split; [reflexivity|]. by left.
Qed.

Lemma parse_value_number (fuel : nat) (z : Z) (c : N) (rest : jsstring) :
  ends_number c ->
  parse_value (S fuel) (decimal_Z z ++ c :: rest) = Some (JNumber z, c :: rest).
Proof.
  intros Hc. pose proof (parse_number_decimal z c rest Hc) as Hparse.
  destruct (decimal_Z_head z) as (h & t & Hhead & Hh). rewrite Hhead in Hparse |- *.
  cbn [app] in Hparse |- *. rewrite parse_value_S.
  assert (is_json_whitespace h = false) as Hws.
  { unfold is_json_whitespace.
    destruct Hh as [->|Hh]; [done|].
    destruct (N.eqb_spec h 32), (N.eqb_spec h 9), (N.eqb_spec h 10), (N.eqb_spec h 13);
      try lia; done. }
  cbn [skip_ws]. rewrite Hws.
  destruct (N.eqb_spec h 34); [lia|]. destruct (N.eqb_spec h 91); [lia|].
  destruct (N.eqb_spec h 123); [lia|]. destruct (N.eqb_spec h 116); [lia|].
  destruct (N.eqb_spec h 102); [lia|]. destruct (N.eqb_spec h 110); [lia|].
  by rewrite Hparse.
Qed.

(** ** hooks/useWebRTC.ts: messages on a data channel *)

Lemma parse_value_false (fuel : nat) (rest : jsstring) :
  parse_value (S fuel) (str "false" ++ rest) = Some (JBool false, rest).
Proof. reflexivity. Qed.

Ltac key_is_bytes := by apply is_bytes_check.

(** One step of reading the text of an object whose keys are literal and
    whose strings are arbitrary. *)
Ltac parse_step :=
  first
    [ rewrite parse_value_object
    | rewrite parse_members_key by key_is_bytes
    | rewrite parse_value_quoted
    | rewrite parse_value_true
    | rewrite parse_value_false
    | rewrite parse_value_number by (unfold ends_number; auto)
    | rewrite parse_value_array
    | rewrite parse_elements_value
    | progress cbn [mbind option_bind] ].

Lemma parse_TextMessage (m : TextMessage.t) :
  parse_value 20 (JSON_stringify (TextMessage_to_JSON m)) = Some (TextMessage_to_JSON m, []).
Proof.
  unfold TextMessage_to_JSON.
  cbn [JSON_stringify map join_comma]. unfold QuoteJSONString.
  rewrite <- !app_assoc. cbn [app].
  repeat parse_step. reflexivity.
Qed.

Lemma join_comma_length (parts : list jsstring) :
  Forall (fun p => (3 <= length p)%nat) parts ->
  (3 * length parts <= length (join_comma parts))%nat.
Proof.
  induction 1 as [|p parts Hp Hparts IH]; [done|].
  destruct parts as [|q parts]; [cbn; lia|].
  change (join_comma (p :: q :: parts)) with (p ++ [44] ++ join_comma (q :: parts)).
  rewrite !length_app. cbn [length] in *. lia.
Qed.

(** The text of an object of three members or more has ten characters at
    least. *)
Lemma object_text_length (members : list (jsstring * JSON)) :
  (3 <= length members)%nat ->
  (20 <= S (2 * length (JSON_stringify (JObject members))))%nat.
Proof.
  intros Hmembers.
  change (JSON_stringify (JObject members))
    with ([123] ++ join_comma (map (fun kv => match kv with
                                              | (k, x) => QuoteJSONString k ++ [58] ++ JSON_stringify x
                                              end) members) ++ [125]).
  set (parts := map _ members).
  assert (Forall (fun p => (3 <= length p)%nat) parts) as Hparts.
  { apply Forall_map, Forall_forall. intros [k x] _.
    unfold QuoteJSONString. rewrite !length_app. cbn [length]. lia. }
  apply join_comma_length in Hparts. unfold parts in Hparts at 1.
  rewrite length_map in Hparts. rewrite !length_app. cbn [length]. lia.
Qed.

Lemma JSON_parse_TextMessage (m : TextMessage.t) :
  JSON_parse (JSON_stringify (TextMessage_to_JSON m)) = Ok (TextMessage_to_JSON m).
Proof.
  assert (20 <= S (2 * length (JSON_stringify (TextMessage_to_JSON m))))%nat as Hfuel
    by (apply object_text_length; cbn [length]; lia).
  unfold JSON_parse.
  by rewrite (parse_value_fuel 20 _ _ _ Hfuel (parse_TextMessage m)).
Qed.

(** X13: a text message written to a data channel with [JSON.stringify] is read
    by [handleDataChannelMessage] at the other end as the same message,
    whatever the code units of its strings and whatever its timestamp; it is
    passed on with the id the channel was set up with, and the peers are
    left as they are. *)
Theorem text_message_on_the_wire (m : TextMessage.t) (peerId : jsstring) (prev : list Peer.t) :
  handleDataChannelMessage (JSON_stringify (TextMessage_to_JSON m)) peerId prev
  = Received prev (Text m).
Proof.
  unfold handleDataChannelMessage. rewrite JSON_parse_TextMessage.
  by destruct m.
Qed.

Lemma parse_value_boolean (fuel : nat) (b : bool) (rest : jsstring) :
  parse_value (S fuel) ((if b then str "true" else str "false") ++ rest) = Some (JBool b, rest).
Proof. by destruct b. Qed.

Lemma parse_value_empty_array (fuel : nat) (rest : jsstring) :
  parse_value (S fuel) (91 :: 93 :: rest) = Some (JArray [], rest).
Proof. reflexivity. Qed.

Lemma parse_public_key (fuel : nat) (x y : N) (rest : jsstring) :
  parse_value (9 + fuel) (JSON_stringify (shaped_key x y) ++ rest)
  = Some (shaped_key x y, rest).
Proof.
  unfold shaped_key, ec_jwk_members.
  generalize (base64url_encode (be_bytes field_octets x)).
  generalize (base64url_encode (be_bytes field_octets y)). intros ky kx.
  change (9 + fuel)%nat with (S (S (S (S (S (S (S (S (S fuel))))))))).
  cbn [JSON_stringify map join_comma]. unfold QuoteJSONString.
  rewrite <- !app_assoc. cbn [app].
  repeat first [rewrite parse_value_empty_array | parse_step].
  reflexivity.
Qed.

Lemma parse_private_key (fuel : nat) (d x y : N) (rest : jsstring) :
  parse_value (9 + fuel) (JSON_stringify (private_key_jwk d x y) ++ rest)
  = Some (private_key_jwk d x y, rest).
Proof.
  unfold private_key_jwk, ec_jwk_members.
  generalize (base64url_encode (be_bytes field_octets x)).
  generalize (base64url_encode (be_bytes field_octets y)).
  generalize (base64url_encode (be_bytes field_octets d)). intros kd ky kx.
  change (9 + fuel)%nat with (S (S (S (S (S (S (S (S (S fuel))))))))).
  cbn [JSON_stringify map join_comma]. unfold QuoteJSONString.
  rewrite <- !app_assoc. cbn [app].
  repeat parse_step.
  reflexivity.
Qed.

Lemma parse_UserInfoMessage (now : Z) (id name : jsstring) (isServerMode : bool) (x y : N) :
  parse_value 20
    (JSON_stringify
       (UserInfoMessage_to_JSON (UserInfoMessage.mk now id name isServerMode (shaped_key x y))))
  = Some (UserInfoMessage_to_JSON (UserInfoMessage.mk now id name isServerMode (shaped_key x y)),
          []).
Proof.
  unfold UserInfoMessage_to_JSON.
  cbn [UserInfoMessage.payload_id UserInfoMessage.payload_name UserInfoMessage.payload_publicKey
       UserInfoMessage.payload_isServerMode UserInfoMessage.timestamp].
  pose proof (fun fuel => parse_public_key fuel x y) as Hpublic.
  generalize dependent (shaped_key x y). intros publicKey Hpublic.
  cbn [JSON_stringify map join_comma]. unfold QuoteJSONString.
  rewrite <- !app_assoc. cbn [app].
  repeat first [rewrite (Hpublic 4%nat) | rewrite parse_value_boolean | parse_step].
  reflexivity.
Qed.

(** X14: the message a channel sends when it opens, for a user whose public key
    has the shape [exportKey] gives it, is read at the other end as the same
    message; the peers of the id the channel was set up with take the name,
    the public key and the mode announced, keep their id, their connection,
    their status and the secret already shared, and no other peer
    changes. *)
Theorem user_info_on_the_wire (id name : jsstring) (x y : N) (privateKey : JsonWebKey)
    (isServerMode : bool) (now : Z) (peerId : jsstring) (prev : list Peer.t) :
  let user := User.mk id name (CryptoKeys.mk (shaped_key x y) privateKey) isServerMode in
  exists peers : list Peer.t,
    handleDataChannelMessage (JSON_stringify (UserInfoMessage_to_JSON (userInfoMessage user now)))
      peerId prev
    = Received peers (UserInfo (userInfoMessage user now))
    /\ Forall2 (fun p p' =>
                  Peer.id p' = Peer.id p
                  /\ Peer.connection p' = Peer.connection p
                  /\ Peer.dataChannel p' = Peer.dataChannel p
                  /\ Peer.status p' = Peer.status p
                  /\ Peer.sharedSecret p' = Peer.sharedSecret p
                  /\ CryptoKeys.privateKey (Peer.keys p') = CryptoKeys.privateKey (Peer.keys p)
                  /\ if jseq (Peer.id p) peerId
                     then Peer.name p' = name
                          /\ CryptoKeys.publicKey (Peer.keys p') = shaped_key x y
                          /\ Peer.isServerMode p' = isServerMode
                     else p' = p)
         prev peers.
Proof.
  intros user. unfold userInfoMessage, user. cbn [User.id User.name User.keys User.isServerMode
    CryptoKeys.publicKey].
  set (m := UserInfoMessage.mk now id name isServerMode (shaped_key x y)).
  assert (JSON_parse (JSON_stringify (UserInfoMessage_to_JSON m))
          = Ok (UserInfoMessage_to_JSON m)) as Hparse.
  { assert (20 <= S (2 * length (JSON_stringify (UserInfoMessage_to_JSON m))))%nat as Hfuel
      by (apply object_text_length; cbn [length]; lia).
    unfold JSON_parse. unfold m in Hfuel |- *.
    by rewrite (parse_value_fuel 20 _ _ _ Hfuel
                  (parse_UserInfoMessage now id name isServerMode x y)). }
  exists (update_user_info peerId m prev). split.
  - unfold handleDataChannelMessage. rewrite Hparse. by destruct isServerMode.
  - unfold update_user_info. induction prev as [|p prev IH]; [constructor|].
    cbn [map]. constructor; [|exact IH].
    destruct (jseq (Peer.id p) peerId); done.
Qed.

(** ** hooks/useWebRTC.ts: the peers *)

(** X15: [addPeer] leaves exactly one peer of the id of the new peer, the new
    peer, at the end of the list, keeps every other peer in its place, and
    keeps the ids of the peers distinct. *)
Theorem addPeer_unique (newPeer : Peer.t) (prev : list Peer.t) :
  filter (fun p => Peer.id p = Peer.id newPeer) (addPeer newPeer prev) = [newPeer]
  /\ filter (fun p => Peer.id p <> Peer.id newPeer) (addPeer newPeer prev)
     = filter (fun p => Peer.id p <> Peer.id newPeer) prev
  /\ (NoDup (Peer.id <$> prev) -> NoDup (Peer.id <$> addPeer newPeer prev)).
Proof.
  unfold addPeer. split; [|split].
  - rewrite filter_app. rewrite (filter_cons_True _ newPeer []) by done.
    rewrite filter_nil.
    assert (filter (fun p => Peer.id p = Peer.id newPeer)
              (filter (fun p => Peer.id p <> Peer.id newPeer) prev) = []) as ->; [|done].
    induction prev as [|p prev IH]; [done|].
    rewrite (filter_cons _ p prev). case_decide as Hp; [|done].
    rewrite filter_cons. by case_decide.
  - rewrite filter_app. rewrite (filter_cons_False _ newPeer []) by (intros H; by apply H).
    rewrite filter_nil, app_nil_r.
    induction prev as [|p prev IH]; [done|].
    rewrite (filter_cons _ p prev). case_decide as Hp; [|done].
    rewrite (filter_cons _ p). case_decide; [|done]. by rewrite IH.
  - intros Hprev. rewrite fmap_app. apply NoDup_app. split; [|split].
    + induction prev as [|p prev IH]; [constructor|].
      apply NoDup_cons in Hprev as [Hp Hprev].
      rewrite (filter_cons _ p prev). case_decide as Hne; [|by apply IH].
      cbn. apply NoDup_cons. split; [|by apply IH].
      intros (q & Hq & [_ Hin]%list_elem_of_filter)%list_elem_of_fmap.
      apply Hp, list_elem_of_fmap. by exists q.
    + intros id (q & -> & [Hq _]%list_elem_of_filter)%list_elem_of_fmap.
      cbn. intros Heq%list_elem_of_singleton. by apply Hq.
    + cbn. apply NoDup_singleton.
Qed.

Lemma handleOffer_adds (curve : NamedCurve) (engine : RTCEngine) (user : User.t)
    (peers peers' : list Peer.t) (offerCode answer : jsstring) :
  handleOffer user peers offerCode = (Fulfilled (Some answer), peers') ->
  exists (sdp : option JSON) (sender : Sender.t) (peer : Peer.t) (sharedSecret : CryptoKey.t),
    decode_code offerCode = FromSender sdp sender
    /\ peers' = addPeer peer peers
    /\ Peer.id peer = Sender.id sender
    /\ Peer.name peer = Sender.name sender
    /\ CryptoKeys.publicKey (Peer.keys peer) = Sender.publicKey sender
    /\ Peer.sharedSecret peer = Some sharedSecret
    /\ deriveSharedSecret (CryptoKeys.privateKey (User.keys user)) (Sender.publicKey sender)
       = Ok sharedSecret.
Proof.
  unfold handleOffer.
  destruct (decode_code offerCode) as [e|sdp|sdp sender|]; try discriminate.
  intros H. exists sdp, sender.
  destruct (existsb _ peers) eqn:Hknown; [discriminate|].
  destruct (setRemoteDescription _ sdp) as [c1|]; [|discriminate]. cbn [mbind result_bind] in H.
  destruct (createAnswer_description c1) as [description|]; [|discriminate].
  cbn [mbind result_bind] in H.
  destruct (setLocalDescription c1 description) as [c2|]; [|discriminate].
  cbn [mbind result_bind] in H.
  destruct (deriveSharedSecret _ _) as [sharedSecret|]; [|discriminate].
  cbn [mbind result_bind] in H.
  destruct (code_when_gathered user c2); try discriminate.
  injection H as _ <-. eexists. exists sharedSecret. split; [done|].
  split; [reflexivity|]. done.
Qed.

(** X16: [handleOffer] on an invite: a rejection leaves the peers as they were;
    an invite that is answered adds one peer, under the id of the sender,
    with the name and the public key of the sender and the secret derived
    from that key; and the same invite handled again adds nothing and
    produces no second answer. *)
Theorem handleOffer_once (curve : NamedCurve) (engine : RTCEngine) (user : User.t)
    (peers : list Peer.t) (offerCode : jsstring) :
  (forall e peers', handleOffer user peers offerCode = (Rejected e, peers') -> peers' = peers)
  /\ (forall answer peers',
        handleOffer user peers offerCode = (Fulfilled (Some answer), peers') ->
        (exists (sdp : option JSON) (sender : Sender.t) (peer : Peer.t)
                (sharedSecret : CryptoKey.t),
           decode_code offerCode = FromSender sdp sender
           /\ peers' = addPeer peer peers
           /\ Peer.id peer = Sender.id sender
           /\ Peer.name peer = Sender.name sender
           /\ CryptoKeys.publicKey (Peer.keys peer) = Sender.publicKey sender
           /\ Peer.sharedSecret peer = Some sharedSecret
           /\ deriveSharedSecret (CryptoKeys.privateKey (User.keys user))
                (Sender.publicKey sender) = Ok sharedSecret)
        /\ handleOffer user peers' offerCode = (Fulfilled None, peers')).
Proof.
  split.
  - intros e peers'. unfold handleOffer.
    destruct (decode_code offerCode) as [e'|sdp|sdp sender|];
      try (intros [= _ <-]; done); try discriminate.
    destruct (existsb _ peers); [discriminate|]. cbv zeta.
    destruct (_ ≫= _) as [[c2 sharedSecret]|]; [|intros [= _ <-]; done].
    unfold code_when_gathered. destruct (gathered c2) as [description|]; [|discriminate].
    destruct (btoa _); discriminate.
  - intros answer peers' Hoffer.
    destruct (handleOffer_adds _ _ _ _ _ _ _ Hoffer)
      as (sdp & sender & peer & sharedSecret & Hdecode & -> & Hid & Hname & Hkey & Hs & Hsecret).
    split.
    + exists sdp, sender, peer, sharedSecret. done.
    + unfold handleOffer. rewrite Hdecode.
      assert (existsb (fun p => jseq (Peer.id p) (Sender.id sender)) (addPeer peer peers) = true)
        as ->; [|done].
      apply existsb_exists. exists peer. split.
      * apply list_elem_of_In. unfold addPeer. apply elem_of_app. right.
        apply list_elem_of_here.
      * unfold jseq. by apply bool_decide_eq_true.
Qed.

Lemma handleOffer_once_witness :
  @handleOffer Z7 signalling_engine bob bob_accepts.2 (code_of alice_invites)
  = (Fulfilled None, bob_accepts.2).
Proof.
  destruct (handleOffer_once Z7 signalling_engine bob [] (code_of alice_invites)) as [_ Honce].
  apply (Honce (code_of_option bob_accepts) bob_accepts.2).
  vm_compute. reflexivity.
Defined.

Lemma map_unless (f : Peer.t -> Peer.t) (peerId : jsstring) (peers : list Peer.t) :
  (forall p, p ∈ peers -> Peer.id p <> peerId) ->
  map (fun p => if jseq (Peer.id p) peerId then f p else p) peers = peers.
Proof.
  induction peers as [|p peers IH]; intros Hnone; [done|].
  cbn [map]. unfold jseq at 1.
  rewrite bool_decide_eq_false_2 by (apply Hnone, list_elem_of_here).
  f_equal. apply IH. intros q Hq. apply Hnone. by apply list_elem_of_further.
Qed.

(** X17: the handlers of a data channel keep the id the connection was created
    with. After [handleAnswer] has given the peer that awaited the answer the
    id of the sender, no peer has the temporary id any more: when the channel
    opens or closes, the updater of its handler changes no peer, so the
    peer stays in the status it had while awaiting the answer, and a
    USER_INFO message received on the channel changes no peer either. *)
Theorem channel_keeps_temporary_id (curve : NamedCurve) (engine : RTCEngine) (user : User.t)
    (peers : list Peer.t) (answerCode : jsstring)
    (pendingPeer : Peer.t) (sdp : option JSON) (sender : Sender.t)
    (c : RTCPeerConnection.t) (sharedSecret : CryptoKey.t) :
  decode_code answerCode = FromSender sdp sender ->
  find awaiting_answer peers = Some pendingPeer ->
  setRemoteDescription (Peer.connection pendingPeer) sdp = Ok c ->
  deriveSharedSecret (CryptoKeys.privateKey (User.keys user)) (Sender.publicKey sender)
    = Ok sharedSecret ->
  Sender.id sender <> Peer.id pendingPeer ->
  exists (peers' : list Peer.t) (answered : Peer.t),
    handleAnswer user peers answerCode = (Fulfilled None, peers')
    /\ answered ∈ peers'
    /\ Peer.id answered = Sender.id sender
    /\ Peer.status answered = Peer.status pendingPeer
    /\ dataChannel_onopen (Peer.id pendingPeer) peers' = peers'
    /\ dataChannel_onclose (Peer.id pendingPeer) peers' = peers'
    /\ forall userInfo, update_user_info (Peer.id pendingPeer) userInfo peers' = peers'.
Proof.
  intros Hdecode Hfind Hset Hderive Hne.
  unfold handleAnswer. rewrite Hdecode, Hfind, Hset, Hderive.
  eexists. exists (answered_peer sender sharedSecret (set_connection c pendingPeer)).
  split; [reflexivity|].
  match goal with |- _ ∈ ?l /\ _ => set (peers' := l) end.
  assert (forall p, p ∈ peers' -> Peer.id p <> Peer.id pendingPeer) as Hnone.
  { intros p [[Hp|Hp] _]%list_elem_of_filter; [done|]. by rewrite Hp. }
  split.
  { apply list_elem_of_filter. split; [by right|].
    apply (find_update_first _ (set_connection c)) in Hfind.
    apply (list_elem_of_fmap_2 (fun p => if jseq (Peer.id p) (Peer.id pendingPeer)
                                    then answered_peer sender sharedSecret p else p)) in Hfind.
    cbn [set_connection Peer.id] in Hfind. unfold jseq in Hfind at 1.
    by rewrite bool_decide_eq_true_2 in Hfind. }
  split; [done|]. split; [done|].
  split; [by apply map_unless|]. split; [by apply map_unless|].
  intros userInfo. unfold update_user_info. by apply map_unless.
Qed.

Lemma channel_keeps_temporary_id_witness :
  exists (peers' : list Peer.t) (answered : Peer.t),
    @handleAnswer Z7 signalling_engine alice alice_invites.2 (code_of_option bob_accepts)
    = (Fulfilled None, peers')
    /\ answered ∈ peers'
    /\ Peer.id answered = User.id bob
    /\ Peer.status answered = connecting
    /\ dataChannel_onopen (str "temp") peers' = peers'.
Proof.
  destruct (channel_keeps_temporary_id Z7 signalling_engine alice alice_invites.2
              (code_of_option bob_accepts) alice_pending (Some (description "answer"))
              bob_as_sender answered_connection shared_key)
    as (peers' & answered & Heq & Hin & Hid & Hstatus & Hopen & _).
  - vm_compute; reflexivity.
  - vm_compute; reflexivity.
  - vm_compute; reflexivity.
  - vm_compute; reflexivity.
  - vm_compute. discriminate.
  - exists peers', answered. repeat split; assumption.
Defined.

(** ** services/dbService.ts *)

Lemma elem_of_getAll {A : Type} (store : gmap jsstring A) (r : A) :
  r ∈ getAll store <-> exists k, store !! k = Some r.
Proof.
  unfold getAll. rewrite list_elem_of_fmap. split.
  - intros ([k r'] & -> & Hin). rewrite (Array_sort_perm after_key) in Hin.
    apply elem_of_map_to_list in Hin. by exists k.
  - intros [k Hk]. exists (k, r). split; [done|].
    rewrite (Array_sort_perm after_key). by apply elem_of_map_to_list.
Qed.

Section SortedBy.
Context {A : Type} (f : A -> Z).

Lemma sort_insert_sorted_by (x : A) (l : list A) :
  StronglySorted (fun a b => (f a <= f b)%Z) l ->
  StronglySorted (fun a b => (f a <= f b)%Z) (sort_insert (fun a b => (f a - f b)%Z) x l).
Proof.
  induction 1 as [|y l Hl IH Hy]; simpl.
  - repeat constructor.
  - destruct (Z.gtb_spec (f x - f y) 0) as [Hgt|Hle].
    + constructor; [done|].
      rewrite sort_insert_perm. constructor; [lia|done].
    + constructor; [by constructor|].
      constructor; [lia|].
      eapply Forall_impl; [exact Hy|]. simpl. intros; lia.
Qed.

Lemma Array_sort_sorted_by (l : list A) :
  StronglySorted (fun a b => (f a <= f b)%Z) (Array_sort (fun a b => (f a - f b)%Z) l).
Proof.
  induction l as [|x l IH]; simpl; [constructor|]. by apply sort_insert_sorted_by.
Qed.
End SortedBy.

(** X18: [getMessagesForChat(chatId)] returns the stored records whose
    [recipientId] is [chatId], whatever [chatId] they were saved with, each
    once, in ascending order of [timestamp]. *)
Theorem getMessagesForChat_returns (chatId : jsstring) (db : DatabaseService.t) :
  (forall r : StoredMessage.t,
      r ∈ DatabaseReads.getMessagesForChat chatId db
      <-> (exists k, DatabaseService.messageStore db !! k = Some r)
          /\ TextMessage.recipientId (StoredMessage.message r) = chatId)
  /\ StronglySorted
       (fun a b => (TextMessage.timestamp (StoredMessage.message a)
                    <= TextMessage.timestamp (StoredMessage.message b))%Z)
       (DatabaseReads.getMessagesForChat chatId db)
  /\ DatabaseReads.getMessagesForChat chatId db
     ≡ₚ filter (fun r => TextMessage.recipientId (StoredMessage.message r) = chatId)
          (map_to_list (DatabaseService.messageStore db)).*2.
Proof.
  unfold DatabaseReads.getMessagesForChat. split; [|split].
  - intros r. rewrite (Array_sort_perm by_stored_timestamp), list_elem_of_filter.
    rewrite elem_of_getAll. tauto.
  - apply (Array_sort_sorted_by
             (fun r : StoredMessage.t => TextMessage.timestamp (StoredMessage.message r))).
  - rewrite (Array_sort_perm by_stored_timestamp). unfold getAll.
    by rewrite (Array_sort_perm after_key).
Qed.

Lemma elem_of_getMessagesForChat (chatId : jsstring) (db : DatabaseService.t)
    (r : StoredMessage.t) :
  r ∈ DatabaseReads.getMessagesForChat chatId db
  <-> (exists k, DatabaseService.messageStore db !! k = Some r)
      /\ TextMessage.recipientId (StoredMessage.message r) = chatId.
Proof.
  unfold DatabaseReads.getMessagesForChat.
  rewrite (Array_sort_perm by_stored_timestamp), list_elem_of_filter, elem_of_getAll. tauto.
Qed.

Lemma length_getAll {A : Type} (store : gmap jsstring A) : length (getAll store) = size store.
Proof.
  unfold getAll. by rewrite length_fmap, (Array_sort_length after_key), length_map_to_list.
Qed.

(** X19: after [saveMessage(message, chatId)] the record is in the store in the
    place of any record of the same id, so that the store has as many records
    as before, or one more when the id is new; [getMessagesForChat] returns
    it for the [recipientId] of the message, and returns it for [chatId]
    only if that is the [recipientId] too; the chats stored are as
    before. *)
Theorem saveMessage_then_read (message : TextMessage.t) (chatId : jsstring)
    (db : DatabaseService.t) :
  StoredMessage.mk message chatId
    ∈ DatabaseReads.getMessagesForChat (TextMessage.recipientId message)
        (DatabaseService.saveMessage message chatId db)
  /\ (StoredMessage.mk message chatId
        ∈ DatabaseReads.getMessagesForChat chatId (DatabaseService.saveMessage message chatId db)
      <-> TextMessage.recipientId message = chatId)
  /\ DatabaseService.messageStore (DatabaseService.saveMessage message chatId db)
       !! TextMessage.id message = Some (StoredMessage.mk message chatId)
  /\ length (getAll (DatabaseService.messageStore (DatabaseService.saveMessage message chatId db)))
     = (match DatabaseService.messageStore db !! TextMessage.id message with
        | Some _ => length (getAll (DatabaseService.messageStore db))
        | None => S (length (getAll (DatabaseService.messageStore db)))
        end)
  /\ DatabaseReads.getChats (DatabaseService.saveMessage message chatId db)
     = DatabaseReads.getChats db.
Proof.
  assert (exists k, DatabaseService.messageStore (DatabaseService.saveMessage message chatId db)
                      !! k = Some (StoredMessage.mk message chatId)) as Hstored.
  { exists (TextMessage.id message). apply lookup_insert_eq. }
  split; [by apply elem_of_getMessagesForChat|].
  split; [rewrite elem_of_getMessagesForChat; cbn; tauto|].
  split; [apply lookup_insert_eq|]. split; [|done].
  rewrite !length_getAll. cbn [DatabaseService.saveMessage DatabaseService.messageStore].
  destruct (DatabaseService.messageStore db !! TextMessage.id message) eqn:Hold.
  - by rewrite map_size_insert_Some.
  - by rewrite map_size_insert_None.
Qed.

(** X20: after [saveChat(chat)], [getChats] returns the chat without its messages
    and without its key handle, in the place of any chat of the same id: as
    many chats as before, or one more when the id is new; the messages
    stored are as before. *)
Theorem saveChat_then_read (chat : Chat.t) (db : DatabaseService.t) :
  DatabaseService.storableChat chat ∈ DatabaseReads.getChats (DatabaseService.saveChat chat db)
  /\ (forall stored : StorableChat.t,
        stored ∈ DatabaseReads.getChats (DatabaseService.saveChat chat db) ->
        stored = DatabaseService.storableChat chat
        \/ exists k, k <> Chat.id chat /\ DatabaseService.chatStore db !! k = Some stored)
  /\ length (DatabaseReads.getChats (DatabaseService.saveChat chat db))
     = (match DatabaseService.chatStore db !! Chat.id chat with
        | Some _ => length (DatabaseReads.getChats db)
        | None => S (length (DatabaseReads.getChats db))
        end)
  /\ (forall chatId,
        DatabaseReads.getMessagesForChat chatId (DatabaseService.saveChat chat db)
        = DatabaseReads.getMessagesForChat chatId db).
Proof.
  unfold DatabaseReads.getChats. split; [|split; [|split; [|done]]].
  - apply elem_of_getAll. exists (Chat.id chat). apply lookup_insert_eq.
  - intros stored [k Hk]%elem_of_getAll. cbn in Hk.
    destruct (decide (k = Chat.id chat)) as [->|Hne].
    + rewrite lookup_insert_eq in Hk. left. congruence.
    + rewrite lookup_insert_ne in Hk by done. right. by exists k.
  - rewrite !length_getAll. cbn [DatabaseService.saveChat DatabaseService.chatStore].
    destruct (DatabaseService.chatStore db !! Chat.id chat) eqn:Hold.
    + by rewrite map_size_insert_Some.
    + by rewrite map_size_insert_None.
Qed.

(** ** components/ChatView.tsx: loading *)

(** The key handle [loadChats] gives a stored chat, when the import of its
    JSON Web Key does not throw. *)
Definition restored_key (savedChat : StorableChat.t) : option CryptoKey.t :=
  match StorableChat.groupKeyJwk savedChat with
  | Some jwk =>
      if truthy jwk
      then match importSymmetricKey jwk with Ok key => Some key | Throw _ => None end
      else None
  | None => None
  end.

Definition key_imports (savedChat : StorableChat.t) : Prop :=
  forall jwk, StorableChat.groupKeyJwk savedChat = Some jwk -> truthy jwk = true ->
              exists key, importSymmetricKey jwk = Ok key.

Definition restored (db : DatabaseService.t) (savedChat : StorableChat.t) : Chat.t :=
  Chat.mk (StorableChat.id savedChat) (StorableChat.name savedChat)
    (StorableChat.type savedChat)
    (StoredMessage.message
       <$> DatabaseReads.getMessagesForChat (StorableChat.id savedChat) db)
    (StorableChat.unreadCount savedChat) (StorableChat.members savedChat)
    (restored_key savedChat) (StorableChat.groupKeyJwk savedChat).

Definition keyed_by_id (store : gmap jsstring StorableChat.t) : Prop :=
  forall k savedChat, store !! k = Some savedChat -> StorableChat.id savedChat = k.

Lemma loadChats_fold (db : DatabaseService.t) (l : list StorableChat.t)
    (chatMap : gmap jsstring Chat.t) :
  Forall key_imports l ->
  foldl (fun (loaded : result (gmap jsstring Chat.t)) (savedChat : StorableChat.t) =>
           chatMap ← loaded;
           let messages := DatabaseReads.getMessagesForChat (StorableChat.id savedChat) db in
           groupKey ← match StorableChat.groupKeyJwk savedChat with
                      | Some jwk => if truthy jwk then Some <$> importSymmetricKey jwk
                                    else Ok None
                      | None => Ok None
                      end;
           Ok (<[StorableChat.id savedChat :=
                   Chat.mk (StorableChat.id savedChat) (StorableChat.name savedChat)
                     (StorableChat.type savedChat) (StoredMessage.message <$> messages)
                     (StorableChat.unreadCount savedChat) (StorableChat.members savedChat)
                     groupKey (StorableChat.groupKeyJwk savedChat)]> chatMap))
        (Ok chatMap) l
  = Ok (foldl (fun chatMap savedChat =>
                 <[StorableChat.id savedChat := restored db savedChat]> chatMap) chatMap l).
Proof.
  intros Hl. revert chatMap. induction Hl as [|savedChat l Himport _ IH]; intros chatMap.
  - reflexivity.
  - cbn [foldl]. rewrite <- IH. f_equal. unfold restored, restored_key.
    unfold key_imports in Himport.
    destruct (StorableChat.groupKeyJwk savedChat) as [jwk|]; [|reflexivity].
    destruct (truthy jwk) eqn:Htruthy; [|reflexivity].
    destruct (Himport jwk eq_refl Htruthy) as [key ->]. reflexivity.
Qed.

Lemma foldl_insert_lookup (db : DatabaseService.t) (l : list StorableChat.t)
    (chatMap : gmap jsstring Chat.t) (k : jsstring) :
  NoDup (StorableChat.id <$> l) ->
  foldl (fun chatMap savedChat =>
           <[StorableChat.id savedChat := restored db savedChat]> chatMap) chatMap l !! k
  = match list_find (fun savedChat => StorableChat.id savedChat = k) l with
    | Some (_, savedChat) => Some (restored db savedChat)
    | None => chatMap !! k
    end.
Proof.
  revert chatMap. induction l as [|savedChat l IH]; intros chatMap Hnodup; [reflexivity|].
  apply NoDup_cons in Hnodup as [Hfresh Hnodup]. cbn [foldl list_find].
  rewrite IH by done. case_decide as Hid.
  - subst k. destruct (list_find _ l) as [[i other]|] eqn:Hfind.
    + apply list_find_Some in Hfind as (Hi & Hother & _). destruct Hfresh.
      rewrite <- Hother. apply list_elem_of_fmap_2. by eapply list_elem_of_lookup_2.
    + apply lookup_insert_eq.
  - destruct (list_find _ l) as [[i other]|]; [reflexivity|]. cbn [fmap option_fmap option_map].
    by apply lookup_insert_ne.
Qed.

Lemma getChats_ids (db : DatabaseService.t) :
  keyed_by_id (DatabaseService.chatStore db) ->
  NoDup (StorableChat.id <$> DatabaseReads.getChats db).
Proof.
  intros Hkeyed. unfold DatabaseReads.getChats, getAll.
  set (l := Array_sort after_key (map_to_list (DatabaseService.chatStore db))).
  assert (l ≡ₚ map_to_list (DatabaseService.chatStore db)) as Hperm
    by apply (Array_sort_perm after_key).
  assert (StorableChat.id <$> l.*2 = l.*1) as Hids.
  { assert (Forall (fun kc => StorableChat.id kc.2 = kc.1) l) as Hl.
    { apply Forall_forall. intros [k c] Hin. rewrite Hperm in Hin.
      apply elem_of_map_to_list in Hin. by apply Hkeyed. }
    clear Hperm. induction Hl as [|[k c] l' Hkc _ IH]; [done|].
    rewrite !fmap_cons, IH. cbn [fst snd] in *. by rewrite Hkc. }
  rewrite Hids, Hperm. apply NoDup_fst_map_to_list.
Qed.

Lemma loadChats_Ok (db : DatabaseService.t) :
  keyed_by_id (DatabaseService.chatStore db) ->
  (forall k savedChat, DatabaseService.chatStore db !! k = Some savedChat ->
                       key_imports savedChat) ->
  exists loaded : gmap jsstring Chat.t,
    loadChats db = Ok loaded
    /\ forall k, loaded !! k = restored db <$> DatabaseService.chatStore db !! k.
Proof.
  intros Hkeyed Himports. unfold loadChats.
  rewrite loadChats_fold.
  2:{ apply Forall_forall. intros savedChat [k Hk]%elem_of_getAll. by eapply Himports. }
  eexists. split; [reflexivity|]. intros k.
  rewrite foldl_insert_lookup by by apply getChats_ids.
  destruct (list_find _ _) as [[i savedChat]|] eqn:Hfind.
  - apply list_find_Some in Hfind as (Hi & Hid & _).
    apply list_elem_of_lookup_2, elem_of_getAll in Hi as [k' Hk'].
    pose proof (Hkeyed _ _ Hk') as Hkey. rewrite Hid in Hkey. subst k'. by rewrite Hk'.
  - rewrite lookup_empty. destruct (DatabaseService.chatStore db !! k) as [savedChat|] eqn:Hk;
      [|done].
    eapply list_find_None, Forall_forall in Hfind; [|apply elem_of_getAll; by exists k].
    destruct Hfind. by apply Hkeyed.
Qed.

(** X21: [loadChats] on a database whose chats are stored under their ids (as
    [saveChat] stores them) and whose stored keys can be imported: the map
    handed to [setChats] has exactly the stored chats, each under its id,
    with the stored name, type, unread count, members and JSON Web Key, the
    key imported from it, and as messages the stored messages whose
    [recipientId] is the id of the chat, in the order of their timestamps. *)
Theorem loadChats_restores (db : DatabaseService.t) :
  keyed_by_id (DatabaseService.chatStore db) ->
  (forall k savedChat, DatabaseService.chatStore db !! k = Some savedChat ->
                       key_imports savedChat) ->
  exists loaded : gmap jsstring Chat.t,
    loadChats db = Ok loaded
    /\ forall k, loaded !! k = restored db <$> DatabaseService.chatStore db !! k.
Proof. exact (loadChats_Ok db). Qed.

(** The group "Café" saved, and one message to the group saved. *)
Definition cafe_database : DatabaseService.t :=
  DatabaseService.saveMessage
    (TextMessage.mk 7 (str "m1") (str "me") (str "group-a") (str "AAAA") (str "AAAA"))
    (str "group-a") (DatabaseService.saveChat cafe_group DatabaseService.empty).

Lemma loadChats_restores_witness :
  exists loaded : gmap jsstring Chat.t,
    loadChats cafe_database = Ok loaded
    /\ forall k, loaded !! k = restored cafe_database <$> DatabaseService.chatStore cafe_database !! k.
Proof.
  apply loadChats_restores.
  - intros k savedChat Hk. unfold cafe_database in Hk.
    cbn [DatabaseService.chatStore DatabaseService.saveMessage DatabaseService.saveChat
         DatabaseService.empty] in Hk.
    apply lookup_insert_Some in Hk as [[<- <-]|[_ Hk]]; [reflexivity|].
    by rewrite lookup_empty in Hk.
  - intros k savedChat Hk. unfold cafe_database in Hk.
    cbn [DatabaseService.chatStore DatabaseService.saveMessage DatabaseService.saveChat
         DatabaseService.empty] in Hk.
    apply lookup_insert_Some in Hk as [[<- <-]|[_ Hk]]; [|by rewrite lookup_empty in Hk].
    intros jwk [= <-] _. exists sample_key. by apply importSymmetricKey_exported; [apply is_bytes_check|].
Defined.

(** X22: one stored chat whose JSON Web Key cannot be imported makes the whole
    load fail: [setChats] is not called, and no chat is restored. *)
Theorem loadChats_rejects (db : DatabaseService.t) (k : jsstring)
    (savedChat : StorableChat.t) (jwk : JsonWebKey) (e : JSError) :
  DatabaseService.chatStore db !! k = Some savedChat ->
  StorableChat.groupKeyJwk savedChat = Some jwk -> truthy jwk = true ->
  importSymmetricKey jwk = Throw e ->
  exists e', loadChats db = Throw e'.
Proof.
  intros Hk Hjwk Htruthy Himport. unfold loadChats.
  assert (savedChat ∈ DatabaseReads.getChats db) as Hin by (apply elem_of_getAll; by exists k).
  generalize (Ok ∅ : result (gmap jsstring Chat.t)).
  induction (DatabaseReads.getChats db) as [|c l IH]; intros loaded.
  - by apply elem_of_nil in Hin.
  - assert (forall e0 (l0 : list StorableChat.t),
              foldl (fun (loaded : result (gmap jsstring Chat.t)) (savedChat : StorableChat.t) =>
                       chatMap ← loaded;
                       let messages :=
                         DatabaseReads.getMessagesForChat (StorableChat.id savedChat) db in
                       groupKey ← match StorableChat.groupKeyJwk savedChat with
                                  | Some jwk => if truthy jwk then Some <$> importSymmetricKey jwk
                                                else Ok None
                                  | None => Ok None
                                  end;
                       Ok (<[StorableChat.id savedChat :=
                               Chat.mk (StorableChat.id savedChat) (StorableChat.name savedChat)
                                 (StorableChat.type savedChat) (StoredMessage.message <$> messages)
                                 (StorableChat.unreadCount savedChat)
                                 (StorableChat.members savedChat)
                                 groupKey (StorableChat.groupKeyJwk savedChat)]> chatMap))
                    (Throw e0) l0 = Throw e0) as Hthrown.
    { intros e0 l0. induction l0 as [|c0 l0 IH0]; [done|]. exact IH0. }
    apply elem_of_cons in Hin as [<-|Hin].
    + cbn [foldl]. destruct loaded as [chatMap|e0].
      * rewrite Hjwk, Htruthy, Himport. cbn [fmap result_fmap mbind result_bind].
        eexists. apply Hthrown.
      * eexists. apply Hthrown.
    + cbn [foldl]. by apply IH.
Qed.

(** A stored chat whose [groupKeyJwk] is a string, as a damaged record. *)
Definition damaged_database : DatabaseService.t :=
  DatabaseService.mk
    {[ str "group-a" := StorableChat.mk (str "group-a") (str "first") group None 0 [] None
                          (Some (JString (str "oct"))) ]} ∅.

Lemma loadChats_rejects_witness : exists e', loadChats damaged_database = Throw e'.
Proof.
  eapply (loadChats_rejects damaged_database (str "group-a") _ (JString (str "oct")) TypeError).
  - apply lookup_singleton_eq.
  - reflexivity.
  - reflexivity.
  - reflexivity.
Defined.

Lemma getAll_singleton {A : Type} (k : jsstring) (x : A) : getAll (<[k := x]> ∅) = [x].
Proof. unfold getAll. by rewrite insert_empty, map_to_list_singleton. Qed.

(** X23: a group is created in an empty application and a message is sent in it;
    the application is then loaded again from what was saved: for a key of
    32 bytes, and a content whose UTF-8 bytes and a tag of sixteen are no
    more than a call takes arguments, [loadChats] gives the chats as they
    were after the message was sent: the group with its name, its member,
    its key and the message. *)
Theorem group_conversation_reloaded {js : JSEngine} (user : User.t) (peers : list Peer.t)
    (name uuid content messageId : jsstring) (random iv : list N) (now : Z) :
  is_bytes random -> length random = 32%nat -> is_code_units content -> is_nonce iv ->
  spread_length content <= argument_limit ->
  exists (created : ChatView.t) (calls : list DbCall) (sent : Sent.t),
    createGroup user name uuid random ChatView.initial = Ok (created, calls)
    /\ sendMessage user peers created content messageId now iv = Ok sent
    /\ Sent.message sent <> None
    /\ loadChats (run_db_calls (calls ++ Sent.calls sent) DatabaseService.empty)
       = Ok (Sent.chats sent).
Proof.
  intros Hrandom Hlen Hcontent Hiv Hfits. rewrite createGroup_Ok. cbv zeta.
  set (groupId := str "group-" ++ uuid). set (newGroup := Chat.mk _ _ _ _ _ _ _ _).
  destruct (sendMessage_with_key user peers
              (ChatView.mk (<[groupId := newGroup]> (ChatView.chats ChatView.initial))
                 (Some groupId))
              content messageId now iv groupId newGroup (generateSymmetricKey random))
    as [recipients Hsent]; try done.
  { apply lookup_insert_eq. }
  { split; [split; [done|right; right; done]|done]. }
  eexists. eexists. eexists. split; [reflexivity|]. split; [exact Hsent|]. cbv zeta.
  cbn [Sent.message Sent.calls Sent.chats ChatView.chats ChatView.initial].
  split; [done|]. set (message := TextMessage.mk _ _ _ _ _ _).
  set (db := run_db_calls _ _).
  destruct (loadChats_Ok db) as (loaded & -> & Hloaded).
  - intros k savedChat Hk. subst db. cbn in Hk.
    apply lookup_insert_Some in Hk as [[<- <-]|[_ Hk]]; [reflexivity|].
    by rewrite lookup_empty in Hk.
  - intros k savedChat Hk. subst db. cbn in Hk.
    apply lookup_insert_Some in Hk as [[<- <-]|[_ Hk]]; [|by rewrite lookup_empty in Hk].
    intros jwk [= <-] _. exists (generateSymmetricKey random).
    by apply importSymmetricKey_exported.
  - f_equal. apply map_eq. intros k. rewrite Hloaded. rewrite insert_insert_eq.
    change (DatabaseService.chatStore db)
      with (<[groupId := DatabaseService.storableChat newGroup]>
              (∅ : gmap jsstring StorableChat.t)).
    destruct (decide (k = groupId)) as [->|Hk].
    + rewrite !lookup_insert_eq. cbn [fmap option_fmap option_map]. f_equal.
      unfold restored, restored_key.
      cbn [DatabaseService.storableChat StorableChat.id StorableChat.name StorableChat.type
           StorableChat.unreadCount StorableChat.members StorableChat.groupKeyJwk
           Chat.id Chat.name Chat.type Chat.unreadCount Chat.members Chat.groupKeyJwk
           newGroup].
      change (truthy (exported_key_jwk (base64url_encode random))) with true. cbv iota.
      rewrite importSymmetricKey_exported by done.
      unfold DatabaseReads.getMessagesForChat.
      change (DatabaseService.messageStore db)
        with (<[messageId := StoredMessage.mk message groupId]>
                (∅ : gmap jsstring StoredMessage.t)).
      rewrite getAll_singleton, filter_cons, decide_True by done.
      reflexivity.
    + by rewrite !lookup_insert_ne, !lookup_empty.
Qed.

Section SampleReload.
#[local] Existing Instance sample_engine.

Lemma group_conversation_reloaded_witness :
  exists (created : ChatView.t) (calls : list DbCall) (sent : Sent.t),
    createGroup me (str "Caf" ++ [0xE9]) (str "a") (N.of_nat <$> seq 1 32) ChatView.initial
    = Ok (created, calls)
    /\ sendMessage me [] created (str "hello") (str "m1") 7 (N.of_nat <$> seq 1 12)
       = Ok sent
    /\ Sent.message sent <> None
    /\ loadChats (run_db_calls (calls ++ Sent.calls sent) DatabaseService.empty)
       = Ok (Sent.chats sent).
Proof.
  apply group_conversation_reloaded.
  - by apply is_bytes_check.
  - reflexivity.
  - apply Forall_forall. intros c Hc. vm_compute in Hc.
    repeat (apply elem_of_cons in Hc as [->|Hc]; [done|]). by apply elem_of_nil in Hc.
  - split; [by apply is_bytes_check|reflexivity].
  - vm_compute. discriminate.
Defined.
End SampleReload.

(** ** components/Login.tsx: the stored identity *)

Lemma parse_identity (id name : jsstring) (d x y : N) :
  parse_value 20
    (JSON_stringify
       (identityToStore
          (User.mk id name (CryptoKeys.mk (shaped_key x y) (private_key_jwk d x y)) false)))
  = Some (identityToStore
            (User.mk id name (CryptoKeys.mk (shaped_key x y) (private_key_jwk d x y)) false),
          []).
Proof.
  unfold identityToStore, CryptoKeys_to_JSON.
  cbn [User.id User.name User.keys CryptoKeys.publicKey CryptoKeys.privateKey].
  pose proof (fun fuel => parse_public_key fuel x y) as Hpublic.
  pose proof (fun fuel => parse_private_key fuel d x y) as Hprivate.
  generalize dependent (shaped_key x y). generalize dependent (private_key_jwk d x y).
  intros privateKey Hprivate publicKey Hpublic.
  cbn [JSON_stringify map join_comma]. unfold QuoteJSONString.
  rewrite <- !app_assoc. cbn [app].
  repeat first [rewrite (Hpublic 5%nat) | rewrite (Hprivate 4%nat) | parse_step].
  reflexivity.
Qed.

Lemma generateUser_Ok {curve : NamedCurve} (name : jsstring) (d : N) (newUser : User.t) :
  generateUser name d = Ok newUser ->
  exists x y,
    newUser
    = User.mk (generateUserIdFromPublicKey (shaped_key x y)) name
        (CryptoKeys.mk (shaped_key x y) (private_key_jwk d x y)) false.
Proof.
  unfold generateUser, generateKeys, exportKey_jwk_ECDH_public, exportKey_jwk_ECDH_private.
  destruct (affine (smul d base_point)) as [[x y]|]; [|done].
  cbn [mbind result_bind]. intros [= <-]. by exists x, y.
Qed.

Lemma Login_effect_Ok (storedIdentity : jsstring) (v : JSON) (user : User.t) :
  JSON_parse storedIdentity = Ok v -> as_stored_User v = Some user ->
  Login_effect (Some storedIdentity) = LoggedIn user.
Proof.
  intros Hparse Huser. destruct storedIdentity as [|c cs]; [done|].
  unfold Login_effect. rewrite Hparse. destruct v; try done; by rewrite Huser.
Qed.

(** X25: a user is created by [handleSubmit] only for a name of three code
    units or more once trimmed, and keeps the name as typed; the text put in
    local storage is read back by the effect on the stored identity as the
    same user: same id, name and keys, never in server mode. *)
Theorem stored_identity_restored {curve : NamedCurve} (name : jsstring) (d : N)
    (stored : jsstring) (newUser : User.t) :
  Login_handleSubmit name d = UserCreated stored newUser ->
  Login_effect (Some stored) = LoggedIn newUser
  /\ (3 <= length (trim name))%nat
  /\ User.name newUser = name
  /\ User.id newUser = generateUserIdFromPublicKey (CryptoKeys.publicKey (User.keys newUser)).
Proof.
  unfold Login_handleSubmit. destruct (Nat.ltb_spec (length (trim name)) 3) as [|Hlen]; [done|].
  destruct (generateUser name d) as [user|e] eqn:Huser; [|done]. intros [= <- <-].
  apply generateUser_Ok in Huser as (x & y & ->).
  split; [|done].
  assert (JSON_parse
            (JSON_stringify
               (identityToStore
                  (User.mk (generateUserIdFromPublicKey (shaped_key x y)) name
                     (CryptoKeys.mk (shaped_key x y) (private_key_jwk d x y)) false)))
          = Ok (identityToStore
                  (User.mk (generateUserIdFromPublicKey (shaped_key x y)) name
                     (CryptoKeys.mk (shaped_key x y) (private_key_jwk d x y)) false))) as Hparse.
  { assert (20 <= S (2 * length
                        (JSON_stringify
                           (identityToStore
                              (User.mk (generateUserIdFromPublicKey (shaped_key x y)) name
                                 (CryptoKeys.mk (shaped_key x y) (private_key_jwk d x y))
                                 false)))))%nat as Hfuel
      by (apply object_text_length; cbn [length]; lia).
    unfold JSON_parse.
    by rewrite (parse_value_fuel 20 _ _ _ Hfuel (parse_identity _ name d x y)). }
  by apply (Login_effect_Ok _ _ _ Hparse).
Qed.

Lemma stored_identity_restored_witness :
  exists stored : jsstring,
    @Login_handleSubmit Z7 (str "Alice") 3 = UserCreated stored alice
    /\ Login_effect (Some stored) = LoggedIn alice
    /\ (3 <= length (trim (str "Alice")))%nat
    /\ User.name alice = str "Alice"
    /\ User.id alice = generateUserIdFromPublicKey (CryptoKeys.publicKey (User.keys alice)).
Proof.
  eexists. split; [vm_compute; reflexivity|].
  apply (@stored_identity_restored Z7 (str "Alice") 3). vm_compute. reflexivity.
Defined.

(** * The identifier of a user *)

(** Two keys of the exported shape with the same JSON text are the same
    key. *)
Lemma shaped_key_text_inj (x y x' y' : N) :
  JSON_stringify (shaped_key x y) = JSON_stringify (shaped_key x' y') ->
  shaped_key x y = shaped_key x' y'.
Proof.
  intros Htext.
  pose proof (parse_public_key 0 x y []) as Hparse.
  pose proof (parse_public_key 0 x' y' []) as Hparse'.
  rewrite Htext, Hparse' in Hparse. congruence.
Qed.

(** The numeral of [n] in base sixteen on [digits] digits, the most
    significant first. *)
Fixpoint hex_numeral (digits : nat) (n : N) : jsstring :=
  match digits with
  | O => []
  | S digits' => hex_numeral digits' (n / 16) ++ [hex_digit (n mod 16)]
  end.

(** [hex(bytes)]: the bytes read as one number, most significant first,
    written in base sixteen on two digits a byte. *)
Definition hex (bytes : list N) : jsstring :=
  hex_numeral (2 * length bytes) (be_number bytes).

(** [id = hex(SHA-256(JSON(publicKey)))[0:16]], in the words of the
    specification. *)
Definition deriveId (publicKey : JsonWebKey) : jsstring :=
  firstn 16 (hex (SHA256.digest (TextEncoder_encode (JSON_stringify publicKey)))).

Lemma be_number_snoc (bytes : list N) (b : N) :
  be_number (bytes ++ [b]) = be_number bytes * 256 + b.
Proof. unfold be_number. by rewrite fold_left_app. Qed.

(** Joining the two digits of every byte writes the number the bytes make. *)
Lemma flat_map_hex2_hex (bytes : list N) : is_bytes bytes -> flat_map hex2 bytes = hex bytes.
Proof.
  induction bytes as [|b bytes IH] using rev_ind; [done|].
  intros [Hbytes Hb]%Forall_app. apply Forall_inv in Hb.
  rewrite flat_map_app, IH by done. unfold hex.
  rewrite be_number_snoc, length_app. cbn [length flat_map hex2 app].
  replace (2 * (length bytes + 1))%nat with (S (S (2 * length bytes))) by lia.
  cbn [hex_numeral]. rewrite <- app_assoc. cbn [app].
  replace ((be_number bytes * 256 + b) / 16 / 16) with (be_number bytes)
    by (rewrite N.Div0.div_div; change (16 * 16) with 256;
        rewrite N.div_add_l, (N.div_small b 256) by lia; lia).
  replace ((be_number bytes * 256 + b) / 16 mod 16) with (b / 16).
  2:{ replace (be_number bytes * 256 + b) with (b + (be_number bytes * 16) * 16) by lia.
      rewrite N.div_add, N.Div0.mod_add by lia.
      symmetry. apply N.mod_small, N.Div0.div_lt_upper_bound. lia. }
  replace ((be_number bytes * 256 + b) mod 16) with (b mod 16); [done|].
  replace (be_number bytes * 256 + b) with (b + (be_number bytes * 16) * 16) by lia.
  by rewrite N.Div0.mod_add.
Qed.


